(** * BrainBolt adaptive quiz: the answer-submission engine

    A shallow embedding of the backend's answer path
    ([score.ts], [adaptive.ts], [userState.ts], [leaderboard.ts],
    [idempotency.ts], [db.ts], [quiz.ts]) and the properties of it that
    the design document states.

    Conventions of the embedding.
    - The integer columns of the schema ([current_difficulty], [streak],
      [max_streak], [confidence], [state_version], question [difficulty])
      are [Z]: the code only adds, subtracts, halves and compares them.
    - Scores are JavaScript numbers, that is IEEE-754 binary64 values:
      [calculateScore] multiplies by [0.1], so they are kernel floats
      ([PrimFloat.float], same format, same rounding to nearest even).
    - Timestamps are epoch milliseconds ([Z]); [Date.now()] is the [now]
      argument every operation takes.
    - PostgreSQL is a record of tables, Redis one key space of tagged,
      expiring values; asynchronous calls are sequenced as written. *)

From Stdlib Require Import ZArith Floats Bool Lia QArith Qround Qminmax.
From stdpp Require Import gmap strings list fin_maps pretty.

Local Close Scope Q_scope.
Local Open Scope Z_scope.

(** ** JavaScript numbers *)

Module Js.

(** An integer read as a number: the nearest double. *)
Definition of_Z (z : Z) : float :=
  SF2Prim (binary_normalize prec emax z 0 false).

(** [Math.min] and [Math.max] on doubles: [NaN] is contagious, and of two
    equal arguments (the two zeros) the one with the fitting sign wins. *)
Definition Math_min (a b : float) : float :=
  if PrimFloat.is_nan a || PrimFloat.is_nan b then nan
  else if PrimFloat.ltb a b then a
  else if PrimFloat.ltb b a then b
  else if get_sign a then a else b.

Definition Math_max (a b : float) : float :=
  if PrimFloat.is_nan a || PrimFloat.is_nan b then nan
  else if PrimFloat.ltb a b then b
  else if PrimFloat.ltb b a then a
  else if get_sign a then b else a.

(** [Math.round] of a double, as an integer: [floor (x + 0.5)] on the
    exact value; [None] for [NaN] and the infinities. *)
Definition Math_round (x : float) : option Z :=
  match Prim2SF x with
  | S754_zero _ => Some 0
  | S754_finite s m e =>
      let n := if s then Z.neg m else Z.pos m in
      Some (if 0 <=? e then n * 2 ^ e
            else (2 * n + 2 ^ (- e)) / 2 ^ (- e + 1))
  | _ => None
  end.

(** A double that holds exactly the integer [z]. *)
Definition is_integer (x : float) : bool :=
  match Math_round x with
  | Some z => PrimFloat.eqb x (of_Z z)
  | None => false
  end.

(** A time is held in one of two forms: the [Date] object that
    node-postgres makes of a TIMESTAMP column, or the ISO string that
    [toISOString] and [JSON.stringify] make of a [Date]. *)
Inductive time_form := DateObject | ISOString.

(** [Date.parse] of a time held in the given form, on epoch milliseconds.
    The ISO string is parsed to the millisecond. A [Date] object is first
    converted to its string form, which stops at the seconds, so that its
    milliseconds are lost. *)
Definition Date_parse (form : time_form) (ms : Z) : Z :=
  match form with
  | ISOString => ms
  | DateObject => ms / 1000 * 1000
  end.

End Js.

(** ** score.ts *)

Definition MAX_MULTIPLIER : float := 2%float.
Definition WRONG_PENALTY : float := (-5)%float.

(** The literal [0.1] of the source: the double nearest to one tenth. *)
Definition one_tenth : float := 0x1.999999999999ap-4%float.

Definition calculateScore (difficulty streak : float) (correct : bool) : float :=
  let baseScore := (difficulty * 10)%float in
  let multiplier := Js.Math_min (1 + streak * one_tenth)%float MAX_MULTIPLIER in
  if negb correct then WRONG_PENALTY else (baseScore * multiplier)%float.

(** ** adaptive.ts *)

Definition MIN_DIFFICULTY : Z := 1.
Definition MAX_DIFFICULTY : Z := 10.
Definition CONFIDENCE_UP_THRESHOLD : Z := 2.
Definition CONFIDENCE_DOWN_THRESHOLD : Z := -2.
Definition MIN_STREAK_FOR_INCREASE : Z := 2.

(** On integers [Number.isNaN] is false and [Math.trunc] the identity. *)
Definition clampDifficulty (value : Z) : Z :=
  Z.min MAX_DIFFICULTY (Z.max MIN_DIFFICULTY value).

Definition clampConfidence (value : Z) : Z :=
  Z.max (- CONFIDENCE_UP_THRESHOLD) (Z.min CONFIDENCE_UP_THRESHOLD value).

Definition computeNextDifficulty
    (currentDifficulty : Z) (correct : bool) (confidence streak : Z) : Z * Z :=
  let nextConfidence := if correct then confidence + 1 else confidence - 1 in
  let nextDifficulty := currentDifficulty in
  let '(nextDifficulty, nextConfidence) :=
    if (CONFIDENCE_UP_THRESHOLD <=? nextConfidence)
       && (MIN_STREAK_FOR_INCREASE <=? streak)
    then (nextDifficulty + 1, 0)
    else if nextConfidence <=? CONFIDENCE_DOWN_THRESHOLD
    then (nextDifficulty - 1, 0)
    else (nextDifficulty, nextConfidence) in
  (clampDifficulty nextDifficulty, clampConfidence nextConfidence).

(** ** The data model *)

(** The tables of [schema.sql] that the engine touches, one record per row.
    A time is its count of milliseconds since the epoch, server and
    database keeping UTC. The counters (difficulty, streak, confidence,
    version) are integers, taken to stay within the range of their INT
    columns. Totals and score deltas are the doubles that the code
    computes: an integer column takes such a number only when it holds an
    integer, see [execute]. *)
Module Schema.

Record user_state := {
  user_id : string;
  current_difficulty : Z;
  streak : Z;
  max_streak : Z;
  total_score : float;
  confidence : Z;
  last_question_id : option string;
  last_answer_at : option Z;
  state_version : Z
}.

Record questions := {
  id : string;
  difficulty : Z;
  correct_answer_hash : string
}.

Record answer_log := {
  log_user_id : string;
  log_question_id : string;
  log_difficulty : Z;
  answer : string;
  correct : bool;
  score_delta : float;
  streak_at_answer : Z;
  confidence_after : Z;
  answered_at : Z
}.

End Schema.

Module UserState.
Record t := {
  userId : string;
  currentDifficulty : Z;
  streak : Z;
  maxStreak : Z;
  totalScore : float;
  stateVersion : Z;
  confidence : Z;
  lastAnswerAt : option Z;
  lastQuestionId : option string
}.
End UserState.

Module SubmitAnswerBody.
(** [stateVersion] is [None] when the request carries anything but an
    integer there; an absent string field is the empty string. *)
Record t := {
  userId : string;
  questionId : string;
  answer : string;
  stateVersion : option Z;
  answerIdempotencyKey : option string
}.
End SubmitAnswerBody.

Module SubmitAnswerResponse.
Record t := {
  correct : bool;
  newDifficulty : Z;
  newConfidence : Z;
  newStreak : Z;
  scoreDelta : float;
  totalScore : float;
  stateVersion : Z;
  leaderboardRankScore : Z;
  leaderboardRankStreak : Z;
  maxStreak : Z;
  answeredAt : Z
}.
End SubmitAnswerResponse.

Module LeaderboardEntry.
Record t := {
  userId : string;
  totalScore : float;
  maxStreak : float;
  rank : Z
}.
End LeaderboardEntry.

(** PostgreSQL: the durable store. Keyed tables are maps on their primary
    key, the answer log is append-only. A leaderboard row is the ranked value
    and its [updated_at]. *)
Record Db := {
  user_state : gmap string Schema.user_state;
  questions : gmap string Schema.questions;
  answer_log : list Schema.answer_log;
  leaderboard_score : gmap string (float * Z);
  leaderboard_streak : gmap string (Z * Z)
}.

(** Redis: one key space. A value is a counter, a sorted set, or a JSON text,
    kept here as the value it parses to. *)
Inductive payload :=
  | PCounter (n : Z)
  | PZset (members : gmap string float)
  | PResponse (r : SubmitAnswerResponse.t)
  | PUserState (s : UserState.t)
  | PTop (entries : list LeaderboardEntry.t)
  | PMetrics.

Record entry := { value : payload; expires : option Z }.

Record World := { db : Db; redis : gmap string entry }.

(** ** Errors and sequencing *)

(** The exceptions of the answer path, by message; [RedisWrongType] is the
    server's reply to a command on a key of another type, and to a text that
    does not hold what the caller parses it as; [DatabaseError] is the
    error that PostgreSQL raises for a statement, here for a number that an
    integer column does not take. *)
Inductive Error :=
  | MissingRequiredFields
  | InvalidStateVersion
  | RateLimitExceeded
  | UserStateNotFound
  | StateVersionMismatch
  | QuestionNotFound
  | RedisWrongType
  | DatabaseError.

(** A computation on a store [S] that returns or throws; the store it leaves
    is kept in both cases. *)
Definition SE (S A : Type) : Type := S → (Error + A) * S.

Global Instance se_ret {S} : MRet (SE S) := λ A a s, (inr a, s).
Global Instance se_bind {S} : MBind (SE S) := λ A B k c s,
  match c s with
  | (inr a, s') => k a s'
  | (inl e, s') => (inl e, s')
  end.

Global Instance se_fmap {S} : FMap (SE S) := λ A B f c s,
  match c s with
  | (inr a, s') => (inr (f a), s')
  | (inl e, s') => (inl e, s')
  end.

Definition throw {S A} (e : Error) : SE S A := λ s, (inl e, s).
Definition gets {S A} (f : S → A) : SE S A := λ s, (inr (f s), s).
Definition modify {S} (f : S → S) : SE S unit := λ s, (inr tt, f s).

Definition onDb {A} (c : SE Db A) : SE World A := λ w,
  let '(r, d) := c (db w) in (r, {| db := d; redis := redis w |}).
Definition onRedis {A} (c : SE (gmap string entry) A) : SE World A := λ w,
  let '(r, m) := c (redis w) in (r, {| db := db w; redis := m |}).

(** ** db.ts *)

(** [BEGIN], the handler, then [COMMIT]; a throw inside the handler is
    answered by [ROLLBACK], which discards whatever it wrote. *)
Definition withTransaction {T} (handler : SE Db T) : SE World T := λ w,
  match handler (db w) with
  | (inr result, d) => (inr result, {| db := d; redis := redis w |})
  | (inl err, _) => (inl err, w)
  end.

(** A JavaScript number bound to a parameter of an integer column.
    node-postgres sends the number as its decimal text; the server takes the
    text when it spells an integer within the range of the column type,
    and raises an error for a fraction, for [NaN], for an infinity and for
    a value out of range. [total_score] is BIGINT in [user_state] and in
    [leaderboard_score] (the decimal text of a double of magnitude [2 ^ 63]
    or more is out of its range), [score_delta] is INT in [answer_log]. *)
Definition integer_text (lo hi : Z) (x : float) : bool :=
  match Js.Math_round x with
  | Some z => PrimFloat.eqb x (Js.of_Z z) && (lo <=? z) && (z <=? hi)
  | None => false
  end.

Definition accepts_BIGINT (x : float) : bool := integer_text (- 2 ^ 63 + 1) (2 ^ 63 - 1) x.
Definition accepts_INT (x : float) : bool := integer_text (- 2 ^ 31) (2 ^ 31 - 1) x.

(** A statement that writes: run when the server takes its parameters, an
    error otherwise. *)
Definition execute (taken : bool) (statement : Db → Db) : SE Db unit :=
  if taken then modify statement else throw DatabaseError.

(** ** redis.ts: the commands the engine issues *)

Module Redis.

Definition live (now : Z) (e : entry) : bool :=
  match expires e with
  | Some t => now <? t
  | None => true
  end.

(** The entry under [key], unless it has expired. *)
Definition find (now : Z) (key : string) (m : gmap string entry) : option entry :=
  match m !! key with
  | Some e => if live now e then Some e else None
  | None => None
  end.

(** [GET]: a text value, never a sorted set. *)
Definition get (now : Z) (key : string) : SE (gmap string entry) (option payload) :=
  λ m, match find now key m with
       | Some {| value := PZset _ |} => (inl RedisWrongType, m)
       | Some e => (inr (Some (value e)), m)
       | None => (inr None, m)
       end.

(** [SET key value EX seconds]. *)
Definition set (now : Z) (key : string) (v : payload) (EX : Z)
  : SE (gmap string entry) unit :=
  modify (insert key {| value := v; expires := Some (now + EX * 1000) |}).

Definition del (key : string) : SE (gmap string entry) unit :=
  modify (delete key).

(** [INCR]: a missing key counts from zero and gets no expiry. *)
Definition incr (now : Z) (key : string) : SE (gmap string entry) Z :=
  λ m, match find now key m with
       | Some {| value := PCounter n; expires := t |} =>
           (inr (n + 1), <[key := {| value := PCounter (n + 1); expires := t |}]> m)
       | Some _ => (inl RedisWrongType, m)
       | None =>
           (inr 1, <[key := {| value := PCounter 1; expires := None |}]> m)
       end.

(** [EXPIRE key seconds]. *)
Definition expire (now : Z) (key : string) (seconds : Z)
  : SE (gmap string entry) unit :=
  λ m, match find now key m with
       | Some e =>
           (inr tt, <[key := {| value := value e;
                                expires := Some (now + seconds * 1000) |}]> m)
       | None => (inr tt, m)
       end.

(** [ZADD key score member]. *)
Definition zAdd (now : Z) (key : string) (score : float) (member : string)
  : SE (gmap string entry) unit :=
  λ m, match find now key m with
       | Some {| value := PZset z; expires := t |} =>
           (inr tt, <[key := {| value := PZset (<[member := score]> z);
                                expires := t |}]> m)
       | Some _ => (inl RedisWrongType, m)
       | None =>
           (inr tt, <[key := {| value := PZset {[ member := score ]};
                                expires := None |}]> m)
       end.

(** [a] comes before [b] from the top of a sorted set: higher score
    first, and among equal scores the greater member. *)
Definition above (a b : string * float) : bool :=
  PrimFloat.ltb (snd b) (snd a)
  || (PrimFloat.eqb (snd a) (snd b) && String.ltb (fst b) (fst a)).

Fixpoint place (x : string * float) (l : list (string * float)) :=
  match l with
  | [] => [x]
  | y :: l' => if above x y then x :: y :: l' else y :: place x l'
  end.

Definition descending (z : gmap string float) : list (string * float) :=
  foldr place [] (map_to_list z).

(** [ZRANGE key start stop REV WITHSCORES], for indexes from the top
    that are not negative. *)
Definition zRangeWithScores (now : Z) (key : string) (start stop : Z)
  : SE (gmap string entry) (list (string * float)) :=
  λ m, match find now key m with
       | Some {| value := PZset z |} =>
           (inr (take (Z.to_nat (stop - start + 1))
                      (drop (Z.to_nat start) (descending z))), m)
       | Some _ => (inl RedisWrongType, m)
       | None => (inr [], m)
       end.

(** [ZSCORE key member]. *)
Definition zScore (now : Z) (key member : string)
  : SE (gmap string entry) (option float) :=
  λ m, match find now key m with
       | Some {| value := PZset z |} => (inr (z !! member), m)
       | Some _ => (inl RedisWrongType, m)
       | None => (inr None, m)
       end.

End Redis.

(** ** idempotency.ts *)

Definition IDEMP_PREFIX : string := "idemp:".
Definition IDEMP_TTL_SECONDS : Z := 60 * 60 * 24.

Definition checkIdempotency (now : Z) (key : string)
  : SE (gmap string entry) (option payload) :=
  Redis.get now (IDEMP_PREFIX +:+ key).

Definition storeIdempotency (now : Z) (key : string) (response : SubmitAnswerResponse.t)
  : SE (gmap string entry) unit :=
  Redis.set now (IDEMP_PREFIX +:+ key) (PResponse response) IDEMP_TTL_SECONDS.

(** ** userState.ts *)

Definition USER_STATE_PREFIX : string := "user_state:".
Definition TTL_SECONDS : Z := 60 * 60.
Definition STREAK_DECAY_MS : Z := 5 * 60 * 1000.

Definition hydrateState (row : Schema.user_state) : UserState.t :=
  {| UserState.userId := Schema.user_id row;
     UserState.currentDifficulty := Schema.current_difficulty row;
     UserState.streak := Schema.streak row;
     UserState.maxStreak := Schema.max_streak row;
     UserState.totalScore := Schema.total_score row;
     UserState.stateVersion := Schema.state_version row;
     UserState.confidence := Schema.confidence row;
     UserState.lastAnswerAt := Schema.last_answer_at row;
     UserState.lastQuestionId := Schema.last_question_id row |}.

(** The spread [{...state, streak, confidence, stateVersion}] of [applyDecay]. *)
Definition decayed (state : UserState.t) : UserState.t :=
  {| UserState.userId := UserState.userId state;
     UserState.currentDifficulty := UserState.currentDifficulty state;
     UserState.streak := UserState.streak state / 2;
     UserState.maxStreak := UserState.maxStreak state;
     UserState.totalScore := UserState.totalScore state;
     UserState.stateVersion := UserState.stateVersion state + 1;
     UserState.confidence := Z.max (UserState.confidence state - 1) (-2);
     UserState.lastAnswerAt := UserState.lastAnswerAt state;
     UserState.lastQuestionId := UserState.lastQuestionId state |}.

(** [UPDATE user_state SET streak, confidence, state_version WHERE user_id]. *)
Definition update_decay (s : UserState.t) (row : Schema.user_state) : Schema.user_state :=
  {| Schema.user_id := Schema.user_id row;
     Schema.current_difficulty := Schema.current_difficulty row;
     Schema.streak := UserState.streak s;
     Schema.max_streak := Schema.max_streak row;
     Schema.total_score := Schema.total_score row;
     Schema.confidence := UserState.confidence s;
     Schema.last_question_id := Schema.last_question_id row;
     Schema.last_answer_at := Schema.last_answer_at row;
     Schema.state_version := UserState.stateVersion s |}.

Definition set_user_state (f : gmap string Schema.user_state → gmap string Schema.user_state)
    (d : Db) : Db :=
  {| user_state := f (user_state d);
     questions := questions d;
     answer_log := answer_log d;
     leaderboard_score := leaderboard_score d;
     leaderboard_streak := leaderboard_streak d |}.

(** The test of [applyDecay]: a last answer more than five minutes old and a
    streak to lose. [form] is the form in which [state.lastAnswerAt] is held
    when [Date.parse] reads it. *)
Definition decay_due (now : Z) (form : Js.time_form) (state : UserState.t) : bool :=
  match UserState.lastAnswerAt state with
  | None => false
  | Some lastAnswerAt =>
      let last := Js.Date_parse form lastAnswerAt in
      (STREAK_DECAY_MS <? now - last) && (0 <? UserState.streak state)
  end.

(** What is cached is the JSON text of the state, in which the time of the
    last answer is an ISO string whatever its form was. *)
Definition applyDecay (now : Z) (form : Js.time_form) (state : UserState.t)
    (cacheKey : string) : SE World UserState.t :=
  if decay_due now form state then
    let d := decayed state in
    _ ← onRedis (Redis.set now cacheKey (PUserState d) TTL_SECONDS);
    _ ← onDb (modify (set_user_state (alter (update_decay d) (UserState.userId state))));
    mret d
  else mret state.

(** A state parsed from the cache holds the time of the last answer as an
    ISO string; a state hydrated from a row holds the [Date] object of the
    row. *)
Definition getUserState (now : Z) (userId : string) : SE World (option UserState.t) :=
  let cacheKey := USER_STATE_PREFIX +:+ userId in
  cached ← onRedis (Redis.get now cacheKey);
  match cached with
  | Some (PUserState parsed) => Some <$> applyDecay now Js.ISOString parsed cacheKey
  | Some _ => throw RedisWrongType
  | None =>
      res ← onDb (gets (λ d, user_state d !! userId));
      match res with
      | None => mret None
      | Some raw =>
          let state := hydrateState raw in
          _ ← onRedis (Redis.set now cacheKey (PUserState state) TTL_SECONDS);
          Some <$> applyDecay now Js.DateObject state cacheKey
      end
  end.

Definition updateUserState (now : Z) (userId : string) (state : UserState.t)
  : SE (gmap string entry) unit :=
  Redis.set now (USER_STATE_PREFIX +:+ userId) (PUserState state) TTL_SECONDS.

(** ** leaderboard.ts *)

Definition SCORE_SET_KEY : string := "leaderboard:score".
Definition STREAK_SET_KEY : string := "leaderboard:streak".
Definition TOP_CACHE_TTL_SECONDS : Z := 30.

Inductive Kind := KScore | KStreak.

Definition kind_name (kind : Kind) : string :=
  match kind with KScore => "score" | KStreak => "streak" end.

Definition cacheKeyForTop (kind : Kind) (limit : Z) : string :=
  "leaderboard:cache:" +:+ kind_name kind +:+ ":" +:+ pretty limit.

(** [SELECT COUNT( * )::int + 1 ... WHERE value > $1] over a leaderboard table. *)
Definition rank_above {V} (gt : V → bool) (table : gmap string (V * Z)) : Z :=
  Z.of_nat (length (List.filter (λ r, gt (fst (snd r))) (map_to_list table))) + 1.

Definition upsert_leaderboard (now : Z) (userId : string)
    (totalScore : float) (maxStreak : Z) (d : Db) : Db :=
  {| user_state := user_state d;
     questions := questions d;
     answer_log := answer_log d;
     leaderboard_score := <[userId := (totalScore, now)]> (leaderboard_score d);
     leaderboard_streak := <[userId := (maxStreak, now)]> (leaderboard_streak d) |}.

Definition upsertLeaderboardTx (now : Z) (userId : string)
    (totalScore : float) (maxStreak : Z) : SE Db (Z * Z) :=
  _ ← execute (accepts_BIGINT totalScore)
        (upsert_leaderboard now userId totalScore maxStreak);
  rankScore ← gets (λ d, rank_above (λ v, PrimFloat.ltb totalScore v) (leaderboard_score d));
  rankStreak ← gets (λ d, rank_above (λ v, maxStreak <? v) (leaderboard_streak d));
  mret (rankScore, rankStreak).

Definition updateLeaderboardCaches (now : Z) (userId : string)
    (totalScore : float) (maxStreak : Z) : SE (gmap string entry) unit :=
  _ ← Redis.zAdd now SCORE_SET_KEY totalScore userId;
  _ ← Redis.zAdd now STREAK_SET_KEY (Js.of_Z maxStreak) userId;
  _ ← Redis.del (cacheKeyForTop KScore 10);
  Redis.del (cacheKeyForTop KStreak 10).

(** The [raw.map] of [getTop]: one entry per member of the range, ranked by
    position; the other dimension is looked up in its own sorted set. *)
Fixpoint top_entries (now : Z) (kind : Kind) (index : Z) (raw : list (string * float))
  : SE (gmap string entry) (list LeaderboardEntry.t) :=
  match raw with
  | [] => mret []
  | item :: rest =>
      score ← match kind with
              | KScore => mret (Some (snd item))
              | KStreak => Redis.zScore now SCORE_SET_KEY (fst item)
              end;
      streak ← match kind with
               | KStreak => mret (Some (snd item))
               | KScore => Redis.zScore now STREAK_SET_KEY (fst item)
               end;
      entries ← top_entries now kind (index + 1) rest;
      mret ({| LeaderboardEntry.userId := fst item;
               LeaderboardEntry.totalScore := default 0%float score;
               LeaderboardEntry.maxStreak := default 0%float streak;
               LeaderboardEntry.rank := index + 1 |} :: entries)
  end.

Definition getTop (now : Z) (kind : Kind) (setKey : string) (limit : Z)
  : SE (gmap string entry) (list LeaderboardEntry.t) :=
  let safeLimit := Z.max 1 limit in
  let cacheKey := cacheKeyForTop kind safeLimit in
  cached ← Redis.get now cacheKey;
  match cached with
  | Some (PTop entries) => mret entries
  | Some _ => throw RedisWrongType
  | None =>
      raw ← Redis.zRangeWithScores now setKey 0 (safeLimit - 1);
      entries ← top_entries now kind 0 raw;
      _ ← Redis.set now cacheKey (PTop entries) TOP_CACHE_TTL_SECONDS;
      mret entries
  end.

Definition getTopByScore (now : Z) (limit : Z) := getTop now KScore SCORE_SET_KEY limit.
Definition getTopByStreak (now : Z) (limit : Z) := getTop now KStreak STREAK_SET_KEY limit.

(** ** quiz.ts *)

Definition INACTIVITY_DECAY_MS : Z := 5 * 60 * 1000.
Definition RATE_LIMIT_PER_MINUTE : Z := 20.

(** A string in a condition: the empty one is false. *)
Definition nonempty (s : string) : bool :=
  match s with EmptyString => false | _ => true end.

(** The in-memory decay of [submitAnswer]: the three assignments to
    [currentState]. *)
Definition decay_in_place (s : UserState.t) : UserState.t :=
  {| UserState.userId := UserState.userId s;
     UserState.currentDifficulty := UserState.currentDifficulty s;
     UserState.streak := UserState.streak s / 2;
     UserState.maxStreak := UserState.maxStreak s;
     UserState.totalScore := UserState.totalScore s;
     UserState.stateVersion := UserState.stateVersion s + 1;
     UserState.confidence := Z.max (UserState.confidence s - 1) (-2);
     UserState.lastAnswerAt := UserState.lastAnswerAt s;
     UserState.lastQuestionId := UserState.lastQuestionId s |}.

(** [lastAnswerAt && decayMs > INACTIVITY_DECAY_MS], where [lastAnswerAt] is
    [Date.parse] of the [Date] object of the row, or undefined, and a zero
    time is false. *)
Definition decay_flag (now : Z) (row : Schema.user_state) : bool :=
  match Schema.last_answer_at row with
  | None => false
  | Some last_answer_at =>
      let lastAnswerAt := Js.Date_parse Js.DateObject last_answer_at in
      negb (lastAnswerAt =? 0) && (INACTIVITY_DECAY_MS <? now - lastAnswerAt)
  end.

(** [currentState] as the version check sees it: the locked row, decayed in
    memory when the flag is set. The query does not select
    [last_question_id]. *)
Definition current_state (now : Z) (row : Schema.user_state) : UserState.t :=
  let currentState :=
    {| UserState.userId := Schema.user_id row;
       UserState.currentDifficulty := Schema.current_difficulty row;
       UserState.streak := Schema.streak row;
       UserState.maxStreak := Schema.max_streak row;
       UserState.totalScore := Schema.total_score row;
       UserState.stateVersion := Schema.state_version row;
       UserState.confidence := Schema.confidence row;
       UserState.lastAnswerAt := Schema.last_answer_at row;
       UserState.lastQuestionId := None |} in
  if decay_flag now row then decay_in_place currentState else currentState.

Section Quiz.

(** [crypto.createHash("sha256").update(answer).digest("hex")]. *)
Variable sha256_hex : string → string.

(** The handler that [submitAnswer] passes to [withTransaction]. *)
Definition submitAnswer_tx (now : Z) (userId questionId answer : string)
    (stateVersion : Z) : SE Db SubmitAnswerResponse.t :=
  stateRes ← gets (λ d, user_state d !! userId);
  match stateRes with
  | None => throw UserStateNotFound
  | Some row =>
      let currentState := current_state now row in
      if negb (stateVersion =? UserState.stateVersion currentState)
      then throw StateVersionMismatch
      else
        questionRes ← gets (λ d, questions d !! questionId);
        match questionRes with
        | None => throw QuestionNotFound
        | Some question =>
            let incomingHash := sha256_hex answer in
            let correct := String.eqb incomingHash (Schema.correct_answer_hash question) in
            let newStreak := if correct then UserState.streak currentState + 1 else 0 in
            let newMaxStreak := Z.max (UserState.maxStreak currentState) newStreak in
            let scoreDelta :=
              calculateScore (Js.of_Z (Schema.difficulty question)) (Js.of_Z newStreak) correct in
            let newTotalScore :=
              Js.Math_max 0 (UserState.totalScore currentState + scoreDelta)%float in
            let '(nextDifficulty, nextConfidence) :=
              computeNextDifficulty (UserState.currentDifficulty currentState) correct
                (UserState.confidence currentState) newStreak in
            let newStateVersion := UserState.stateVersion currentState + 1 in
            let answeredAt := now in
            _ ← execute (accepts_BIGINT newTotalScore) (set_user_state (alter (λ r,
                   {| Schema.user_id := Schema.user_id r;
                      Schema.current_difficulty := nextDifficulty;
                      Schema.streak := newStreak;
                      Schema.max_streak := newMaxStreak;
                      Schema.total_score := newTotalScore;
                      Schema.confidence := nextConfidence;
                      Schema.last_question_id := Some questionId;
                      Schema.last_answer_at := Some answeredAt;
                      Schema.state_version := newStateVersion |}) userId));
            _ ← execute (accepts_INT scoreDelta) (λ d,
                   {| user_state := user_state d;
                      questions := questions d;
                      answer_log := answer_log d ++
                        [ {| Schema.log_user_id := userId;
                             Schema.log_question_id := questionId;
                             Schema.log_difficulty := Schema.difficulty question;
                             Schema.answer := answer;
                             Schema.correct := correct;
                             Schema.score_delta := scoreDelta;
                             Schema.streak_at_answer := newStreak;
                             Schema.confidence_after := nextConfidence;
                             Schema.answered_at := answeredAt |} ];
                      leaderboard_score := leaderboard_score d;
                      leaderboard_streak := leaderboard_streak d |});
            ranks ← upsertLeaderboardTx now userId newTotalScore newMaxStreak;
            mret {| SubmitAnswerResponse.correct := correct;
                    SubmitAnswerResponse.newDifficulty := nextDifficulty;
                    SubmitAnswerResponse.newConfidence := nextConfidence;
                    SubmitAnswerResponse.newStreak := newStreak;
                    SubmitAnswerResponse.scoreDelta := scoreDelta;
                    SubmitAnswerResponse.totalScore := newTotalScore;
                    SubmitAnswerResponse.stateVersion := newStateVersion;
                    SubmitAnswerResponse.leaderboardRankScore := fst ranks;
                    SubmitAnswerResponse.leaderboardRankStreak := snd ranks;
                    SubmitAnswerResponse.maxStreak := newMaxStreak;
                    SubmitAnswerResponse.answeredAt := answeredAt |}
        end
  end.

(** What follows the commit: the caches, then the idempotency record. *)
Definition after_commit (now : Z) (userId : string) (answerIdempotencyKey : option string)
    (result : SubmitAnswerResponse.t) : SE (gmap string entry) unit :=
  let cacheState :=
    {| UserState.userId := userId;
       UserState.currentDifficulty := SubmitAnswerResponse.newDifficulty result;
       UserState.streak := SubmitAnswerResponse.newStreak result;
       UserState.maxStreak := SubmitAnswerResponse.maxStreak result;
       UserState.totalScore := SubmitAnswerResponse.totalScore result;
       UserState.stateVersion := SubmitAnswerResponse.stateVersion result;
       UserState.confidence := SubmitAnswerResponse.newConfidence result;
       UserState.lastAnswerAt := Some (SubmitAnswerResponse.answeredAt result);
       UserState.lastQuestionId := None |} in
  _ ← updateLeaderboardCaches now userId (SubmitAnswerResponse.totalScore result)
        (UserState.maxStreak cacheState);
  _ ← updateUserState now userId cacheState;
  _ ← Redis.del ("metrics:" +:+ userId);
  match answerIdempotencyKey with
  | Some key => if nonempty key then storeIdempotency now key result else mret tt
  | None => mret tt
  end.

Definition submitAnswer (now : Z) (body : SubmitAnswerBody.t)
  : SE World SubmitAnswerResponse.t :=
  let userId := SubmitAnswerBody.userId body in
  let questionId := SubmitAnswerBody.questionId body in
  let answer := SubmitAnswerBody.answer body in
  let answerIdempotencyKey := SubmitAnswerBody.answerIdempotencyKey body in
  if negb (nonempty userId) || negb (nonempty questionId) || negb (nonempty answer)
  then throw MissingRequiredFields
  else
    match SubmitAnswerBody.stateVersion body with
    | None => throw InvalidStateVersion
    | Some stateVersion =>
        let rateKey := "rate:" +:+ userId in
        attempts ← onRedis (Redis.incr now rateKey);
        _ ← (if attempts =? 1 then onRedis (Redis.expire now rateKey 60) else mret tt);
        if RATE_LIMIT_PER_MINUTE <? attempts
        then throw RateLimitExceeded
        else
          existing ← match answerIdempotencyKey with
                     | Some key =>
                         if nonempty key then onRedis (checkIdempotency now key)
                         else mret None
                     | None => mret None
                     end;
          match existing with
          | Some (PResponse stored) => mret stored
          | Some _ => throw RedisWrongType
          | None =>
              result ← withTransaction
                         (submitAnswer_tx now userId questionId answer stateVersion);
              _ ← onRedis (after_commit now userId answerIdempotencyKey result);
              mret result
          end
    end.

End Quiz.

(** ** Vocabulary of the statements *)

(** The three required strings are present. *)
Definition well_formed (body : SubmitAnswerBody.t) : bool :=
  nonempty (SubmitAnswerBody.userId body)
  && nonempty (SubmitAnswerBody.questionId body)
  && nonempty (SubmitAnswerBody.answer body).

Definition rateKey (userId : string) : string := "rate:" +:+ userId.

(** The store as the rate limiter leaves it: the counter incremented, and
    given its minute when this was the first submission of the window. *)
Definition gate_redis (now : Z) (userId : string) (m : gmap string entry)
  : gmap string entry :=
  let '(r, m1) := Redis.incr now (rateKey userId) m in
  match r with
  | inr attempts =>
      if attempts =? 1 then snd (Redis.expire now (rateKey userId) 60 m1) else m1
  | inl _ => m1
  end.

(** What the idempotency lookup of a submission finds. *)
Definition stored_response (now : Z) (body : SubmitAnswerBody.t)
    (m : gmap string entry) : option payload :=
  match SubmitAnswerBody.answerIdempotencyKey body with
  | Some key =>
      if nonempty key then value <$> Redis.find now (IDEMP_PREFIX +:+ key) m else None
  | None => None
  end.

(** The adaptive-difficulty transition in the words of the design document:
    update the confidence, step up on two-fold momentum with a live streak,
    else step down on two-fold negative momentum, else carry; then clamp. *)
Definition clamp (lo hi x : Z) : Z := Z.max lo (Z.min hi x).

Definition machine_step (difficulty : Z) (correct : bool) (confidence streak : Z) : Z * Z :=
  let confidence' := if correct then confidence + 1 else confidence - 1 in
  if decide (2 ≤ confidence' ∧ 2 ≤ streak) then (clamp 1 10 (difficulty + 1), clamp (-2) 2 0)
  else if decide (confidence' ≤ -2) then (clamp 1 10 (difficulty - 1), clamp (-2) 2 0)
  else (clamp 1 10 difficulty, clamp (-2) 2 confidence').

(** The decay policy in the words of the design document, on the fields it
    names: (streak, confidence, stateVersion). *)
Definition decay_policy (lastAnswerAt : option Z) (now : Z) (s c v : Z) : Z * Z * Z :=
  match lastAnswerAt with
  | Some last =>
      if decide (5 * 60 * 1000 < now - last ∧ 0 < s)
      then (s / 2, Z.max (c - 1) (-2), v + 1)
      else (s, c, v)
  | None => (s, c, v)
  end.



(** The exported readers, by dimension. *)
Definition getTopOf (kind : Kind) (now limit : Z)
  : SE (gmap string entry) (list LeaderboardEntry.t) :=
  match kind with
  | KScore => getTopByScore now limit
  | KStreak => getTopByStreak now limit
  end.

Definition setKeyOf (kind : Kind) : string :=
  match kind with KScore => SCORE_SET_KEY | KStreak => STREAK_SET_KEY end.

(** ** Vocabulary of the score arithmetic *)

(** A shift record whose mantissa is positive and [j] binary digits long. *)
Definition has_digits (j : Z) (r : shr_record) : Prop :=
  ∃ m, shr_m r = Z.pos m ∧ Z.pos (digits2_pos m) = j.

(** A positive double that is an infinity or normal with exponent at least
    [k], that is a value of at least [2 ^ (k + 52)]. *)
Definition normal_from (k : Z) (x : spec_float) : Prop :=
  x = S754_infinity false
  ∨ ∃ m e, x = S754_finite false m e
           ∧ Z.pos (digits2_pos m) = 53 ∧ k ≤ e ∧ e ≤ 971.

(** The constants of the score formula, as sign, mantissa and exponent. *)
Definition sf_one_tenth : spec_float := S754_finite false 7205759403792794 (-56).
Definition sf_one : spec_float := S754_finite false 4503599627370496 (-52).
Definition sf_two : spec_float := S754_finite false 4503599627370496 (-51).

(** Neither [NaN] nor an infinity. *)
Definition sf_finite (x : spec_float) : bool :=
  match x with
  | S754_zero _ | S754_finite _ _ _ => true
  | _ => false
  end.

(** The score of a correct answer in exact arithmetic, as the design
    document writes it, and rounding to the nearest integer. *)
Definition exact_score (d s : Z) : Q :=
  (inject_Z d * 10 * Qmin (1 + (1 # 10) * inject_Z s) 2)%Q.

Definition round_half_up (q : Q) : Z := Qfloor (q + (1 # 2))%Q.

(** The scores of the difficulties 1 to 10 at the streaks 0 to 16, checked
    one by one: each is finite and rounds to [d * (10 + min s 10)]. *)
Definition score_entry_ok (d s : Z) : bool :=
  match Js.Math_round (calculateScore (Js.of_Z d) (Js.of_Z s) true) with
  | Some z => (z =? d * (10 + Z.min s 10))
              && sf_finite (Prim2SF (calculateScore (Js.of_Z d) (Js.of_Z s) true))
  | None => false
  end.

Definition score_table_ok : bool :=
  forallb (λ d, forallb (score_entry_ok d) (seqZ 0 17)) (seqZ 1 10).

(** ** Reachable stores *)

(** The row that onboarding inserts ([seed.ts]): difficulty 1, no streak, no
    score, neutral confidence, version 1. *)
Definition onboarding (userId : string) : Schema.user_state :=
  {| Schema.user_id := userId;
     Schema.current_difficulty := 1;
     Schema.streak := 0;
     Schema.max_streak := 0;
     Schema.total_score := 0%float;
     Schema.confidence := 0;
     Schema.last_question_id := None;
     Schema.last_answer_at := None;
     Schema.state_version := 1 |}.

(** [INSERT INTO user_state ... ON CONFLICT (user_id) DO NOTHING]. *)
Definition onboard (userId : string) (w : World) : World :=
  {| db := set_user_state
             (λ t, match t !! userId with
                   | Some _ => t
                   | None => <[userId := onboarding userId]> t
                   end) (db w);
     redis := redis w |}.

(** The ranges of the design document. *)
Definition in_bounds (difficulty confidence : Z) (totalScore : float) : Prop :=
  1 ≤ difficulty ≤ 10 ∧ -2 ≤ confidence ≤ 2 ∧ PrimFloat.leb 0 totalScore = true.

Definition row_ok (r : Schema.user_state) : Prop :=
  in_bounds (Schema.current_difficulty r) (Schema.confidence r) (Schema.total_score r)
  ∧ 0 ≤ Schema.streak r.

Definition state_ok (s : UserState.t) : Prop :=
  in_bounds (UserState.currentDifficulty s) (UserState.confidence s) (UserState.totalScore s)
  ∧ 0 ≤ UserState.streak s.

Definition cache_ok (m : gmap string entry) : Prop :=
  ∀ k e s, m !! k = Some e → value e = PUserState s → state_ok s.

(** The question bank keeps the [CHECK (difficulty BETWEEN 1 AND 10)] of
    the schema. *)
Definition questions_ok (d : Db) : Prop :=
  ∀ q r, questions d !! q = Some r → 1 ≤ Schema.difficulty r ≤ 10.

Definition rows_ok (d : Db) : Prop :=
  ∀ u r, user_state d !! u = Some r → row_ok r.

Definition world_ok (w : World) : Prop :=
  rows_ok (db w) ∧ questions_ok (db w) ∧ cache_ok (redis w).

(** A store right after onboarding: every user at the defaults, an empty
    cache. *)
Definition initial (w : World) : Prop :=
  redis w = ∅
  ∧ (∀ u r, user_state (db w) !! u = Some r → r = onboarding u)
  ∧ questions_ok (db w).

(** The stores that submissions, reads of the user state (which decay),
    reads of the tops and further onboardings lead to. *)
Inductive reachable (sha256_hex : string → string) : World → Prop :=
  | reachable_initial w :
      initial w → reachable sha256_hex w
  | reachable_onboard w userId :
      reachable sha256_hex w → reachable sha256_hex (onboard userId w)
  | reachable_submit w now body :
      reachable sha256_hex w →
      reachable sha256_hex (snd (submitAnswer sha256_hex now body w))
  | reachable_read w now userId :
      reachable sha256_hex w → reachable sha256_hex (snd (getUserState now userId w))
  | reachable_top w now kind limit :
      reachable sha256_hex w →
      reachable sha256_hex (snd (onRedis (getTopOf kind now limit) w)).

(** ** Sample data for the witnesses and counterexamples *)

Module Sample.

(** A stand-in digest: the text itself. *)
Definition digest (s : string) : string := s.

Definition minute : Z := 60 * 1000.

(** A user who last answered at time 1000, with a streak to lose. *)
Definition row : Schema.user_state :=
  {| Schema.user_id := "u1";
     Schema.current_difficulty := 3;
     Schema.streak := 4;
     Schema.max_streak := 6;
     Schema.total_score := 120%float;
     Schema.confidence := 1;
     Schema.last_question_id := Some "q0";
     Schema.last_answer_at := Some 1000;
     Schema.state_version := 3 |}.

(** The same user without a streak. *)
Definition idle_row : Schema.user_state :=
  {| Schema.user_id := "u1";
     Schema.current_difficulty := 3;
     Schema.streak := 0;
     Schema.max_streak := 6;
     Schema.total_score := 120%float;
     Schema.confidence := 0;
     Schema.last_question_id := Some "q0";
     Schema.last_answer_at := Some 1000;
     Schema.state_version := 3 |}.

Definition question : Schema.questions :=
  {| Schema.id := "q1"; Schema.difficulty := 5; Schema.correct_answer_hash := "a" |}.

Definition store (r : Schema.user_state) : Db :=
  {| user_state := {[ "u1" := r ]};
     questions := {[ "q1" := question ]};
     answer_log := [];
     leaderboard_score := {[ "u1" := (120%float, 1000) ]};
     leaderboard_streak := {[ "u1" := (6, 1000) ]} |}.

Definition world : World := {| db := store row; redis := ∅ |}.
Definition idle_world : World := {| db := store idle_row; redis := ∅ |}.

Definition submission (answer : string) (version : Z) (key : option string)
  : SubmitAnswerBody.t :=
  {| SubmitAnswerBody.userId := "u1";
     SubmitAnswerBody.questionId := "q1";
     SubmitAnswerBody.answer := answer;
     SubmitAnswerBody.stateVersion := Some version;
     SubmitAnswerBody.answerIdempotencyKey := key |}.

(** A response as a first submission under token [k1] left it. *)
Definition response : SubmitAnswerResponse.t :=
  {| SubmitAnswerResponse.correct := true;
     SubmitAnswerResponse.newDifficulty := 3;
     SubmitAnswerResponse.newConfidence := 0;
     SubmitAnswerResponse.newStreak := 4;
     SubmitAnswerResponse.scoreDelta := 70%float;
     SubmitAnswerResponse.totalScore := 120%float;
     SubmitAnswerResponse.stateVersion := 3;
     SubmitAnswerResponse.leaderboardRankScore := 1;
     SubmitAnswerResponse.leaderboardRankStreak := 1;
     SubmitAnswerResponse.maxStreak := 6;
     SubmitAnswerResponse.answeredAt := 1000 |}.

(** The store of a user who has a response on record under [k1] and
    [attempts] submissions counted in the running window. *)
Definition replay_world (attempts : Z) : World :=
  {| db := store row;
     redis := {[ "idemp:k1" := {| value := PResponse response;
                                 expires := Some (1000 + 24 * 60 * minute) |};
                 "rate:u1" := {| value := PCounter attempts;
                                expires := Some (1000 + minute) |} ]} |}.

(** A store right after onboarding. *)
Definition fresh_world : World :=
  {| db := {| user_state := {[ "u1" := onboarding "u1" ]};
              questions := {[ "q1" := question ]};
              answer_log := [];
              leaderboard_score := ∅;
              leaderboard_streak := ∅ |};
     redis := ∅ |}.

(** The same store with a question of difficulty 3 in the bank: its score
    at a streak of one is [30 * 1.1], the integer 33. *)
Definition starter : Schema.questions :=
  {| Schema.id := "q1"; Schema.difficulty := 3; Schema.correct_answer_hash := "a" |}.

Definition starter_world : World :=
  {| db := {| user_state := {[ "u1" := onboarding "u1" ]};
              questions := {[ "q1" := starter ]};
              answer_log := [];
              leaderboard_score := ∅;
              leaderboard_streak := ∅ |};
     redis := ∅ |}.

(** The row of [u1] after a first, correct answer to [q1] of the starter
    store at time 2000. *)
Definition answered_row : Schema.user_state :=
  {| Schema.user_id := "u1";
     Schema.current_difficulty := 1;
     Schema.streak := 1;
     Schema.max_streak := 1;
     Schema.total_score := 33%float;
     Schema.confidence := 1;
     Schema.last_question_id := Some "q1";
     Schema.last_answer_at := Some 2000;
     Schema.state_version := 2 |}.


Definition ranked_top : list LeaderboardEntry.t :=
  [ {| LeaderboardEntry.userId := "u2";
       LeaderboardEntry.totalScore := 300%float;
       LeaderboardEntry.maxStreak := 2%float;
       LeaderboardEntry.rank := 1 |};
    {| LeaderboardEntry.userId := "u1";
       LeaderboardEntry.totalScore := 120%float;
       LeaderboardEntry.maxStreak := 6%float;
       LeaderboardEntry.rank := 2 |} ].

End Sample.

(** ** Further vocabulary *)

(** The capped scores, checked one by one: at the streaks 10 to 16 the score
    of difficulty [d] is the double [20 * d]. *)
Definition cap_table_ok : bool :=
  forallb (λ d, forallb (λ s, PrimFloat.Leibniz.eqb
                                (calculateScore (Js.of_Z d) (Js.of_Z s) true)
                                (Js.of_Z (20 * d)))
                        (seqZ 10 7))
          (seqZ 1 10).

(** The Redis keys that the steps after a commit write or delete. *)
Definition after_commit_keys (userId : string) (answerIdempotencyKey : option string)
  : list string :=
  [ SCORE_SET_KEY; STREAK_SET_KEY; cacheKeyForTop KScore 10; cacheKeyForTop KStreak 10;
    USER_STATE_PREFIX +:+ userId; "metrics:" +:+ userId ]
  ++ match answerIdempotencyKey with
     | Some key => if nonempty key then [IDEMP_PREFIX +:+ key] else []
     | None => []
     end.

(** The row that a committed answer leaves, read back from its response. *)
Definition committed_row (userId questionId : string) (result : SubmitAnswerResponse.t)
  : Schema.user_state :=
  {| Schema.user_id := userId;
     Schema.current_difficulty := SubmitAnswerResponse.newDifficulty result;
     Schema.streak := SubmitAnswerResponse.newStreak result;
     Schema.max_streak := SubmitAnswerResponse.maxStreak result;
     Schema.total_score := SubmitAnswerResponse.totalScore result;
     Schema.confidence := SubmitAnswerResponse.newConfidence result;
     Schema.last_question_id := Some questionId;
     Schema.last_answer_at := Some (SubmitAnswerResponse.answeredAt result);
     Schema.state_version := SubmitAnswerResponse.stateVersion result |}.

(** ** leaderboard.ts: the rank of a user *)

(** The four queries of [getRank]: the rank among the rows above the
    user's own value, [COALESCE]d to [-1] for a user without a row, and
    whether the user has a row at all. *)
Definition getRank (userId : string) : SE Db (option Z * option Z) :=
  scoreRes ← gets (λ d,
    rank_above (λ v, PrimFloat.ltb
                       (default (-1)%float (fst <$> leaderboard_score d !! userId)) v)
               (leaderboard_score d));
  streakRes ← gets (λ d,
    rank_above (λ v, default (-1) (fst <$> leaderboard_streak d !! userId) <? v)
               (leaderboard_streak d));
  hasScore ← gets (λ d, bool_decide (is_Some (leaderboard_score d !! userId)));
  hasStreak ← gets (λ d, bool_decide (is_Some (leaderboard_streak d !! userId)));
  mret (if hasScore : bool then Some scoreRes else None,
        if hasStreak : bool then Some streakRes else None).

(** ** userState.ts: invalidation *)

Definition invalidateUserState (userId : string) : SE (gmap string entry) unit :=
  Redis.del (USER_STATE_PREFIX +:+ userId).

(** The state that a read hands out for a row: hydrated, and decayed when
    due, the time of the last answer being read from the [Date] object of
    the row, to the second. *)
Definition read_state (now : Z) (row : Schema.user_state) : UserState.t :=
  let state := hydrateState row in
  if decay_due now Js.DateObject state then decayed state else state.

(** The state that [submitAnswer] caches after a commit. *)
Definition cacheState (userId : string) (result : SubmitAnswerResponse.t) : UserState.t :=
  {| UserState.userId := userId;
     UserState.currentDifficulty := SubmitAnswerResponse.newDifficulty result;
     UserState.streak := SubmitAnswerResponse.newStreak result;
     UserState.maxStreak := SubmitAnswerResponse.maxStreak result;
     UserState.totalScore := SubmitAnswerResponse.totalScore result;
     UserState.stateVersion := SubmitAnswerResponse.stateVersion result;
     UserState.confidence := SubmitAnswerResponse.newConfidence result;
     UserState.lastAnswerAt := Some (SubmitAnswerResponse.answeredAt result);
     UserState.lastQuestionId := None |}.

(** ** questions.ts *)

(** [ORDER BY RANDOM() LIMIT 1]: one of the rows, or none when there is no
    row; the draw is the [seed]. *)
Definition draw {A} (seed : nat) (rows : list A) : option A :=
  rows !! (seed `mod` length rows)%nat.

(** The rows of the question bank. *)
Definition bank (d : Db) : list Schema.questions := snd <$> map_to_list (questions d).

(** [$2 IS NULL OR id <> $2]. *)
Definition not_last (lastQuestionId : option string) (q : Schema.questions) : bool :=
  match lastQuestionId with
  | None => true
  | Some last => negb (String.eqb (Schema.id q) last)
  end.

Definition distance (targetDifficulty : Z) (q : Schema.questions) : Z :=
  Z.abs (Schema.difficulty q - targetDifficulty).

(** The rows that [ORDER BY ABS(difficulty - $1)] puts first. *)
Definition nearest (targetDifficulty : Z) (rows : list Schema.questions)
  : list Schema.questions :=
  match rows with
  | [] => []
  | q :: rest =>
      let least := foldr (λ r acc, Z.min (distance targetDifficulty r) acc)
                         (distance targetDifficulty q) rest in
      List.filter (λ r, distance targetDifficulty r =? least) rows
  end.

Definition hydrate (row : Schema.questions) : Schema.questions :=
  {| Schema.id := Schema.id row;
     Schema.difficulty := Schema.difficulty row;
     Schema.correct_answer_hash := Schema.correct_answer_hash row |}.

(** The two queries draw independently. *)
Definition getQuestionByDifficulty (seed1 seed2 : nat) (targetDifficulty : Z)
    (lastQuestionId : option string) : SE Db (option Schema.questions) :=
  primary ← gets (λ d,
    draw seed1 (List.filter (λ q, (Schema.difficulty q =? targetDifficulty)
                                  && not_last lastQuestionId q) (bank d)));
  match primary with
  | Some row => mret (Some (hydrate row))
  | None =>
      fallback ← gets (λ d,
        draw seed2 (nearest targetDifficulty
                      (List.filter (not_last lastQuestionId) (bank d))));
      match fallback with
      | Some row => mret (Some (hydrate row))
      | None => mret None
      end
  end.

(** ** Further tables of scores *)

(** The pairs [(x, y)] of members of the list with [x] at most [y]. *)
Definition ordered_pairs (l : list Z) : list (Z * Z) :=
  List.filter (λ p, fst p <=? snd p) (list_prod l l).

(** The score does not go down with the streak nor with the difficulty,
    checked pair by pair for the difficulties 1 to 10 and the streaks 0 to
    16. *)
Definition score_monotone_ok : bool :=
  forallb (λ d, forallb (λ p, PrimFloat.leb
                                (calculateScore (Js.of_Z d) (Js.of_Z (fst p)) true)
                                (calculateScore (Js.of_Z d) (Js.of_Z (snd p)) true))
                        (ordered_pairs (seqZ 0 17)))
          (seqZ 1 10)
  && forallb (λ s, forallb (λ p, PrimFloat.leb
                                   (calculateScore (Js.of_Z (fst p)) (Js.of_Z s) true)
                                   (calculateScore (Js.of_Z (snd p)) (Js.of_Z s) true))
                           (ordered_pairs (seqZ 1 10)))
             (seqZ 0 17).

(** ** Further invariants of the reachable stores *)

(** Each family of Redis keys holds one type of value: counters under
    [rate:], responses under [idemp:], user states under [user_state:], top
    lists under [leaderboard:cache:], sorted sets under the two set keys;
    the engine writes no metrics. *)
Definition typed (k : string) (v : payload) : Prop :=
  match v with
  | PCounter _ => ∃ userId, k = rateKey userId
  | PZset _ => k = SCORE_SET_KEY ∨ k = STREAK_SET_KEY
  | PResponse _ => ∃ key, k = IDEMP_PREFIX +:+ key
  | PUserState _ => ∃ userId, k = USER_STATE_PREFIX +:+ userId
  | PTop _ => ∃ kind limit, k = cacheKeyForTop kind limit
  | PMetrics => False
  end.

Definition keys_typed (m : gmap string entry) : Prop :=
  ∀ k e, m !! k = Some e → typed k (value e).

(** A cached state and a row that agree on every field that
    [submitAnswer] caches. *)
Definition agrees (s : UserState.t) (row : Schema.user_state) : Prop :=
  UserState.userId s = Schema.user_id row
  ∧ UserState.currentDifficulty s = Schema.current_difficulty row
  ∧ UserState.streak s = Schema.streak row
  ∧ UserState.maxStreak s = Schema.max_streak row
  ∧ UserState.totalScore s = Schema.total_score row
  ∧ UserState.stateVersion s = Schema.state_version row
  ∧ UserState.confidence s = Schema.confidence row
  ∧ UserState.lastAnswerAt s = Schema.last_answer_at row.

(** A row under its own key, with a streak between zero and the best
    streak and a version from one on. *)
Definition row_sound (userId : string) (row : Schema.user_state) : Prop :=
  Schema.user_id row = userId
  ∧ 0 ≤ Schema.streak row ≤ Schema.max_streak row
  ∧ 1 ≤ Schema.state_version row.

(** Every cached user state, expired or not, is the state of a row. *)
Definition cache_agrees (w : World) : Prop :=
  ∀ u e s, redis w !! (USER_STATE_PREFIX +:+ u) = Some e → value e = PUserState s →
           ∃ row, user_state (db w) !! u = Some row ∧ agrees s row.

Definition sound (w : World) : Prop :=
  keys_typed (redis w)
  ∧ (∀ u row, user_state (db w) !! u = Some row → row_sound u row)
  ∧ cache_agrees w.

(** ** The leaderboards against the rows *)







(** ** Further sample data *)

Module Scenario.

(** The response to a first, correct answer of [u1] to [q1] of the starter
    store at time 2000. *)
Definition first_response : SubmitAnswerResponse.t :=
  {| SubmitAnswerResponse.correct := true;
     SubmitAnswerResponse.newDifficulty := 1;
     SubmitAnswerResponse.newConfidence := 1;
     SubmitAnswerResponse.newStreak := 1;
     SubmitAnswerResponse.scoreDelta := 33%float;
     SubmitAnswerResponse.totalScore := 33%float;
     SubmitAnswerResponse.stateVersion := 2;
     SubmitAnswerResponse.leaderboardRankScore := 1;
     SubmitAnswerResponse.leaderboardRankStreak := 1;
     SubmitAnswerResponse.maxStreak := 1;
     SubmitAnswerResponse.answeredAt := 2000 |}.

(** A submission of [u1] for a question that is not in the bank. *)
Definition lost_question : SubmitAnswerBody.t :=
  {| SubmitAnswerBody.userId := "u1";
     SubmitAnswerBody.questionId := "q9";
     SubmitAnswerBody.answer := "a";
     SubmitAnswerBody.stateVersion := Some 3;
     SubmitAnswerBody.answerIdempotencyKey := None |}.

(** A submission of another user, for another question, under the token
    [k1]. *)
Definition stranger : SubmitAnswerBody.t :=
  {| SubmitAnswerBody.userId := "u2";
     SubmitAnswerBody.questionId := "q7";
     SubmitAnswerBody.answer := "zz";
     SubmitAnswerBody.stateVersion := Some 9;
     SubmitAnswerBody.answerIdempotencyKey := Some "k1" |}.

(** A store with a cached top five, computed before [u1] answers. *)
Definition top5_world : World :=
  {| db := Sample.store Sample.row;
     redis := {[ "leaderboard:cache:score:5" :=
                   {| value := PTop Sample.ranked_top; expires := Some 30000 |} ]} |}.

(** A user who last answered at time 1500, half a second past the full
    second, with a streak to lose. *)
Definition late_row : Schema.user_state :=
  {| Schema.user_id := "u1";
     Schema.current_difficulty := 3;
     Schema.streak := 4;
     Schema.max_streak := 6;
     Schema.total_score := 120%float;
     Schema.confidence := 1;
     Schema.last_question_id := Some "q0";
     Schema.last_answer_at := Some 1500;
     Schema.state_version := 3 |}.

Definition late_world : World := {| db := Sample.store late_row; redis := ∅ |}.

(** The state of [u1] after a first, correct answer to [q1] of the starter
    store at time 2500, half a second past the full second. *)
Definition late_state : UserState.t :=
  {| UserState.userId := "u1";
     UserState.currentDifficulty := 1;
     UserState.streak := 1;
     UserState.maxStreak := 1;
     UserState.totalScore := 33%float;
     UserState.stateVersion := 2;
     UserState.confidence := 1;
     UserState.lastAnswerAt := Some 2500;
     UserState.lastQuestionId := None |}.

(** A store whose cache holds the state of [u1] as the row has it. *)
Definition cached_world : World :=
  {| db := Sample.store Sample.row;
     redis := {[ "user_state:u1" :=
                   {| value := PUserState (hydrateState Sample.row);
                      expires := Some (1000 + 60 * Sample.minute) |} ]} |}.

End Scenario.

(** * Properties *)

(** ** Binary64 rounding, as far as the score arithmetic needs it *)

Lemma pow2_succ (d : Z) : 1 ≤ d → 2 ^ d = 2 * 2 ^ (d - 1).
Proof.
  intros H. replace d with (Z.succ (d - 1)) at 1 by lia. apply Z.pow_succ_r. lia.
Qed.

Lemma digits2_pos_bounds (m : positive) :
  2 ^ (Z.pos (digits2_pos m) - 1) ≤ Z.pos m < 2 ^ Z.pos (digits2_pos m).
Proof.
  induction m as [m IH|m IH|]; simpl digits2_pos.
  - rewrite Pos2Z.inj_succ.
    rewrite (pow2_succ (Z.succ _)) by lia.
    replace (Z.succ (Z.pos (digits2_pos m)) - 1) with (Z.pos (digits2_pos m)) by lia.
    rewrite (pow2_succ (Z.pos (digits2_pos m))) at 1 by lia. lia.
  - rewrite Pos2Z.inj_succ.
    rewrite (pow2_succ (Z.succ _)) by lia.
    replace (Z.succ (Z.pos (digits2_pos m)) - 1) with (Z.pos (digits2_pos m)) by lia.
    rewrite (pow2_succ (Z.pos (digits2_pos m))) at 1 by lia. lia.
  - simpl. lia.
Qed.

Lemma digits2_pos_lower (m : positive) (k : Z) :
  0 ≤ k → 2 ^ k ≤ Z.pos m → k + 1 ≤ Z.pos (digits2_pos m).
Proof.
  intros Hk Hle. destruct (digits2_pos_bounds m) as [_ Hlt].
  destruct (Z_lt_le_dec k (Z.pos (digits2_pos m))) as [?|Hge]; [lia|].
  assert (2 ^ Z.pos (digits2_pos m) ≤ 2 ^ k) by (apply Z.pow_le_mono_r; lia). lia.
Qed.

Lemma digits2_pos_succ (m : positive) :
  digits2_pos (Pos.succ m) = digits2_pos m
  ∨ digits2_pos (Pos.succ m) = Pos.succ (digits2_pos m).
Proof.
  induction m as [m IH|m IH|]; simpl; auto.
  destruct IH as [-> | ->]; auto.
Qed.

Lemma digits2_pos_iter_xO (m : positive) (k : positive) :
  Z.pos (digits2_pos (Pos.iter xO m k)) = Z.pos (digits2_pos m) + Z.pos k.
Proof.
  revert m. induction k as [|k IH] using Pos.peano_ind; intros m.
  - simpl. lia.
  - rewrite Pos.iter_succ. simpl digits2_pos. rewrite Pos2Z.inj_succ, IH. lia.
Qed.

(** Shifting right drops one digit at a time. *)
Lemma shr_1_digits j r : 1 ≤ j → has_digits (j + 1) r → has_digits j (shr_1 r).
Proof.
  intros Hj (m & Hm & Hd). destruct r as [mr rr sr]. simpl in Hm. subst mr.
  destruct m as [m|m|]; simpl in *.
  - exists m. split; [done|]. lia.
  - exists m. split; [done|]. lia.
  - lia.
Qed.

Lemma iter_shr_1_digits (p : positive) : ∀ j r,
  1 ≤ j → has_digits (j + Z.pos p) r → has_digits j (SpecFloat.iter_pos shr_1 p r).
Proof.
  induction p as [p IH|p IH|]; intros j r Hj H; simpl.
  - apply IH; [done|]. apply IH; [lia|]. apply shr_1_digits; [lia|].
    replace (j + Z.pos p + Z.pos p + 1) with (j + Z.pos p~1) by lia. done.
  - apply IH; [done|]. apply IH; [lia|].
    replace (j + Z.pos p + Z.pos p) with (j + Z.pos p~0) by lia. done.
  - by apply shr_1_digits.
Qed.

(** Shifting right keeps a mantissa from going negative. *)
Lemma shr_1_nonneg r : 0 ≤ shr_m r → 0 ≤ shr_m (shr_1 r).
Proof. destruct r as [[|[m|m|]|m] rr sr]; simpl; lia. Qed.

Lemma iter_shr_1_nonneg (p : positive) : ∀ r,
  0 ≤ shr_m r → 0 ≤ shr_m (SpecFloat.iter_pos shr_1 p r).
Proof.
  induction p as [p IH|p IH|]; intros r H; simpl; auto using shr_1_nonneg.
Qed.

Lemma shr_nonneg r e n : 0 ≤ shr_m r → 0 ≤ shr_m (fst (shr r e n)).
Proof. intros H. destruct n; simpl; auto using iter_shr_1_nonneg. Qed.

Lemma shr_record_of_loc_m m l : shr_m (shr_record_of_loc m l) = m.
Proof. by destruct l as [|[]]. Qed.

Lemma round_nearest_even_cases m l :
  round_nearest_even m l = m ∨ round_nearest_even m l = m + 1.
Proof. destruct l as [|[]]; simpl; auto. destruct (Z.even m); auto. Qed.

(** Rounding a positive mantissa never yields [NaN], and keeps the sign. *)
Lemma binary_round_aux_signed sx m e l :
  binary_round_aux prec emax sx (Z.pos m) e l = S754_zero sx
  ∨ binary_round_aux prec emax sx (Z.pos m) e l = S754_infinity sx
  ∨ ∃ m' e', binary_round_aux prec emax sx (Z.pos m) e l = S754_finite sx m' e'.
Proof.
  unfold binary_round_aux.
  destruct (shr_fexp prec emax (Z.pos m) e l) as [mrs' e'] eqn:E1.
  destruct (shr_fexp prec emax _ e' loc_Exact) as [mrs'' e''] eqn:E2.
  assert (0 ≤ shr_m mrs') as H1.
  { replace mrs' with (fst (shr_fexp prec emax (Z.pos m) e l)) by (by rewrite E1).
    unfold shr_fexp. apply shr_nonneg. rewrite shr_record_of_loc_m. lia. }
  assert (0 ≤ shr_m mrs'') as H2.
  { match type of E2 with shr_fexp _ _ ?x _ _ = _ =>
      replace mrs'' with (fst (shr_fexp prec emax x e' loc_Exact)) by (by rewrite E2);
      unfold shr_fexp; apply shr_nonneg; rewrite shr_record_of_loc_m;
      destruct (round_nearest_even_cases (shr_m mrs') (loc_of_shr_record mrs')) as [-> | ->]; lia
    end. }
  destruct (shr_m mrs'') as [|m''|m'']; [auto| |lia].
  destruct (e'' <=? emax - prec); eauto.
Qed.

Lemma normal_from_weaken k k' x : k' ≤ k → normal_from k x → normal_from k' x.
Proof.
  intros Hk [->|(m & e & -> & Hd & He & He')]; [by left|].
  right. exists m, e. repeat split; auto; lia.
Qed.

Lemma fexp_normal (x : Z) : -1021 ≤ x → fexp prec emax x = x - 53.
Proof. unfold fexp, SpecFloat.emin, prec, emax. lia. Qed.

(** The second shift of [binary_round_aux]: a mantissa of 53 digits stays,
    one of 54 digits loses its last. *)
Lemma shr_fexp_settles (q : positive) (e : Z) :
  Z.pos (digits2_pos q) = 53 ∨ Z.pos (digits2_pos q) = 54 →
  -1074 ≤ e →
  ∃ m', shr_m (fst (shr_fexp prec emax (Z.pos q) e loc_Exact)) = Z.pos m'
        ∧ Z.pos (digits2_pos m') = 53
        ∧ e ≤ snd (shr_fexp prec emax (Z.pos q) e loc_Exact).
Proof.
  intros Hd He. unfold shr_fexp. simpl Zdigits2.
  rewrite fexp_normal by lia. destruct Hd as [Hd|Hd]; rewrite Hd.
  - replace (53 + e - 53 - e) with 0 by lia. simpl. exists q. repeat split; [done|lia].
  - replace (54 + e - 53 - e) with 1 by lia. simpl.
    destruct (shr_1_digits 53 {| shr_m := Z.pos q; shr_r := false; shr_s := false |})
      as (m' & Hm' & Hd'); [lia|by exists q|].
    exists m'. repeat split; [done|done|lia].
Qed.

(** Rounding in the normal range: the result is normal, with the exponent
    that the number of digits dictates, or one more. *)
Lemma binary_round_aux_normal (m : positive) (e : Z) :
  53 ≤ Z.pos (digits2_pos m) →
  -1074 ≤ Z.pos (digits2_pos m) + e - 53 →
  normal_from (Z.pos (digits2_pos m) + e - 53)
    (binary_round_aux prec emax false (Z.pos m) e loc_Exact).
Proof.
  intros Hd He. set (d := Z.pos (digits2_pos m)) in *.
  unfold binary_round_aux.
  assert (∃ q,
    (Z.pos (digits2_pos q) = 53 ∨ Z.pos (digits2_pos q) = 54)
    ∧ (let '(mrs', e') := shr_fexp prec emax (Z.pos m) e loc_Exact in
       round_nearest_even (shr_m mrs') (loc_of_shr_record mrs') = Z.pos q
       ∧ e' = d + e - 53)) as (q & Hq & Hfirst).
  { unfold shr_fexp. simpl Zdigits2. fold d. rewrite fexp_normal by lia.
    destruct (Z.eq_dec d 53) as [E|E].
    - replace (d + e - 53 - e) with 0 by lia. simpl. exists m. fold d. split; [auto|]. split; [done|lia].
    - destruct (d + e - 53 - e) as [|p|p] eqn:Ep; [lia| |lia].
      simpl.
      destruct (iter_shr_1_digits p 53 {| shr_m := Z.pos m; shr_r := false; shr_s := false |})
        as (m1 & Hm1 & Hd1); [lia|exists m; split; [done|fold d; lia]|].
      rewrite Hm1.
      destruct (round_nearest_even_cases (Z.pos m1)
                  (loc_of_shr_record (SpecFloat.iter_pos shr_1 p
                     {| shr_m := Z.pos m; shr_r := false; shr_s := false |}))) as [-> | ->].
      + exists m1. split; [auto|]. split; [done|lia].
      + exists (Pos.succ m1). split.
        * destruct (digits2_pos_succ m1) as [-> | ->]; [auto|]. rewrite Pos2Z.inj_succ. lia.
        * split; [lia|lia]. }
  destruct (shr_fexp prec emax (Z.pos m) e loc_Exact) as [mrs' e'].
  destruct Hfirst as [-> ->].
  destruct (shr_fexp_settles q (d + e - 53) Hq He) as (m'' & Hm'' & Hd'' & He'').
  destruct (shr_fexp prec emax (Z.pos q) (d + e - 53) loc_Exact) as [mrs'' e''].
  simpl in *. rewrite Hm''.
  destruct (e'' <=? emax - prec) eqn:Ee; [|by left].
  right. exists m'', e''. apply Z.leb_le in Ee. unfold emax, prec in Ee.
  repeat split; auto; lia.
Qed.

Lemma normal_from_valid k x : -1074 ≤ k → normal_from k x → valid_binary x = true.
Proof.
  intros Hk [->|(m & e & -> & Hd & He & He')]; [done|].
  simpl. unfold bounded, canonical_mantissa. rewrite Hd, fexp_normal by lia.
  apply andb_true_intro. split; [apply Z.eqb_eq; lia|].
  apply Z.leb_le. unfold emax, prec. lia.
Qed.

(** A positive integer becomes a normal double, of the exponent that its
    length dictates, or the next. *)
Lemma binary_normalize_normal (n : positive) :
  normal_from (Z.pos (digits2_pos n) - 53) (binary_normalize prec emax (Z.pos n) 0 false).
Proof.
  simpl. unfold binary_round.
  rewrite fexp_normal by lia.
  unfold shl_align.
  destruct (Z.pos (digits2_pos n) + 0 - 53 - 0) as [|p|p] eqn:Ep.
  - eapply normal_from_weaken; [|apply binary_round_aux_normal; lia]. lia.
  - eapply normal_from_weaken; [|apply binary_round_aux_normal; lia]. lia.
  - eapply normal_from_weaken; [|apply binary_round_aux_normal];
      rewrite ?digits2_pos_iter_xO; lia.
Qed.

(** A tenth of a double of at least sixteen is at least one, after rounding. *)
Lemma SFmul_one_tenth_normal x :
  normal_from (-48) x → normal_from (-52) (SF64mul x sf_one_tenth).
Proof.
  intros [->|(m & e & -> & Hd & He & He')]; [by left|].
  unfold SF64mul, SFmul, sf_one_tenth. simpl xorb.
  assert (105 ≤ Z.pos (digits2_pos (m * 7205759403792794))) as Hp.
  { apply (digits2_pos_lower _ 104); [lia|].
    pose proof (digits2_pos_bounds m) as [Hm _]. rewrite Hd in Hm.
    rewrite Pos2Z.inj_mul.
    change (2 ^ 104) with (2 ^ 52 * 2 ^ 52).
    apply Z.mul_le_mono_nonneg; [lia|exact Hm|lia|]. vm_compute. discriminate. }
  eapply normal_from_weaken; [|apply binary_round_aux_normal]; lia.
Qed.

(** One more than a double of at least one is at least two, after rounding. *)
Lemma SFadd_one_normal y :
  normal_from (-52) y → normal_from (-51) (SF64add sf_one y).
Proof.
  intros [->|(m & e & -> & Hd & He & He')]; [by left|].
  unfold SF64add, SFadd, sf_one.
  replace (Z.min (-52) e) with (-52) by lia.
  assert (∃ s, cond_Zopp false (Z.pos (fst (shl_align 4503599627370496 (-52) (-52))))
               + cond_Zopp false (Z.pos (fst (shl_align m e (-52)))) = Z.pos s
               ∧ 54 ≤ Z.pos (digits2_pos s)) as (s & -> & Hs).
  { simpl cond_Zopp. change (fst (shl_align 4503599627370496 (-52) (-52))) with 4503599627370496%positive.
    eexists. split; [reflexivity|].
    apply (digits2_pos_lower _ 53); [lia|].
    rewrite Pos2Z.inj_add.
    assert (2 ^ 52 ≤ Z.pos (fst (shl_align m e (-52)))) as Hm.
    { unfold shl_align. destruct (-52 - e) as [|p|p] eqn:Ep; simpl.
      - pose proof (digits2_pos_bounds m) as [Hm _]. by rewrite Hd in Hm.
      - pose proof (digits2_pos_bounds m) as [Hm _]. by rewrite Hd in Hm.
      - assert (53 ≤ Z.pos (digits2_pos (Pos.iter xO m p))) as Hi
          by (rewrite digits2_pos_iter_xO; lia).
        pose proof (digits2_pos_bounds (Pos.iter xO m p)) as [Hb _].
        assert (2 ^ 52 ≤ 2 ^ (Z.pos (digits2_pos (Pos.iter xO m p)) - 1))
          by (apply Z.pow_le_mono_r; lia).
        lia. }
    change (2 ^ 53) with (4503599627370496 + 2 ^ 52). lia. }
  simpl binary_normalize. unfold binary_round.
  rewrite fexp_normal by lia. unfold shl_align.
  destruct (Z.pos (digits2_pos s) + -52 - 53 - -52) as [|p|p] eqn:Ep; [lia| |lia].
  eapply normal_from_weaken; [|apply binary_round_aux_normal]; lia.
Qed.


(** A double of at least two is not below two, and is two if two is not
    below it. *)
Lemma SFcompare_positive m1 e1 m2 e2 :
  SFcompare (S754_finite false m1 e1) (S754_finite false m2 e2)
  = Some match e1 ?= e2 with
         | Lt => Lt
         | Gt => Gt
         | Eq => Z.pos m1 ?= Z.pos m2
         end.
Proof. reflexivity. Qed.

Lemma normal_from_two w :
  normal_from (-51) w →
  SFltb w sf_two = false
  ∧ SFeqb w w = true
  ∧ (SFltb sf_two w = false → w = sf_two).
Proof.
  intros [->|(m & e & -> & Hd & He & He')]; [done|].
  pose proof (digits2_pos_bounds m) as [Hm _]. rewrite Hd in Hm.
  change (2 ^ (53 - 1)) with (Z.pos 4503599627370496) in Hm.
  unfold SFltb, SFeqb, sf_two. rewrite !SFcompare_positive, !Z.compare_refl.
  destruct (Z.compare_spec e (-51)) as [->|Hlt|Hgt]; [|exfalso; clear -He Hlt; lia|].
  - rewrite Z.compare_refl.
    destruct (Z.compare_spec (Z.pos m) (Z.pos 4503599627370496)) as [Heq|Hlt|Hgt];
      [|exfalso; clear -Hm Hlt; lia|].
    + injection Heq as ->. by rewrite Z.compare_refl.
    + repeat split. by rewrite (proj2 (Z.compare_lt_iff _ _) Hgt).
  - repeat split. by rewrite (proj2 (Z.compare_lt_iff (-51) e) Hgt).
Qed.

Lemma Prim2SF_of_Z_pos (n : positive) :
  Prim2SF (Js.of_Z (Z.pos n)) = binary_normalize prec emax (Z.pos n) 0 false.
Proof.
  unfold Js.of_Z. apply Prim2SF_SF2Prim.
  apply (normal_from_valid (Z.pos (digits2_pos n) - 53)); [lia|].
  apply binary_normalize_normal.
Qed.

Lemma Math_min_two (x : float) :
  normal_from (-51) (Prim2SF x) → Js.Math_min x 2 = 2%float.
Proof.
  intros H. apply normal_from_two in H as (Hlt & Heq & Htwo).
  unfold Js.Math_min, is_nan. rewrite !FloatAxioms.eqb_spec, !FloatAxioms.ltb_spec, Heq.
  change (Prim2SF 2) with sf_two. rewrite Hlt. simpl.
  destruct (SFltb sf_two (Prim2SF x)) eqn:E; [done|].
  rewrite (Prim2SF_inj x 2%float (Htwo eq_refl)). reflexivity.
Qed.

(** From a streak of sixteen on the multiplier is the cap. *)
Lemma multiplier_saturates (s : Z) :
  16 ≤ s → Js.Math_min (1 + Js.of_Z s * one_tenth)%float MAX_MULTIPLIER = 2%float.
Proof.
  intros Hs. destruct s as [|n|n]; [lia| |lia].
  apply Math_min_two.
  rewrite add_spec, mul_spec, Prim2SF_of_Z_pos.
  change (Prim2SF 1) with sf_one. change (Prim2SF one_tenth) with sf_one_tenth.
  apply SFadd_one_normal, SFmul_one_tenth_normal.
  eapply normal_from_weaken; [|apply binary_normalize_normal].
  pose proof (digits2_pos_lower n 4). lia.
Qed.

(** ** Sums and maxima of scores *)

Lemma binary_normalize_not_nan m e :
  binary_normalize prec emax m e false ≠ S754_nan.
Proof.
  destruct m as [|m|m]; simpl; [done| |]; unfold binary_round;
    destruct (shl_align _ _ _) as [mz ez].
  - by destruct (binary_round_aux_signed false mz ez loc_Exact) as [->|[->|(m' & e' & ->)]].
  - by destruct (binary_round_aux_signed true mz ez loc_Exact) as [->|[->|(m' & e' & ->)]].
Qed.

Lemma SFeqb_refl x : x ≠ S754_nan → SFeqb x x = true.
Proof.
  destruct x as [s|s| |s m e]; intros H; try done; unfold SFeqb; simpl.
  - by destruct s.
  - rewrite Z.compare_refl.
    change (Pos.compare_cont Eq m m) with (Pos.compare m m). rewrite Pos.compare_refl.
    by destruct s.
Qed.

Lemma is_nan_spec (x : float) : is_nan x = false ↔ Prim2SF x ≠ S754_nan.
Proof.
  unfold is_nan. rewrite FloatAxioms.eqb_spec, negb_false_iff. split.
  - intros H E. rewrite E in H. done.
  - apply SFeqb_refl.
Qed.

(** A sum of a number that is not negative and a finite one is a number. *)
Lemma add_is_number (t d : float) :
  PrimFloat.leb 0 t = true → sf_finite (Prim2SF d) = true →
  Prim2SF (t + d)%float ≠ S754_nan.
Proof.
  rewrite FloatAxioms.leb_spec, add_spec. change (Prim2SF 0) with (S754_zero false).
  intros Ht Hd. unfold SF64add, SFadd.
  destruct (Prim2SF t) as [st|st| |st mt et]; try done;
    destruct (Prim2SF d) as [sd|sd| |sd md ed]; try done.
  - by destruct st, sd.
  - apply binary_normalize_not_nan.
Qed.

Lemma get_sign_zero : get_sign 0 = false.
Proof. reflexivity. Qed.

(** The floor at zero: the greater of zero and a number is not negative. *)
Lemma Math_max_zero_nonneg (x : float) :
  Prim2SF x ≠ S754_nan → PrimFloat.leb 0 (Js.Math_max 0 x) = true.
Proof.
  intros H. unfold Js.Math_max.
  rewrite (proj2 (is_nan_spec x) H). change (is_nan 0) with false. simpl orb. cbv iota.
  destruct (PrimFloat.ltb 0 x) eqn:E.
  - rewrite FloatAxioms.leb_spec. rewrite FloatAxioms.ltb_spec in E.
    unfold SFleb. unfold SFltb in E. by destruct (SFcompare _ _) as [[]|].
  - rewrite get_sign_zero. by destruct (PrimFloat.ltb x 0).
Qed.

(** ** The score *)

Lemma round_half_up_integer (k : Z) (q : Q) : (q == inject_Z k)%Q → round_half_up q = k.
Proof.
  intros H. unfold round_half_up. rewrite H.
  unfold Qfloor, Qplus, inject_Z. simpl.
  change (Z.pos (1 * 2)) with 2.
  symmetry. apply (Z.div_unique _ _ _ 1); lia.
Qed.

Lemma exact_score_value (d s : Z) :
  0 ≤ s → (exact_score d s == inject_Z (d * (10 + Z.min s 10)))%Q.
Proof.
  intros Hs. unfold exact_score.
  destruct (Z_le_gt_dec s 10) as [Hle|Hgt].
  - rewrite Q.min_l.
    + rewrite Z.min_l by lia. rewrite !inject_Z_mult, !inject_Z_plus.
      change (inject_Z 10) with 10%Q. field.
    + unfold Qle. simpl. lia.
  - rewrite Q.min_r.
    + rewrite Z.min_r by lia. rewrite !inject_Z_mult, !inject_Z_plus.
      change (inject_Z 10) with 10%Q. field.
    + unfold Qle. simpl. lia.
Qed.

Lemma round_exact_score (d s : Z) :
  0 ≤ s → round_half_up (exact_score d s) = d * (10 + Z.min s 10).
Proof. intros Hs. by apply round_half_up_integer, exact_score_value. Qed.

Lemma score_table : score_table_ok = true.
Proof. vm_compute. reflexivity. Qed.

Lemma score_entry (d s : Z) :
  1 ≤ d ≤ 10 → 0 ≤ s ≤ 16 → score_entry_ok d s = true.
Proof.
  intros Hd Hs. pose proof score_table as H. unfold score_table_ok in H.
  rewrite forallb_forall in H.
  assert (In d (seqZ 1 10)) as Hind by (apply list_elem_of_In, elem_of_seqZ; lia).
  specialize (H d Hind). rewrite forallb_forall in H.
  apply H. apply list_elem_of_In, elem_of_seqZ. lia.
Qed.

(** Past sixteen the streak no longer matters. *)
Lemma calculateScore_saturated (x : float) (s : Z) (correct : bool) :
  16 ≤ s → calculateScore x (Js.of_Z s) correct = calculateScore x (Js.of_Z 16) correct.
Proof.
  intros Hs. unfold calculateScore.
  by rewrite (multiplier_saturates s), (multiplier_saturates 16).
Qed.

Lemma score_entry_any (d s : Z) :
  1 ≤ d ≤ 10 → 0 ≤ s → score_entry_ok d (Z.min s 16) = true
  ∧ calculateScore (Js.of_Z d) (Js.of_Z s) true
    = calculateScore (Js.of_Z d) (Js.of_Z (Z.min s 16)) true.
Proof.
  intros Hd Hs. split; [apply score_entry; lia|].
  destruct (Z_le_gt_dec s 16) as [Hle|Hgt].
  - by rewrite Z.min_l.
  - rewrite Z.min_r by lia. apply calculateScore_saturated. lia.
Qed.

(** For a difficulty from 1 to 10 and a streak of zero or more, the score
    of a correct answer is the double-precision product
    [d * 10 * min (1 + 0.1 * s, 2)], returned as computed: a finite number
    whose rounding to the nearest integer is the rounding of the exact
    product; the score of a wrong answer is -5 whatever the arguments. *)
Lemma calculateScore_nearest_is_exact (d s : Z) :
  1 ≤ d ≤ 10 → 0 ≤ s →
  Js.Math_round (calculateScore (Js.of_Z d) (Js.of_Z s) true)
  = Some (round_half_up (exact_score d s))
  ∧ ∀ difficulty streak, calculateScore difficulty streak false = (-5)%float.
Proof.
  intros Hd Hs. split; [|done].
  destruct (score_entry_any d s Hd Hs) as [Hok ->].
  rewrite round_exact_score by done.
  unfold score_entry_ok in Hok.
  destruct (Js.Math_round _) as [z|]; [|done].
  apply andb_prop in Hok as [Hz _]. apply Z.eqb_eq in Hz as ->.
  do 2 f_equal. lia.
Qed.

(** The score of any answer is finite. *)
Lemma calculateScore_finite (d s : Z) (correct : bool) :
  1 ≤ d ≤ 10 → 0 ≤ s →
  sf_finite (Prim2SF (calculateScore (Js.of_Z d) (Js.of_Z s) correct)) = true.
Proof.
  intros Hd Hs. destruct correct; [|reflexivity].
  destruct (score_entry_any d s Hd Hs) as [Hok ->].
  unfold score_entry_ok in Hok.
  destruct (Js.Math_round _) as [z|]; [|done].
  by apply andb_prop in Hok as [_ Hf].
Qed.

Ltac se_unfold :=
  unfold mbind, se_bind, mret, se_ret, fmap, se_fmap, throw, gets, modify,
    onDb, onRedis, withTransaction in *.

(** ** The Redis commands leave other keys alone *)

Lemma find_insert_ne now k k' e (m : gmap string entry) :
  k ≠ k' → Redis.find now k' (<[k := e]> m) = Redis.find now k' m.
Proof. intros H. unfold Redis.find. by rewrite lookup_insert_ne. Qed.

Lemma find_insert_eq now k e (m : gmap string entry) :
  Redis.find now k (<[k := e]> m) = if Redis.live now e then Some e else None.
Proof. unfold Redis.find. by rewrite lookup_insert_eq. Qed.

Lemma incr_lookup_ne now k k' (m : gmap string entry) :
  k ≠ k' → snd (Redis.incr now k m) !! k' = m !! k'.
Proof.
  intros H. unfold Redis.incr.
  destruct (Redis.find now k m) as [[[] ?]|]; simpl; by rewrite ?lookup_insert_ne.
Qed.

Lemma expire_lookup_ne now k k' s (m : gmap string entry) :
  k ≠ k' → snd (Redis.expire now k s m) !! k' = m !! k'.
Proof.
  intros H. unfold Redis.expire.
  destruct (Redis.find now k m); simpl; by rewrite ?lookup_insert_ne.
Qed.

Lemma expire_returns now k s (m : gmap string entry) :
  fst (Redis.expire now k s m) = inr tt.
Proof. unfold Redis.expire. by destruct (Redis.find now k m). Qed.

Lemma gate_redis_lookup_ne now userId k (m : gmap string entry) :
  rateKey userId ≠ k → gate_redis now userId m !! k = m !! k.
Proof.
  intros H. unfold gate_redis.
  destruct (Redis.incr now (rateKey userId) m) as [[e|attempts] m1] eqn:E.
  - replace m1 with (snd (Redis.incr now (rateKey userId) m)) by (by rewrite E).
    by apply incr_lookup_ne.
  - replace m1 with (snd (Redis.incr now (rateKey userId) m)) by (by rewrite E).
    destruct (attempts =? 1); rewrite ?expire_lookup_ne by done; by apply incr_lookup_ne.
Qed.

Lemma gate_redis_find_ne now userId k (m : gmap string entry) :
  rateKey userId ≠ k → Redis.find now k (gate_redis now userId m) = Redis.find now k m.
Proof. intros H. unfold Redis.find. by rewrite gate_redis_lookup_ne. Qed.

Lemma rate_idemp_ne u k : rateKey u ≠ IDEMP_PREFIX +:+ k.
Proof. discriminate. Qed.

Lemma get_find now k m :
  Redis.get now k m =
  (match Redis.find now k m with
   | Some {| value := PZset _ |} => inl RedisWrongType
   | Some e => inr (Some (value e))
   | None => inr None
   end, m).
Proof. unfold Redis.get. destruct (Redis.find now k m) as [[[] ?]|]; reflexivity. Qed.

(** ** The shape of a submission *)

Section Submission.

Variable sha256_hex : string → string.

Lemma well_formed_guard body :
  negb (nonempty (SubmitAnswerBody.userId body))
  || negb (nonempty (SubmitAnswerBody.questionId body))
  || negb (nonempty (SubmitAnswerBody.answer body)) = negb (well_formed body).
Proof. unfold well_formed. by repeat destruct (nonempty _). Qed.

Lemma submitAnswer_malformed now body w :
  well_formed body = false →
  submitAnswer sha256_hex now body w = (inl MissingRequiredFields, w).
Proof. intros H. unfold submitAnswer. by rewrite well_formed_guard, H. Qed.

Lemma submitAnswer_no_version now body w :
  well_formed body = true →
  SubmitAnswerBody.stateVersion body = None →
  submitAnswer sha256_hex now body w = (inl InvalidStateVersion, w).
Proof. intros H Hv. unfold submitAnswer. by rewrite well_formed_guard, H, Hv. Qed.

Lemma submitAnswer_incr_throws now body w v e m :
  well_formed body = true →
  SubmitAnswerBody.stateVersion body = Some v →
  Redis.incr now (rateKey (SubmitAnswerBody.userId body)) (redis w) = (inl e, m) →
  submitAnswer sha256_hex now body w = (inl e, {| db := db w; redis := m |}).
Proof.
  intros H Hv Hincr. unfold submitAnswer. rewrite well_formed_guard, H, Hv. simpl.
  fold (rateKey (SubmitAnswerBody.userId body)). se_unfold. by rewrite Hincr.
Qed.

(** A submission that the rate limiter turns away. *)
Lemma submitAnswer_throttled now body w v attempts m :
  well_formed body = true →
  SubmitAnswerBody.stateVersion body = Some v →
  Redis.incr now (rateKey (SubmitAnswerBody.userId body)) (redis w) = (inr attempts, m) →
  RATE_LIMIT_PER_MINUTE < attempts →
  submitAnswer sha256_hex now body w =
  (inl RateLimitExceeded,
   {| db := db w; redis := gate_redis now (SubmitAnswerBody.userId body) (redis w) |}).
Proof.
  intros Hwf Hv Hincr Hlt.
  unfold submitAnswer. rewrite well_formed_guard, Hwf, Hv. simpl.
  unfold gate_redis. fold (rateKey (SubmitAnswerBody.userId body)).
  se_unfold. rewrite Hincr.
  apply Z.ltb_lt in Hlt.
  assert ((attempts =? 1) = false) as ->
    by (apply Z.eqb_neq; unfold RATE_LIMIT_PER_MINUTE in *; lia).
  by rewrite Hlt.
Qed.

(** A submission that the rate limiter lets through: the stored response if the
    lookup finds one, else the transaction and what follows its commit. *)
Lemma submitAnswer_passed now body w v attempts m :
  well_formed body = true →
  SubmitAnswerBody.stateVersion body = Some v →
  Redis.incr now (rateKey (SubmitAnswerBody.userId body)) (redis w) = (inr attempts, m) →
  attempts ≤ RATE_LIMIT_PER_MINUTE →
  let m' := gate_redis now (SubmitAnswerBody.userId body) (redis w) in
  let w' := {| db := db w; redis := m' |} in
  submitAnswer sha256_hex now body w =
  match stored_response now body (redis w) with
  | Some (PResponse stored) => (inr stored, w')
  | Some _ => (inl RedisWrongType, w')
  | None =>
      match submitAnswer_tx sha256_hex now (SubmitAnswerBody.userId body)
              (SubmitAnswerBody.questionId body) (SubmitAnswerBody.answer body) v (db w) with
      | (inl e, _) => (inl e, w')
      | (inr result, d) =>
          match after_commit now (SubmitAnswerBody.userId body)
                  (SubmitAnswerBody.answerIdempotencyKey body) result m' with
          | (inl e, m'') => (inl e, {| db := d; redis := m'' |})
          | (inr _, m'') => (inr result, {| db := d; redis := m'' |})
          end
      end
  end.
Proof.
  intros Hwf Hv Hincr Hle. simpl.
  set (o := stored_response now body (redis w)).
  unfold submitAnswer. rewrite well_formed_guard, Hwf, Hv. simpl.
  fold (rateKey (SubmitAnswerBody.userId body)).
  assert (Hlt : (RATE_LIMIT_PER_MINUTE <? attempts) = false) by (apply Z.ltb_ge; lia).
  set (m1 := gate_redis now (SubmitAnswerBody.userId body) (redis w)).
  assert (Hgate :
    (if attempts =? 1
     then onRedis (Redis.expire now (rateKey (SubmitAnswerBody.userId body)) 60)
     else mret ()) {| db := db w; redis := m |} = (inr tt, {| db := db w; redis := m1 |})).
  { subst m1. unfold gate_redis. rewrite Hincr.
    destruct (attempts =? 1); [|reflexivity].
    unfold onRedis. simpl.
    pose proof (expire_returns now (rateKey (SubmitAnswerBody.userId body)) 60 m) as Hx.
    destruct (Redis.expire _ _ _ m) as [r g]. simpl in Hx. by subst r. }
  assert (Hlookup :
    (match SubmitAnswerBody.answerIdempotencyKey body with
     | Some key => if nonempty key then onRedis (checkIdempotency now key) else mret None
     | None => mret None
     end) {| db := db w; redis := m1 |} =
    (match o with
     | Some (PZset _) => inl RedisWrongType
     | o => inr o
     end, {| db := db w; redis := m1 |})).
  { subst o. unfold stored_response.
    destruct (SubmitAnswerBody.answerIdempotencyKey body) as [key|]; [|reflexivity].
    destruct (nonempty key); [|reflexivity].
    unfold onRedis, checkIdempotency. rewrite get_find. simpl.
    subst m1. rewrite gate_redis_find_ne by apply rate_idemp_ne.
    destruct (Redis.find now (IDEMP_PREFIX +:+ key) (redis w)) as [[[] ?]|]; reflexivity. }
  clearbody m1 o.
  se_unfold. rewrite Hincr, Hgate, Hlt.
  change (λ w0 : World, let '(r, m0) := checkIdempotency now ?k (redis w0) in
                        (r, {| db := db w0; redis := m0 |}))
    with (onRedis (checkIdempotency now k)) in *.
  rewrite Hlookup. simpl.
  destruct o as [[]|]; try reflexivity.
  destruct (submitAnswer_tx _ _ _ _ _ _ _) as [[e|result] d]; simpl; [reflexivity|].
  destruct (after_commit _ _ _ _ _) as [[|] ?]; reflexivity.
Qed.

(** The handler stops at the version check without a write. *)
Lemma submitAnswer_tx_conflict now userId questionId answer v d row :
  user_state d !! userId = Some row →
  v ≠ UserState.stateVersion (current_state now row) →
  submitAnswer_tx sha256_hex now userId questionId answer v d
  = (inl StateVersionMismatch, d).
Proof.
  intros Hrow Hv. unfold submitAnswer_tx. se_unfold. rewrite Hrow.
  apply Z.eqb_neq in Hv. by rewrite Hv.
Qed.

(** Whatever the handler throws, no write of it survives. *)
Lemma submitAnswer_rollback now body w e :
  fst (submitAnswer sha256_hex now body w) = inl e →
  e ≠ RedisWrongType →
  db (snd (submitAnswer sha256_hex now body w)) = db w.
Proof.
  intros He Hne.
  destruct (well_formed body) eqn:Hwf.
  2:{ by rewrite submitAnswer_malformed. }
  destruct (SubmitAnswerBody.stateVersion body) as [v|] eqn:Hv.
  2:{ by rewrite submitAnswer_no_version. }
  destruct (Redis.incr now (rateKey (SubmitAnswerBody.userId body)) (redis w))
    as [[e'|attempts] m] eqn:Hincr.
  { by rewrite (submitAnswer_incr_throws now body w v e' m). }
  destruct (decide (attempts ≤ RATE_LIMIT_PER_MINUTE)) as [Hle|Hgt].
  - revert He. rewrite (submitAnswer_passed now body w v attempts m) by done.
    destruct (stored_response now body (redis w)) as [[]|]; try done;
      try (simpl; congruence).
    destruct (submitAnswer_tx _ _ _ _ _ _ _) as [[e'|result] d]; [done|].
    destruct (after_commit _ _ _ _ _) as [[e'|] ?] eqn:Hac; [|done].
    simpl. intros [= ->]. exfalso. apply Hne. clear -Hac.
    unfold after_commit, updateLeaderboardCaches, updateUserState, storeIdempotency in Hac.
    unfold Redis.zAdd, Redis.del, Redis.set in Hac. se_unfold.
    repeat case_match; simplify_eq; done.
  - rewrite (submitAnswer_throttled now body w v attempts m) by (done || lia). done.
Qed.

(** A version mismatch is the handler's verdict on the decayed state. *)
Lemma submitAnswer_mismatch_inv now body w :
  fst (submitAnswer sha256_hex now body w) = inl StateVersionMismatch →
  ∃ v row,
    SubmitAnswerBody.stateVersion body = Some v
    ∧ user_state (db w) !! SubmitAnswerBody.userId body = Some row
    ∧ v ≠ UserState.stateVersion (current_state now row).
Proof.
  intros He.
  destruct (well_formed body) eqn:Hwf.
  2:{ by rewrite submitAnswer_malformed in He. }
  destruct (SubmitAnswerBody.stateVersion body) as [v|] eqn:Hv.
  2:{ by rewrite submitAnswer_no_version in He. }
  destruct (Redis.incr now (rateKey (SubmitAnswerBody.userId body)) (redis w))
    as [[e'|attempts] m] eqn:Hincr.
  { rewrite (submitAnswer_incr_throws now body w v e' m) in He by done.
    simpl in He. simplify_eq. unfold Redis.incr in Hincr.
    repeat case_match; simplify_eq. }
  destruct (decide (attempts ≤ RATE_LIMIT_PER_MINUTE)) as [Hle|Hgt].
  - revert He. rewrite (submitAnswer_passed now body w v attempts m) by done.
    destruct (stored_response now body (redis w)) as [[]|]; try done.
    destruct (submitAnswer_tx _ _ _ _ _ _ _) as [[e'|result] d] eqn:Htx.
    + simpl. intros [= ->]. exists v. revert Htx.
      unfold submitAnswer_tx. se_unfold.
      destruct (user_state (db w) !! _) as [row|]; [|congruence].
      destruct (v =? _) eqn:E; simpl.
      * destruct (questions (db w) !! _) as [question|]; [|congruence].
        destruct (computeNextDifficulty _ _ _ _).
        unfold upsertLeaderboardTx, execute. se_unfold.
        repeat case_match; simpl; congruence.
      * intros _. exists row. repeat split. by apply Z.eqb_neq.
    + destruct (after_commit _ _ _ _ _) as [[e'|] ?] eqn:Hac; [|done].
      simpl. intros [= ->]. exfalso. clear -Hac.
      unfold after_commit, updateLeaderboardCaches, updateUserState, storeIdempotency in Hac.
      unfold Redis.zAdd, Redis.del, Redis.set in Hac. se_unfold.
      repeat case_match; simplify_eq.
  - by rewrite (submitAnswer_throttled now body w v attempts m) in He by (done || lia).
Qed.

End Submission.

(** ** Version conflicts and decay *)

Section Conflicts.

Variable sha256_hex : string → string.


(** C1, as amended. When a submission triggers the inactivity decay and
    then fails the version check, nothing of the decay is persisted: the
    durable store, and with it the user's row and its version counter, is
    what it was before the attempt. *)
Theorem decay_is_rolled_back_on_conflict now body w row :
  user_state (db w) !! SubmitAnswerBody.userId body = Some row →
  decay_flag now row = true →
  fst (submitAnswer sha256_hex now body w) = inl StateVersionMismatch →
  db (snd (submitAnswer sha256_hex now body w)) = db w
  ∧ user_state (db (snd (submitAnswer sha256_hex now body w)))
      !! SubmitAnswerBody.userId body = Some row
  ∧ SubmitAnswerBody.stateVersion body ≠ Some (Schema.state_version row + 1).
Proof.
  intros Hrow Hdecay He.
  assert (db (snd (submitAnswer sha256_hex now body w)) = db w) as ->
    by (by eapply submitAnswer_rollback).
  repeat split; [done|].
  destruct (submitAnswer_mismatch_inv _ _ _ _ He) as (v & row' & Hv & Hrow' & Hne).
  rewrite Hv. intros [= ->]. apply Hne. simplify_eq.
  unfold current_state. by rewrite Hdecay.
Qed.

End Conflicts.



(** The decay of the answer path reads the time of the last answer to
    the second. The last answer was at 1500 ms and the submission comes at
    301400 ms, 299.9 seconds later: the time is read as 1000 ms, the decay
    is due, the version to echo is 4 and not the row's 3. *)
Example decay_reads_whole_seconds :
  let out v := submitAnswer Sample.digest 301400 (Sample.submission "a" v None)
                 Scenario.late_world in
  Schema.state_version Scenario.late_row = 3
  ∧ UserState.stateVersion (current_state 301400 Scenario.late_row) = 4
  ∧ fst (out 3) = inl StateVersionMismatch
  ∧ (∃ r, fst (out 4) = inr r ∧ SubmitAnswerResponse.stateVersion r = 5).
Proof.
  repeat split; try (vm_compute; reflexivity).
  eexists. split; vm_compute; reflexivity.
Qed.

(** C1 as stated fails: six minutes after the last answer a submission that
    echoes the version 3 of the row triggers the decay, is rejected because
    the decayed version is 4, and the row keeps streak 4, confidence 1 and
    version 3. *)
Lemma decay_persisted_counterexample :
  let now := 1000 + 6 * Sample.minute in
  let out := submitAnswer Sample.digest now (Sample.submission "a" 3 None) Sample.world in
  decay_flag now Sample.row = true
  ∧ fst out = inl StateVersionMismatch
  ∧ user_state (db (snd out)) !! "u1" = Some Sample.row
  ∧ Schema.state_version Sample.row = 3
  ∧ UserState.stateVersion (current_state now Sample.row) = 4.
Proof. vm_compute. repeat split; reflexivity. Qed.

(** C1 as amended, at the same sample. *)
Lemma decay_is_rolled_back_on_conflict_witness :
  let now := 1000 + 6 * Sample.minute in
  let out := submitAnswer Sample.digest now (Sample.submission "a" 3 None) Sample.world in
  db (snd out) = db Sample.world
  ∧ user_state (db (snd out)) !! "u1" = Some Sample.row
  ∧ Some 3 ≠ Some (3 + 1).
Proof.
  apply (decay_is_rolled_back_on_conflict Sample.digest (1000 + 6 * Sample.minute)
           (Sample.submission "a" 3 None) Sample.world Sample.row);
    vm_compute; reflexivity.
Defined.

(** ** Idempotent replay *)

Section Replay.

Variable sha256_hex : string → string.

Lemma stored_response_found now body m key stored t :
  SubmitAnswerBody.answerIdempotencyKey body = Some key →
  nonempty key = true →
  Redis.find now (IDEMP_PREFIX +:+ key) m
  = Some {| value := PResponse stored; expires := t |} →
  stored_response now body m = Some (PResponse stored).
Proof. intros Hk Hne Hf. unfold stored_response. by rewrite Hk, Hne, Hf. Qed.

(** The record that a committed submission under a token leaves is the
    one the next lookup of the token finds, for twenty-four hours. *)
Lemma after_commit_stores now now' userId key result m m' :
  nonempty key = true →
  after_commit now userId (Some key) result m = (inr tt, m') →
  now' < now + IDEMP_TTL_SECONDS * 1000 →
  Redis.find now' (IDEMP_PREFIX +:+ key) m'
  = Some {| value := PResponse result;
            expires := Some (now + IDEMP_TTL_SECONDS * 1000) |}.
Proof.
  intros Hne Hac Hlt. revert Hac.
  unfold after_commit. rewrite Hne. se_unfold.
  destruct (updateLeaderboardCaches _ _ _ _ _) as [[|[]] m1]; [done|].
  unfold updateUserState, storeIdempotency, Redis.set, Redis.del, modify.
  intros [= <-]. rewrite find_insert_eq. unfold Redis.live. simpl.
  by apply Z.ltb_lt in Hlt as ->.
Qed.

(** C6, as amended. Once a response is on record under a token, a
    well-formed submission with that token that the rate limiter lets
    through is answered with the recorded
    response, whatever answer text and version it carries; the durable
    store is untouched and so is every Redis key but the rate counter, the
    cached user state among them. *)
Theorem replay_returns_stored_response now body w v key stored t attempts m :
  well_formed body = true →
  SubmitAnswerBody.stateVersion body = Some v →
  SubmitAnswerBody.answerIdempotencyKey body = Some key →
  nonempty key = true →
  Redis.find now (IDEMP_PREFIX +:+ key) (redis w)
  = Some {| value := PResponse stored; expires := t |} →
  Redis.incr now (rateKey (SubmitAnswerBody.userId body)) (redis w) = (inr attempts, m) →
  attempts ≤ RATE_LIMIT_PER_MINUTE →
  fst (submitAnswer sha256_hex now body w) = inr stored
  ∧ db (snd (submitAnswer sha256_hex now body w)) = db w
  ∧ ∀ k, k ≠ rateKey (SubmitAnswerBody.userId body) →
         redis (snd (submitAnswer sha256_hex now body w)) !! k = redis w !! k.
Proof.
  intros Hwf Hv Hk Hne Hf Hincr Hle.
  rewrite (submitAnswer_passed sha256_hex now body w v attempts m) by done.
  rewrite (stored_response_found now body (redis w) key stored t) by done.
  repeat split. intros k Hkey. simpl. by apply gate_redis_lookup_ne.
Qed.

(** C7, as amended. With a response on record under the submission's
    token, what a well-formed submission gets depends on the rate limiter
    alone: past the ceiling it is refused, the record notwithstanding;
    within it the record is returned, whatever the transaction would have
    thrown. *)
Theorem replay_comes_after_rate_limit now body w v key stored t attempts m :
  well_formed body = true →
  SubmitAnswerBody.stateVersion body = Some v →
  SubmitAnswerBody.answerIdempotencyKey body = Some key →
  nonempty key = true →
  Redis.find now (IDEMP_PREFIX +:+ key) (redis w)
  = Some {| value := PResponse stored; expires := t |} →
  Redis.incr now (rateKey (SubmitAnswerBody.userId body)) (redis w) = (inr attempts, m) →
  fst (submitAnswer sha256_hex now body w)
  = if RATE_LIMIT_PER_MINUTE <? attempts then inl RateLimitExceeded else inr stored.
Proof.
  intros Hwf Hv Hk Hne Hf Hincr.
  destruct (RATE_LIMIT_PER_MINUTE <? attempts) eqn:E.
  - apply Z.ltb_lt in E.
    by rewrite (submitAnswer_throttled sha256_hex now body w v attempts m).
  - apply Z.ltb_ge in E.
    rewrite (submitAnswer_passed sha256_hex now body w v attempts m) by done.
    by rewrite (stored_response_found now body (redis w) key stored t).
Qed.

(** C10. A transaction of [submitAnswer] that commits leaves the answer
    log one row longer, and the new row holds the submitted answer text as
    it came, next to the user, the question and its difficulty. *)
Theorem committed_answer_is_logged now userId questionId answer v w result w' :
  withTransaction (submitAnswer_tx sha256_hex now userId questionId answer v) w
  = (inr result, w') →
  ∃ logged,
    answer_log (db w') = answer_log (db w) ++ [logged]
    ∧ Schema.answer logged = answer
    ∧ Schema.log_user_id logged = userId
    ∧ Schema.log_question_id logged = questionId
    ∧ Schema.correct logged = SubmitAnswerResponse.correct result
    ∧ Schema.score_delta logged = SubmitAnswerResponse.scoreDelta result.
Proof.
  unfold withTransaction, submitAnswer_tx. se_unfold.
  destruct (user_state (db w) !! userId) as [row|]; [|done].
  destruct (negb _); [done|].
  destruct (questions (db w) !! questionId) as [question|]; [|done].
  destruct (computeNextDifficulty _ _ _ _) as [nextDifficulty nextConfidence].
  unfold upsertLeaderboardTx, execute. se_unfold.
  destruct (accepts_BIGINT _); [|done]. simpl.
  destruct (accepts_INT _); [|done]. simpl.
  intros [= <- <-]. simpl. eexists. repeat split.
Qed.

(** The score of a committed answer is computed from the streak as the
    answer leaves it: one more than before when correct, zero when not. *)
Lemma committed_score_uses_new_streak now userId questionId answer v d result d'
    row question :
  submitAnswer_tx sha256_hex now userId questionId answer v d = (inr result, d') →
  user_state d !! userId = Some row →
  questions d !! questionId = Some question →
  SubmitAnswerResponse.scoreDelta result
  = calculateScore (Js.of_Z (Schema.difficulty question))
      (Js.of_Z (SubmitAnswerResponse.newStreak result))
      (SubmitAnswerResponse.correct result)
  ∧ SubmitAnswerResponse.newStreak result
    = if SubmitAnswerResponse.correct result
      then UserState.streak (current_state now row) + 1 else 0.
Proof.
  intros Htx Hrow Hq. revert Htx. unfold submitAnswer_tx. se_unfold.
  rewrite Hrow. destruct (negb _); [done|]. rewrite Hq.
  destruct (computeNextDifficulty _ _ _ _) as [nextDifficulty nextConfidence].
  unfold upsertLeaderboardTx, execute. se_unfold.
  destruct (accepts_BIGINT _); [|done]. simpl.
  destruct (accepts_INT _); [|done]. simpl.
  by intros [= <- <-].
Qed.

End Replay.

(** C6, at a sample: a retry with another answer and a stale version. *)
Lemma replay_returns_stored_response_witness :
  let out := submitAnswer Sample.digest 2000 (Sample.submission "b" 1 (Some "k1"))
               (Sample.replay_world 3) in
  fst out = inr Sample.response
  ∧ db (snd out) = db (Sample.replay_world 3)
  ∧ ∀ k, k ≠ rateKey "u1" → redis (snd out) !! k = redis (Sample.replay_world 3) !! k.
Proof.
  apply (replay_returns_stored_response Sample.digest 2000
           (Sample.submission "b" 1 (Some "k1")) (Sample.replay_world 3) 1 "k1"
           Sample.response (Some (1000 + 24 * 60 * Sample.minute)) 4
           (<[ "rate:u1" := {| value := PCounter 4; expires := Some (1000 + Sample.minute) |} ]>
              (redis (Sample.replay_world 3))));
    try (vm_compute; reflexivity).
  vm_compute. discriminate.
Defined.

(** C6 as stated fails: with a response on record under the token and
    twenty submissions counted in the minute, a second submission under
    the token, with another answer, is not answered with the record: it is
    refused as rate-limited. *)
Lemma replay_refused_counterexample :
  let body := Sample.submission "b" 3 (Some "k1") in
  let out := submitAnswer Sample.digest 2000 body (Sample.replay_world 20) in
  stored_response 2000 body (redis (Sample.replay_world 20))
  = Some (PResponse Sample.response)
  ∧ fst out = inl RateLimitExceeded
  ∧ fst out ≠ inr Sample.response.
Proof. vm_compute. repeat split; [reflexivity..|discriminate]. Qed.

(** Twice the same token, end to end: a first submission commits and records
    its response; a retry with another answer and a stale version gets the
    same response, and score, streak and version stay where the first left
    them. *)
Example replay_after_commit :
  let first := submitAnswer Sample.digest 2000 (Sample.submission "a" 1 (Some "k1"))
                 Sample.starter_world in
  let retry := submitAnswer Sample.digest 3000 (Sample.submission "b" 1 (Some "k1"))
                 (snd first) in
  (∃ r, fst first = inr r ∧ fst retry = inr r)
  ∧ db (snd retry) = db (snd first)
  ∧ user_state (db (snd retry)) !! "u1" = Some Sample.answered_row.
Proof.
  split; [eexists; split; vm_compute; reflexivity|].
  split; vm_compute; reflexivity.
Qed.

(** C7 as stated fails: with twenty submissions counted in the window, the
    retry of a recorded submission is refused as rate-limited. *)
Lemma replay_rate_limited_counterexample :
  Redis.find 2000 (IDEMP_PREFIX +:+ "k1") (redis (Sample.replay_world 20))
  = Some {| value := PResponse Sample.response;
            expires := Some (1000 + 24 * 60 * Sample.minute) |}
  ∧ fst (submitAnswer Sample.digest 2000 (Sample.submission "a" 3 (Some "k1"))
           (Sample.replay_world 20))
    = inl RateLimitExceeded.
Proof. vm_compute. split; reflexivity. Qed.

(** C7 as amended, at the same sample. *)
Lemma replay_comes_after_rate_limit_witness :
  fst (submitAnswer Sample.digest 2000 (Sample.submission "a" 3 (Some "k1"))
         (Sample.replay_world 20))
  = inl RateLimitExceeded.
Proof.
  apply (replay_comes_after_rate_limit Sample.digest 2000
           (Sample.submission "a" 3 (Some "k1")) (Sample.replay_world 20) 3 "k1"
           Sample.response (Some (1000 + 24 * 60 * Sample.minute)) 21
           (<[ "rate:u1" := {| value := PCounter 21; expires := Some (1000 + Sample.minute) |} ]>
              (redis (Sample.replay_world 20))));
    vm_compute; reflexivity.
Defined.

(** C10, at a sample: a wrong answer ["b"] is logged as ["b"]. *)
Lemma committed_answer_is_logged_witness :
  ∃ logged,
    answer_log (db (snd (withTransaction
                           (submitAnswer_tx Sample.digest 2000 "u1" "q1" "b" 3) Sample.world)))
    = answer_log (db Sample.world) ++ [logged]
    ∧ Schema.answer logged = "b"
    ∧ Schema.log_user_id logged = "u1"
    ∧ Schema.log_question_id logged = "q1"
    ∧ Schema.correct logged = false
    ∧ Schema.score_delta logged = (-5)%float.
Proof.
  apply (committed_answer_is_logged Sample.digest 2000 "u1" "q1" "b" 3 Sample.world
           (match fst (withTransaction (submitAnswer_tx Sample.digest 2000 "u1" "q1" "b" 3)
                         Sample.world) with
            | inr r => r
            | inl _ => Sample.response
            end)).
  vm_compute. reflexivity.
Defined.

(** ** The score is stored as it is computed *)

(** C3, at the input where the code departs from it. At difficulty 5 and
    streak 1 the claim gives the integer 55; [calculateScore] returns the
    product unrounded, 55.000000000000007. The columns [total_score]
    (BIGINT) and [score_delta] (INT) take no such number: the first
    correct answer to a question of difficulty 5 ends in a database error,
    and nothing of it is written. *)
Lemma calculateScore_fraction_aborts_submission :
  let scoreDelta := calculateScore (Js.of_Z 5) (Js.of_Z 1) true in
  let out := submitAnswer Sample.digest 2000 (Sample.submission "a" 1 None)
               Sample.fresh_world in
  round_half_up (exact_score 5 1) = 55
  ∧ scoreDelta = 0x1.b800000000001p+5%float
  ∧ PrimFloat.eqb scoreDelta (Js.of_Z 55) = false
  ∧ accepts_INT scoreDelta = false
  ∧ accepts_BIGINT (Js.Math_max 0 (0 + scoreDelta)) = false
  ∧ fst out = inl DatabaseError
  ∧ db (snd out) = db Sample.fresh_world.
Proof. vm_compute. repeat split; reflexivity. Qed.

(** The difficulties and streaks from 1 to 10 at which the score of a
    correct answer is no integer. *)
Example fractional_scores :
  List.filter (λ p, negb (accepts_INT (calculateScore (Js.of_Z (fst p)) (Js.of_Z (snd p)) true)))
    (list_prod (seqZ 1 10) (seqZ 1 10))
  = [(3, 7); (5, 1); (5, 7); (6, 7); (7, 7); (9, 1); (9, 4); (9, 7); (10, 1); (10, 7)].
Proof. vm_compute. reflexivity. Qed.

(** ** The adaptive-difficulty machine *)

Lemma clampDifficulty_range value : 1 ≤ clampDifficulty value ≤ 10.
Proof. unfold clampDifficulty, MIN_DIFFICULTY, MAX_DIFFICULTY. lia. Qed.

Lemma clampConfidence_range value : -2 ≤ clampConfidence value ≤ 2.
Proof. unfold clampConfidence, CONFIDENCE_UP_THRESHOLD. lia. Qed.

Lemma computeNextDifficulty_range d correct c s :
  1 ≤ fst (computeNextDifficulty d correct c s) ≤ 10
  ∧ -2 ≤ snd (computeNextDifficulty d correct c s) ≤ 2.
Proof.
  unfold computeNextDifficulty.
  repeat case_match; simpl; auto using clampDifficulty_range, clampConfidence_range.
Qed.

(** C4. [computeNextDifficulty] is the transition of the design document:
    confidence plus or minus one; a step up with the confidence reset when
    it reaches 2 and the streak is at least 2; else a step down with the
    reset when it reaches -2; else no step and the updated confidence; the
    difficulty clamped to [1,10] and the confidence to [-2,2]. *)
Theorem computeNextDifficulty_is_machine_step d correct c s :
  computeNextDifficulty d correct c s = machine_step d correct c s
  ∧ 1 ≤ fst (computeNextDifficulty d correct c s) ≤ 10
  ∧ -2 ≤ snd (computeNextDifficulty d correct c s) ≤ 2.
Proof.
  split; [|apply computeNextDifficulty_range].
  unfold computeNextDifficulty, machine_step, clampDifficulty, clampConfidence, clamp,
    CONFIDENCE_UP_THRESHOLD, CONFIDENCE_DOWN_THRESHOLD, MIN_STREAK_FOR_INCREASE,
    MIN_DIFFICULTY, MAX_DIFFICULTY.
  destruct correct;
    repeat case_decide; repeat case_match; simplify_eq;
    repeat match goal with
           | H : _ && _ = true |- _ => apply andb_prop in H as [? ?]
           | H : _ && _ = false |- _ => apply andb_false_iff in H as [?|?]
           | H : (_ <=? _) = true |- _ => apply Z.leb_le in H
           | H : (_ <=? _) = false |- _ => apply Z.leb_gt in H
           end;
    try (f_equal; lia); lia.
Qed.

(** ** Decay *)

(** The read path decays as the design document says, on the time of the
    last answer as [Date.parse] reads it. *)
Lemma decay_due_iff now form state :
  decay_due now form state = true ↔
  ∃ last, UserState.lastAnswerAt state = Some last
          ∧ 5 * 60 * 1000 < now - Js.Date_parse form last ∧ 0 < UserState.streak state.
Proof.
  unfold decay_due, STREAK_DECAY_MS.
  destruct (UserState.lastAnswerAt state) as [last|].
  - rewrite andb_true_iff, !Z.ltb_lt. split; [eauto|]. by intros (? & [= <-] & ?).
  - split; [done|]. by intros (? & ? & ?).
Qed.

(** A time on a full second is parsed exactly in both forms. *)
Lemma Date_parse_full_second form ms : ms mod 1000 = 0 → Js.Date_parse form ms = ms.
Proof.
  intros H. destruct form; simpl; [|done].
  pose proof (Z.div_mod ms 1000). lia.
Qed.

(** A [Date] object is parsed to the second below. *)
Lemma Date_parse_DateObject ms :
  Js.Date_parse Js.DateObject ms ≤ ms < Js.Date_parse Js.DateObject ms + 1000.
Proof.
  simpl. pose proof (Z.div_mod ms 1000). pose proof (Z.mod_pos_bound ms 1000). lia.
Qed.

Lemma applyDecay_is_decay_policy now form state cacheKey w :
  ∃ state', fst (applyDecay now form state cacheKey w) = inr state'
    ∧ (UserState.streak state', UserState.confidence state', UserState.stateVersion state')
      = decay_policy (Js.Date_parse form <$> UserState.lastAnswerAt state) now
          (UserState.streak state) (UserState.confidence state)
          (UserState.stateVersion state).
Proof.
  unfold applyDecay, decay_policy.
  destruct (decay_due now form state) eqn:E.
  - apply decay_due_iff in E as (last & -> & ? & ?). simpl.
    rewrite decide_True by done. se_unfold. simpl. eauto.
  - eexists. split; [reflexivity|].
    destruct (UserState.lastAnswerAt state) as [last|] eqn:El; [|done]. simpl.
    rewrite decide_False; [done|]. intros [? ?].
    assert (decay_due now form state = true) by (apply decay_due_iff; eauto). congruence.
Qed.

(** The answer path agrees with the policy as long as there is a streak. *)
Lemma current_state_is_decay_policy now row last :
  Schema.last_answer_at row = Some last →
  Js.Date_parse Js.DateObject last ≠ 0 → 0 < Schema.streak row →
  let s := current_state now row in
  (UserState.streak s, UserState.confidence s, UserState.stateVersion s)
  = decay_policy (Some (Js.Date_parse Js.DateObject last)) now (Schema.streak row)
      (Schema.confidence row) (Schema.state_version row).
Proof.
  intros Hl Hne Hs. unfold current_state, decay_flag, decay_policy, INACTIVITY_DECAY_MS.
  rewrite Hl. cbv zeta. apply Z.eqb_neq in Hne. rewrite Hne. cbn [negb andb].
  destruct (_ <? _) eqn:E.
  - apply Z.ltb_lt in E. by rewrite decide_True.
  - apply Z.ltb_ge in E. rewrite decide_False; [done|]. lia.
Qed.

(** The answer path decays whatever the streak. *)
Lemma current_state_decays now row last :
  Schema.last_answer_at row = Some last →
  Js.Date_parse Js.DateObject last ≠ 0 →
  5 * 60 * 1000 < now - Js.Date_parse Js.DateObject last →
  let s := current_state now row in
  UserState.streak s = Schema.streak row / 2
  ∧ UserState.confidence s = Z.max (Schema.confidence row - 1) (-2)
  ∧ UserState.stateVersion s = Schema.state_version row + 1.
Proof.
  intros Hl Hne Hlt. unfold current_state, decay_flag, INACTIVITY_DECAY_MS.
  rewrite Hl. cbv zeta. apply Z.eqb_neq in Hne. rewrite Hne.
  apply Z.ltb_lt in Hlt. by rewrite Hlt.
Qed.

(** C5, at the input where the code departs from it. Six minutes after the
    last answer of a user without a streak, the policy changes nothing and
    neither does the read path, which hands out the row with its version 3;
    the in-memory decay of [submitAnswer] lowers the confidence to -1 and
    raises the version to 4, so that the submission echoing version 3 is
    rejected. *)
Lemma submit_decays_without_streak :
  let now := 1000 + 6 * Sample.minute in
  let s := current_state now Sample.idle_row in
  decay_policy (Some 1000) now 0 0 3 = (0, 0, 3)
  ∧ fst (getUserState now "u1" Sample.idle_world) = inr (Some (hydrateState Sample.idle_row))
  ∧ (UserState.streak s, UserState.confidence s, UserState.stateVersion s) = (0, -1, 4)
  ∧ fst (submitAnswer Sample.digest now (Sample.submission "a" 3 None) Sample.idle_world)
    = inl StateVersionMismatch.
Proof. vm_compute. repeat split; reflexivity. Qed.

(** ** The leaderboard tops *)

Lemma zScore_reads now key member m :
  snd (Redis.zScore now key member m) = m.
Proof. unfold Redis.zScore. by repeat case_match. Qed.


Lemma getTop_cached now kind setKey limit m entries t :
  Redis.find now (cacheKeyForTop kind (Z.max 1 limit)) m
  = Some {| value := PTop entries; expires := t |} →
  getTop now kind setKey limit m = (inr entries, m).
Proof. intros H. unfold getTop. se_unfold. by rewrite get_find, H. Qed.

Lemma getTopOf_getTop kind now limit :
  getTopOf kind now limit = getTop now kind (setKeyOf kind) limit.
Proof. by destruct kind. Qed.



(** ** The ranges are invariant *)

Lemma cache_ok_insert k e (m : gmap string entry) :
  cache_ok m → (∀ s, value e = PUserState s → state_ok s) → cache_ok (<[k := e]> m).
Proof.
  intros Hm He k' e' s. destruct (decide (k = k')) as [->|Hne].
  - rewrite lookup_insert_eq. intros [= <-]. apply He.
  - rewrite lookup_insert_ne by done. apply Hm.
Qed.

Lemma cache_ok_delete k (m : gmap string entry) : cache_ok m → cache_ok (delete k m).
Proof.
  intros Hm k' e' s. destruct (decide (k = k')) as [->|Hne].
  - by rewrite lookup_delete_eq.
  - rewrite lookup_delete_ne by done. apply Hm.
Qed.

Lemma cache_ok_find now k e (m : gmap string entry) s :
  cache_ok m → Redis.find now k m = Some e → value e = PUserState s → state_ok s.
Proof.
  unfold Redis.find. intros Hm Hf. destruct (m !! k) as [e'|] eqn:E; [|done].
  destruct (Redis.live now e'); [|done]. injection Hf as <-. exact (Hm k e' s E).
Qed.

Lemma cache_ok_incr now k m : cache_ok m → cache_ok (snd (Redis.incr now k m)).
Proof.
  intros H. unfold Redis.incr.
  destruct (Redis.find now k m) as [[[] ?]|]; simpl; auto; by apply cache_ok_insert.
Qed.

Lemma cache_ok_expire now k s m :
  cache_ok m → cache_ok (snd (Redis.expire now k s m)).
Proof.
  intros H. unfold Redis.expire.
  destruct (Redis.find now k m) as [e|] eqn:E; simpl; [|done].
  apply cache_ok_insert; [done|]. simpl. intros s'. by eapply cache_ok_find.
Qed.

Lemma cache_ok_zAdd now k x member m :
  cache_ok m → cache_ok (snd (Redis.zAdd now k x member m)).
Proof.
  intros H. unfold Redis.zAdd.
  destruct (Redis.find now k m) as [[[] ?]|]; simpl; auto; by apply cache_ok_insert.
Qed.

Lemma cache_ok_gate now userId m : cache_ok m → cache_ok (gate_redis now userId m).
Proof.
  intros H. unfold gate_redis.
  pose proof (cache_ok_incr now (rateKey userId) m H) as Hi.
  destruct (Redis.incr now (rateKey userId) m) as [[e|attempts] m1]; [done|].
  simpl in Hi. destruct (attempts =? 1); [by apply cache_ok_expire|done].
Qed.

Lemma cache_ok_after_commit now userId key result m :
  cache_ok m →
  in_bounds (SubmitAnswerResponse.newDifficulty result)
    (SubmitAnswerResponse.newConfidence result) (SubmitAnswerResponse.totalScore result) →
  0 ≤ SubmitAnswerResponse.newStreak result →
  cache_ok (snd (after_commit now userId key result m)).
Proof.
  intros Hm Hb Hs. unfold after_commit, updateLeaderboardCaches. se_unfold.
  pose proof (cache_ok_zAdd now SCORE_SET_KEY (SubmitAnswerResponse.totalScore result)
                userId m Hm) as H1.
  destruct (Redis.zAdd now SCORE_SET_KEY _ userId m) as [[|[]] m1]; [done|]. simpl in H1.
  pose proof (cache_ok_zAdd now STREAK_SET_KEY
                (Js.of_Z (SubmitAnswerResponse.maxStreak result)) userId m1 H1) as H2.
  destruct (Redis.zAdd now STREAK_SET_KEY _ userId m1) as [[|[]] m2]; [done|]. simpl in H2.
  unfold updateUserState, storeIdempotency, Redis.set, Redis.del, modify. simpl.
  assert (cache_ok (delete ("metrics:" +:+ userId)
            (<[USER_STATE_PREFIX +:+ userId :=
                 {| value := PUserState
                      {| UserState.userId := userId;
                         UserState.currentDifficulty := SubmitAnswerResponse.newDifficulty result;
                         UserState.streak := SubmitAnswerResponse.newStreak result;
                         UserState.maxStreak := SubmitAnswerResponse.maxStreak result;
                         UserState.totalScore := SubmitAnswerResponse.totalScore result;
                         UserState.stateVersion := SubmitAnswerResponse.stateVersion result;
                         UserState.confidence := SubmitAnswerResponse.newConfidence result;
                         UserState.lastAnswerAt := Some (SubmitAnswerResponse.answeredAt result);
                         UserState.lastQuestionId := None |};
                    expires := Some (now + TTL_SECONDS * 1000) |}]>
               (delete (cacheKeyForTop KStreak 10)
                  (delete (cacheKeyForTop KScore 10) m2))))) as H3.
  { apply cache_ok_delete, cache_ok_insert; [by do 2 apply cache_ok_delete|].
    simpl. intros s [= <-]. by split. }
  destruct key as [key|]; [|done].
  destruct (nonempty key); [|done].
  simpl. by apply cache_ok_insert.
Qed.

Lemma current_state_ok now row : row_ok row → state_ok (current_state now row).
Proof.
  intros [(Hd & Hc & Ht) Hs]. unfold current_state.
  destruct (decay_flag now row); (split; [split; [|split]|]); simpl; auto; try lia.
  apply Z.div_pos; lia.
Qed.

(** The total after an answer is not negative. *)
Lemma new_total_nonneg (total : float) (d s : Z) (correct : bool) :
  PrimFloat.leb 0 total = true → 1 ≤ d ≤ 10 → 0 ≤ s →
  PrimFloat.leb 0
    (Js.Math_max 0 (total + calculateScore (Js.of_Z d) (Js.of_Z s) correct)%float) = true.
Proof.
  intros Ht Hd Hs. apply Math_max_zero_nonneg, add_is_number; [done|].
  by apply calculateScore_finite.
Qed.

Section Invariant.

Variable sha256_hex : string → string.

(** A committed transaction leaves rows and a response within the ranges. *)
Lemma submitAnswer_tx_ok now userId questionId answer v d result d' :
  rows_ok d → questions_ok d →
  submitAnswer_tx sha256_hex now userId questionId answer v d = (inr result, d') →
  rows_ok d' ∧ questions_ok d'
  ∧ in_bounds (SubmitAnswerResponse.newDifficulty result)
      (SubmitAnswerResponse.newConfidence result) (SubmitAnswerResponse.totalScore result)
  ∧ 0 ≤ SubmitAnswerResponse.newStreak result.
Proof.
  intros Hrows Hqs. unfold submitAnswer_tx. se_unfold.
  destruct (user_state d !! userId) as [row|] eqn:Hrow; [|done].
  destruct (negb _); [done|].
  destruct (questions d !! questionId) as [question|] eqn:Hq; [|done].
  pose proof (current_state_ok now row (Hrows _ _ Hrow)) as [(Hd & Hc & Ht) Hs].
  pose proof (Hqs _ _ Hq) as Hqd.
  set (correct := String.eqb _ _).
  set (newStreak := if correct then _ else 0).
  assert (0 ≤ newStreak) as Hns by (subst newStreak; destruct correct; lia).
  pose proof (computeNextDifficulty_range
                (UserState.currentDifficulty (current_state now row)) correct
                (UserState.confidence (current_state now row)) newStreak) as [Hnd Hnc].
  destruct (computeNextDifficulty _ _ _ _) as [nextDifficulty nextConfidence].
  simpl in Hnd, Hnc. simpl.
  pose proof (new_total_nonneg _ _ _ correct Ht Hqd Hns) as Hnt.
  unfold upsertLeaderboardTx, execute. se_unfold.
  destruct (accepts_BIGINT _); [|done]. simpl.
  destruct (accepts_INT _); [|done]. simpl.
  intros [= <- <-]. simpl. split; [|split; [done|split; [by split|done]]].
  intros uid urow. simpl. rewrite lookup_alter. case_decide as Hu.
  - subst uid. rewrite Hrow. simpl. intros [= <-]. by split.
  - apply Hrows.
Qed.

Lemma submitAnswer_ok now body w :
  world_ok w → world_ok (snd (submitAnswer sha256_hex now body w)).
Proof.
  intros (Hrows & Hqs & Hcache).
  destruct (well_formed body) eqn:Hwf.
  2:{ by rewrite submitAnswer_malformed. }
  destruct (SubmitAnswerBody.stateVersion body) as [v|] eqn:Hv.
  2:{ by rewrite submitAnswer_no_version. }
  pose proof (cache_ok_incr now (rateKey (SubmitAnswerBody.userId body)) (redis w) Hcache)
    as Hincr'.
  destruct (Redis.incr now (rateKey (SubmitAnswerBody.userId body)) (redis w))
    as [[e'|attempts] m] eqn:Hincr.
  { by rewrite (submitAnswer_incr_throws _ now body w v e' m). }
  pose proof (cache_ok_gate now (SubmitAnswerBody.userId body) (redis w) Hcache) as Hgate.
  destruct (decide (attempts ≤ RATE_LIMIT_PER_MINUTE)) as [Hle|Hgt].
  - rewrite (submitAnswer_passed _ now body w v attempts m) by done.
    destruct (stored_response now body (redis w)) as [[]|]; try done.
    destruct (submitAnswer_tx _ _ _ _ _ _ _) as [[e'|result] d] eqn:Htx; [done|].
    apply submitAnswer_tx_ok in Htx as (Hrows' & Hqs' & Hb & Hs); [|done..].
    pose proof (cache_ok_after_commit now (SubmitAnswerBody.userId body)
                  (SubmitAnswerBody.answerIdempotencyKey body) result _ Hgate Hb Hs) as Hac.
    by destruct (after_commit _ _ _ _ _) as [[|] ?].
  - by rewrite (submitAnswer_throttled _ now body w v attempts m) by (done || lia).
Qed.

End Invariant.

Lemma decayed_ok state : state_ok state → state_ok (decayed state).
Proof.
  intros [(Hd & Hc & Ht) Hs]. split; [split; [|split]|]; simpl; auto; try lia.
  apply Z.div_pos; lia.
Qed.

Lemma applyDecay_ok now form state cacheKey w :
  world_ok w → state_ok state → world_ok (snd (applyDecay now form state cacheKey w)).
Proof.
  intros Hw Hstate. pose proof Hw as (Hrows & Hqs & Hcache). unfold applyDecay.
  destruct (decay_due now form state); [|exact Hw].
  pose proof (decayed_ok state Hstate) as [(Hd & Hc & Ht) Hs].
  se_unfold. unfold Redis.set, modify. simpl. split; [|split; [exact Hqs|]]; simpl.
  - intros uid urow. simpl. rewrite lookup_alter. case_decide as Hu; [|apply Hrows].
    destruct (user_state (db w) !! UserState.userId state) as [row|] eqn:Hrow; [|done].
    simpl. intros [= <-]. destruct (Hrows _ _ Hrow) as [(? & ? & ?) ?].
    by split.
  - apply cache_ok_insert; [done|]. simpl. intros s [= <-]. by split.
Qed.

Lemma hydrateState_ok row : row_ok row → state_ok (hydrateState row).
Proof. by intros [(? & ? & ?) ?]. Qed.

Lemma getUserState_ok now userId w :
  world_ok w → world_ok (snd (getUserState now userId w)).
Proof.
  intros Hw. pose proof Hw as (Hrows & Hqs & Hcache).
  unfold getUserState. se_unfold. rewrite get_find.
  destruct (Redis.find now (USER_STATE_PREFIX +:+ userId) (redis w)) as [[p t]|] eqn:Hf.
  - destruct p; simpl; try done.
    assert (state_ok s) as Hs by (by eapply cache_ok_find).
    assert ({| db := db w; redis := redis w |} = w) as -> by (by destruct w).
    pose proof (applyDecay_ok now Js.ISOString s (USER_STATE_PREFIX +:+ userId) w Hw Hs)
      as Hd.
    by destruct (applyDecay _ _ _ _ _) as [[|] ?].
  - simpl. destruct (user_state (db w) !! userId) as [raw|] eqn:Hrow; [|done].
    unfold Redis.set, modify. simpl.
    pose proof (hydrateState_ok raw (Hrows _ _ Hrow)) as Hs.
    match goal with
    | |- world_ok (snd (let (_, _) := applyDecay _ _ _ _ ?w' in _)) =>
        assert (world_ok w') as Hw'
    end.
    { split; [|split]; simpl; auto. apply cache_ok_insert; [done|]. simpl. by intros s [= <-]. }
    pose proof (applyDecay_ok now Js.DateObject (hydrateState raw)
                  (USER_STATE_PREFIX +:+ userId) _ Hw' Hs) as Hd.
    by destruct (applyDecay _ _ _ _ _) as [[|] ?].
Qed.

Lemma zRangeWithScores_reads now key start stop m :
  snd (Redis.zRangeWithScores now key start stop m) = m.
Proof. unfold Redis.zRangeWithScores. by repeat case_match. Qed.

Lemma top_entries_reads now kind raw : ∀ index m,
  snd (top_entries now kind index raw m) = m.
Proof.
  induction raw as [|item rest IH]; intros index m; simpl; [done|].
  se_unfold. specialize (IH (index + 1) m).
  destruct kind.
  - pose proof (zScore_reads now STREAK_SET_KEY (fst item) m) as Hz.
    destruct (Redis.zScore now STREAK_SET_KEY (fst item) m) as [[|streak] m1];
      simpl in Hz; subst m1; [done|].
    by destruct (top_entries now KScore (index + 1) rest m) as [[|es] m2].
  - pose proof (zScore_reads now SCORE_SET_KEY (fst item) m) as Hz.
    destruct (Redis.zScore now SCORE_SET_KEY (fst item) m) as [[|score] m1];
      simpl in Hz; subst m1; [done|].
    by destruct (top_entries now KStreak (index + 1) rest m) as [[|es] m2].
Qed.

(** A read of the top leaves the store, or caches a list. *)
Lemma getTop_writes now kind setKey limit m :
  snd (getTop now kind setKey limit m) = m
  ∨ ∃ entries,
      snd (getTop now kind setKey limit m)
      = <[cacheKeyForTop kind (Z.max 1 limit) :=
            {| value := PTop entries;
               expires := Some (now + TOP_CACHE_TTL_SECONDS * 1000) |}]> m.
Proof.
  unfold getTop. se_unfold. rewrite get_find.
  destruct (Redis.find now _ m) as [[p t]|] eqn:Hf.
  - left. by destruct p.
  - pose proof (zRangeWithScores_reads now setKey 0 (Z.max 1 limit - 1) m) as Hr.
    destruct (Redis.zRangeWithScores _ _ _ _ _) as [[|raw] m1]; simpl in Hr; subst m1;
      [by left|].
    pose proof (top_entries_reads now kind raw 0 m) as Ht.
    destruct (top_entries now kind 0 raw m) as [[|es] m2]; simpl in Ht; subst m2;
      [by left|].
    right. by exists es.
Qed.

Lemma getTop_ok now kind limit w :
  world_ok w → world_ok (snd (onRedis (getTopOf kind now limit) w)).
Proof.
  intros (Hrows & Hqs & Hcache). rewrite getTopOf_getTop. unfold onRedis.
  pose proof (getTop_writes now kind (setKeyOf kind) limit (redis w)) as Hw.
  destruct (getTop now kind (setKeyOf kind) limit (redis w)) as [r m]. simpl in *.
  split; [|split]; auto. simpl.
  destruct Hw as [->|[es ->]]; [done|]. by apply cache_ok_insert.
Qed.

Lemma onboard_ok userId w : world_ok w → world_ok (onboard userId w).
Proof.
  intros (Hrows & Hqs & Hcache). split; [|split]; auto.
  intros uid urow. simpl. destruct (user_state (db w) !! userId) eqn:E; [apply Hrows|].
  destruct (decide (userId = uid)) as [->|Hne].
  - rewrite lookup_insert_eq. intros [= <-]. by vm_compute.
  - rewrite lookup_insert_ne by done. apply Hrows.
Qed.

Lemma initial_ok w : initial w → world_ok w.
Proof.
  intros (Hredis & Hrows & Hqs). split; [|split]; auto.
  - intros uid urow Hr. rewrite (Hrows uid urow Hr). by vm_compute.
  - intros k e s. by rewrite Hredis, lookup_empty.
Qed.

Lemma reachable_ok sha256_hex w : reachable sha256_hex w → world_ok w.
Proof.
  induction 1; auto using initial_ok, onboard_ok, submitAnswer_ok, getUserState_ok, getTop_ok.
Qed.

(** C8. In every store reachable from the onboarding defaults, every user
    has a difficulty from 1 to 10, a confidence from -2 to 2, and a total
    score that is not negative. *)
Theorem reachable_states_in_bounds sha256_hex w userId row :
  reachable sha256_hex w →
  user_state (db w) !! userId = Some row →
  1 ≤ Schema.current_difficulty row ≤ 10
  ∧ -2 ≤ Schema.confidence row ≤ 2
  ∧ PrimFloat.leb 0 (Schema.total_score row) = true.
Proof.
  intros Hr Hrow. apply reachable_ok in Hr as (Hrows & _ & _).
  by destruct (Hrows _ _ Hrow) as [? _].
Qed.

Lemma fresh_world_initial : initial Sample.fresh_world.
Proof.
  split; [reflexivity|]. split.
  - intros u r. simpl. intros [<- <-]%lookup_singleton_Some. reflexivity.
  - intros q r. simpl. intros [<- <-]%lookup_singleton_Some. simpl. lia.
Qed.

Lemma starter_world_initial : initial Sample.starter_world.
Proof.
  split; [reflexivity|]. split.
  - intros u r. simpl. intros [<- <-]%lookup_singleton_Some. reflexivity.
  - intros q r. simpl. intros [<- <-]%lookup_singleton_Some. simpl. lia.
Qed.

(** C8, at a sample: the store after a first correct answer, which scores
    the integer 33 and is committed. *)
Lemma reachable_states_in_bounds_witness :
  1 ≤ Schema.current_difficulty Sample.answered_row ≤ 10
  ∧ -2 ≤ Schema.confidence Sample.answered_row ≤ 2
  ∧ PrimFloat.leb 0 (Schema.total_score Sample.answered_row) = true.
Proof.
  apply (reachable_states_in_bounds Sample.digest
           (snd (submitAnswer Sample.digest 2000 (Sample.submission "a" 1 None)
                   Sample.starter_world)) "u1" Sample.answered_row).
  - apply reachable_submit, reachable_initial, starter_world_initial.
  - vm_compute. reflexivity.
Defined.


(** * Further properties of the code *)

(** ** adaptive.ts: direction and hysteresis *)

(** X1. Within the ranges, one answer moves the difficulty by at most one
    step, a correct answer never lowers it and a wrong answer never raises
    it. *)
Theorem computeNextDifficulty_direction d correct c s :
  1 ≤ d ≤ 10 → -2 ≤ c ≤ 2 →
  d - 1 ≤ fst (computeNextDifficulty d correct c s) ≤ d + 1
  ∧ (correct = true → d ≤ fst (computeNextDifficulty d correct c s))
  ∧ (correct = false → fst (computeNextDifficulty d correct c s) ≤ d).
Proof.
  intros Hd Hc.
  unfold computeNextDifficulty, clampDifficulty, clampConfidence,
    CONFIDENCE_UP_THRESHOLD, CONFIDENCE_DOWN_THRESHOLD, MIN_STREAK_FOR_INCREASE,
    MIN_DIFFICULTY, MAX_DIFFICULTY.
  destruct correct; repeat case_match; simplify_eq; simpl;
    repeat match goal with
           | H : _ && _ = true |- _ => apply andb_prop in H as [? ?]
           | H : (_ <=? _) = true |- _ => apply Z.leb_le in H
           | H : (_ <=? _) = false |- _ => apply Z.leb_gt in H
           end;
    repeat split; intros; try done; lia.
Qed.

Lemma computeNextDifficulty_direction_witness :
  3 - 1 ≤ fst (computeNextDifficulty 3 true 1 2) ≤ 3 + 1
  ∧ (true = true → 3 ≤ fst (computeNextDifficulty 3 true 1 2))
  ∧ (true = false → fst (computeNextDifficulty 3 true 1 2) ≤ 3).
Proof. apply (computeNextDifficulty_direction 3 true 1 2); lia. Defined.

(** X2. Hysteresis from a neutral confidence: one answer never moves the
    difficulty; a second wrong answer in a row steps it down once and a
    second correct answer in a row steps it up once, provided the streak has
    reached 2, each time with the confidence back at 0; without that streak
    the second correct answer moves nothing and the confidence stays at 2. *)
Theorem computeNextDifficulty_hysteresis d s1 s2 :
  1 ≤ d ≤ 10 →
  computeNextDifficulty d true 0 s1 = (d, 1)
  ∧ computeNextDifficulty d false 0 s1 = (d, -1)
  ∧ computeNextDifficulty d false (-1) s2 = (Z.max 1 (d - 1), 0)
  ∧ computeNextDifficulty d true 1 s2
    = if 2 <=? s2 then (Z.min 10 (d + 1), 0) else (d, 2).
Proof.
  intros Hd.
  unfold computeNextDifficulty, clampDifficulty, clampConfidence,
    CONFIDENCE_UP_THRESHOLD, CONFIDENCE_DOWN_THRESHOLD, MIN_STREAK_FOR_INCREASE,
    MIN_DIFFICULTY, MAX_DIFFICULTY. simpl.
  repeat split; try (f_equal; lia).
  destruct (2 <=? s2); simpl; f_equal; lia.
Qed.

Lemma computeNextDifficulty_hysteresis_witness :
  computeNextDifficulty 10 true 0 1 = (10, 1)
  ∧ computeNextDifficulty 10 false 0 1 = (10, -1)
  ∧ computeNextDifficulty 10 false (-1) 0 = (Z.max 1 (10 - 1), 0)
  ∧ computeNextDifficulty 10 true 1 2
    = if 2 <=? 2 then (Z.min 10 (10 + 1), 0) else (10, 2).
Proof. apply (computeNextDifficulty_hysteresis 10 1 2); lia. Defined.

(** ** score.ts: the cap *)

Lemma cap_table : cap_table_ok = true.
Proof. vm_compute. reflexivity. Qed.

(** X3. From a streak of ten on the multiplier is capped: the score of a
    correct answer is exactly twenty times the difficulty, an integer. *)
Theorem calculateScore_cap (d s : Z) :
  1 ≤ d ≤ 10 → 10 ≤ s →
  calculateScore (Js.of_Z d) (Js.of_Z s) true = Js.of_Z (20 * d).
Proof.
  intros Hd Hs.
  assert (calculateScore (Js.of_Z d) (Js.of_Z s) true
          = calculateScore (Js.of_Z d) (Js.of_Z (Z.min s 16)) true) as ->.
  { destruct (Z_le_gt_dec s 16) as [Hle|Hgt]; [by rewrite Z.min_l|].
    rewrite Z.min_r by lia. apply calculateScore_saturated. lia. }
  pose proof cap_table as H. unfold cap_table_ok in H. rewrite forallb_forall in H.
  assert (In d (seqZ 1 10)) as Hind by (apply list_elem_of_In, elem_of_seqZ; lia).
  specialize (H d Hind). rewrite forallb_forall in H.
  apply FloatAxioms.Leibniz.eqb_spec. apply H.
  apply list_elem_of_In, elem_of_seqZ. lia.
Qed.

Lemma calculateScore_cap_witness :
  calculateScore (Js.of_Z 7) (Js.of_Z 12345) true = Js.of_Z (20 * 7).
Proof. apply (calculateScore_cap 7 12345); lia. Defined.

(** ** idempotency.ts: store and check *)

Lemma idemp_key_inj key key' : IDEMP_PREFIX +:+ key = IDEMP_PREFIX +:+ key' → key = key'.
Proof. apply (inj (String.app _)). Qed.

(** X4. A stored response is what a check of the same token finds for
    twenty-four hours and no longer; checks of other tokens are not
    affected, and a check writes nothing. *)
Theorem idempotency_round_trip now now' key key' response m :
  let m' := snd (storeIdempotency now key response m) in
  checkIdempotency now' key m'
  = (inr (if now' <? now + 24 * 60 * 60 * 1000 then Some (PResponse response) else None), m')
  ∧ (key' ≠ key → fst (checkIdempotency now' key' m') = fst (checkIdempotency now' key' m)).
Proof.
  unfold storeIdempotency, checkIdempotency, Redis.set, modify, IDEMP_TTL_SECONDS. simpl.
  split.
  - rewrite get_find, find_insert_eq. unfold Redis.live. simpl.
    replace (now + 60 * 60 * 24 * 1000) with (now + 86400000) by lia.
    replace (now + 24 * 60 * 60 * 1000) with (now + 86400000) by lia.
    by destruct (now' <? now + 86400000).
  - intros Hne. rewrite !get_find, find_insert_ne; [done|].
    intros Heq. apply Hne. symmetry. by apply idemp_key_inj.
Qed.

(** ** quiz.ts: the outcomes of a submission *)

Lemma zAdd_lookup_ne now k k' x member (m : gmap string entry) :
  k ≠ k' → snd (Redis.zAdd now k x member m) !! k' = m !! k'.
Proof.
  intros Hne. unfold Redis.zAdd.
  destruct (Redis.find now k m) as [[[] ?]|]; simpl; by rewrite ?lookup_insert_ne.
Qed.

Lemma after_commit_frame now userId key result m k :
  k ∉ after_commit_keys userId key →
  snd (after_commit now userId key result m) !! k = m !! k.
Proof.
  unfold after_commit_keys. rewrite not_elem_of_app, !not_elem_of_cons.
  intros [(H1 & H2 & H3 & H4 & H5 & H6 & _) H7].
  unfold after_commit, updateLeaderboardCaches. se_unfold.
  pose proof (zAdd_lookup_ne now SCORE_SET_KEY k (SubmitAnswerResponse.totalScore result)
                userId m (not_eq_sym H1)) as E1.
  destruct (Redis.zAdd now SCORE_SET_KEY _ userId m) as [[|[]] m1]; [done|]. simpl in E1.
  pose proof (zAdd_lookup_ne now STREAK_SET_KEY k
                (Js.of_Z (SubmitAnswerResponse.maxStreak result)) userId m1
                (not_eq_sym H2)) as E2.
  destruct (Redis.zAdd now STREAK_SET_KEY _ userId m1) as [[|[]] m2]; simpl in E2;
    [simpl; congruence|].
  unfold updateUserState, storeIdempotency, Redis.set, Redis.del, modify. simpl.
  assert (∀ m3 : entry,
            delete ("metrics:" +:+ userId)
              (<[USER_STATE_PREFIX +:+ userId := m3]>
                 (delete (cacheKeyForTop KStreak 10)
                    (delete (cacheKeyForTop KScore 10) m2))) !! k = m !! k) as E3.
  { intros m3. rewrite lookup_delete_ne, lookup_insert_ne, !lookup_delete_ne by done.
    congruence. }
  destruct key as [key|]; [|apply E3].
  destruct (nonempty key); [|apply E3].
  simpl. rewrite lookup_insert_ne; [apply E3|].
  intros <-. apply H7. by left.
Qed.

Lemma rateKey_not_after_commit userId u key : rateKey userId ∉ after_commit_keys u key.
Proof.
  unfold after_commit_keys. rewrite not_elem_of_app, !not_elem_of_cons.
  split; [repeat split; try discriminate; apply not_elem_of_nil|].
  destruct key as [key|]; [|apply not_elem_of_nil].
  destruct (nonempty key); [|apply not_elem_of_nil].
  rewrite not_elem_of_cons. split; [discriminate|apply not_elem_of_nil].
Qed.

Section Outcomes.

Variable sha256_hex : string → string.

(** Every way a submission can go, as a reasoning principle. *)
Lemma submitAnswer_cases now body w (P : (Error + SubmitAnswerResponse.t) * World → Prop) :
  let userId := SubmitAnswerBody.userId body in
  let gated := {| db := db w; redis := gate_redis now userId (redis w) |} in
  (well_formed body = false → P (inl MissingRequiredFields, w)) →
  (well_formed body = true → SubmitAnswerBody.stateVersion body = None →
   P (inl InvalidStateVersion, w)) →
  (∀ v e m, well_formed body = true → SubmitAnswerBody.stateVersion body = Some v →
     Redis.incr now (rateKey userId) (redis w) = (inl e, m) →
     P (inl e, {| db := db w; redis := m |})) →
  (∀ v attempts m, well_formed body = true → SubmitAnswerBody.stateVersion body = Some v →
     Redis.incr now (rateKey userId) (redis w) = (inr attempts, m) →
     RATE_LIMIT_PER_MINUTE < attempts →
     P (inl RateLimitExceeded, gated)) →
  (∀ v attempts m p, well_formed body = true →
     SubmitAnswerBody.stateVersion body = Some v →
     Redis.incr now (rateKey userId) (redis w) = (inr attempts, m) →
     attempts ≤ RATE_LIMIT_PER_MINUTE →
     stored_response now body (redis w) = Some p →
     P (match p with PResponse stored => inr stored | _ => inl RedisWrongType end, gated)) →
  (∀ v attempts m e d, well_formed body = true →
     SubmitAnswerBody.stateVersion body = Some v →
     Redis.incr now (rateKey userId) (redis w) = (inr attempts, m) →
     attempts ≤ RATE_LIMIT_PER_MINUTE →
     stored_response now body (redis w) = None →
     submitAnswer_tx sha256_hex now userId (SubmitAnswerBody.questionId body)
       (SubmitAnswerBody.answer body) v (db w) = (inl e, d) →
     P (inl e, gated)) →
  (∀ v attempts m result d r m'', well_formed body = true →
     SubmitAnswerBody.stateVersion body = Some v →
     Redis.incr now (rateKey userId) (redis w) = (inr attempts, m) →
     attempts ≤ RATE_LIMIT_PER_MINUTE →
     stored_response now body (redis w) = None →
     submitAnswer_tx sha256_hex now userId (SubmitAnswerBody.questionId body)
       (SubmitAnswerBody.answer body) v (db w) = (inr result, d) →
     after_commit now userId (SubmitAnswerBody.answerIdempotencyKey body) result
       (gate_redis now userId (redis w)) = (r, m'') →
     P (match r with inl e => inl e | inr _ => inr result end,
        {| db := d; redis := m'' |})) →
  P (submitAnswer sha256_hex now body w).
Proof.
  intros userId gated H1 H2 H3 H4 H5 H6 H7.
  destruct (well_formed body) eqn:Hwf.
  2:{ rewrite submitAnswer_malformed by done. by apply H1. }
  destruct (SubmitAnswerBody.stateVersion body) as [v|] eqn:Hv.
  2:{ rewrite submitAnswer_no_version by done. by apply H2. }
  destruct (Redis.incr now (rateKey (SubmitAnswerBody.userId body)) (redis w))
    as [[e'|attempts] m] eqn:Hincr.
  { rewrite (submitAnswer_incr_throws sha256_hex now body w v e' m) by done.
    by apply (H3 v). }
  destruct (decide (attempts ≤ RATE_LIMIT_PER_MINUTE)) as [Hle|Hgt].
  - rewrite (submitAnswer_passed sha256_hex now body w v attempts m) by done.
    destruct (stored_response now body (redis w)) as [p|] eqn:Hs.
    { specialize (H5 v attempts m p eq_refl eq_refl Hincr Hle eq_refl).
      by destruct p. }
    destruct (submitAnswer_tx _ _ _ _ _ _ _) as [[e'|result] d] eqn:Htx.
    { by apply (H6 v attempts m e' d). }
    destruct (after_commit _ _ _ _ _) as [r m''] eqn:Hac.
    specialize (H7 v attempts m result d r m'' eq_refl eq_refl Hincr Hle eq_refl Htx Hac).
    by destruct r.
  - rewrite (submitAnswer_throttled sha256_hex now body w v attempts m) by (done || lia).
    apply (H4 v attempts m); (done || lia).
Qed.

(** What a handler that returns has written. *)
Lemma submitAnswer_tx_commit now userId questionId answer v d result d' :
  submitAnswer_tx sha256_hex now userId questionId answer v d = (inr result, d') →
  ∃ row logged,
    user_state d !! userId = Some row
    ∧ v = UserState.stateVersion (current_state now row)
    ∧ SubmitAnswerResponse.stateVersion result = v + 1
    ∧ SubmitAnswerResponse.answeredAt result = now
    ∧ d' = {| user_state :=
                <[userId := committed_row (Schema.user_id row) questionId result]>
                  (user_state d);
              questions := questions d;
              answer_log := answer_log d ++ [logged];
              leaderboard_score :=
                <[userId := (SubmitAnswerResponse.totalScore result, now)]>
                  (leaderboard_score d);
              leaderboard_streak :=
                <[userId := (SubmitAnswerResponse.maxStreak result, now)]>
                  (leaderboard_streak d) |}.
Proof.
  unfold submitAnswer_tx. se_unfold.
  destruct (user_state d !! userId) as [row|] eqn:Hrow; [|done].
  destruct (negb (v =? UserState.stateVersion (current_state now row))) eqn:Hv; [done|].
  apply negb_false_iff, Z.eqb_eq in Hv.
  destruct (questions d !! questionId) as [question|]; [|done].
  destruct (computeNextDifficulty _ _ _ _) as [nd nc].
  unfold upsertLeaderboardTx, execute. se_unfold.
  destruct (accepts_BIGINT _); [|done]. simpl.
  destruct (accepts_INT _); [|done]. simpl.
  intros [= <- <-]. eexists row, _. simpl.
  split; [done|]. split; [done|]. split; [by rewrite Hv|]. split; [done|].
  unfold set_user_state, upsert_leaderboard, committed_row. simpl. f_equal.
  apply map_eq. intros u. destruct (decide (u = userId)) as [->|Hne].
  - by rewrite lookup_alter_eq, lookup_insert_eq, Hrow.
  - by rewrite lookup_alter_ne, lookup_insert_ne.
Qed.

(** X5. A submission that lacks one of the three required strings, or whose
    version is not an integer, is rejected before anything is counted or
    looked up: the store is exactly what it was. *)
Theorem invalid_submission_changes_nothing now body w :
  well_formed body = false ∨ SubmitAnswerBody.stateVersion body = None →
  submitAnswer sha256_hex now body w
  = (inl (if well_formed body then InvalidStateVersion else MissingRequiredFields), w).
Proof.
  intros H. destruct (well_formed body) eqn:Hwf.
  - destruct H as [H|H]; [done|]. by apply submitAnswer_no_version.
  - by apply submitAnswer_malformed.
Qed.

(** X6. With twenty or more submissions counted in the running window, a
    submission is refused; the refusal itself is counted, the window keeps
    its end, and nothing else is read or written. *)
Theorem rate_limit_refuses now body w v n t :
  well_formed body = true →
  SubmitAnswerBody.stateVersion body = Some v →
  Redis.find now (rateKey (SubmitAnswerBody.userId body)) (redis w)
  = Some {| value := PCounter n; expires := t |} →
  RATE_LIMIT_PER_MINUTE ≤ n →
  submitAnswer sha256_hex now body w
  = (inl RateLimitExceeded,
     {| db := db w;
        redis := <[rateKey (SubmitAnswerBody.userId body) :=
                     {| value := PCounter (n + 1); expires := t |}]> (redis w) |}).
Proof.
  intros Hwf Hv Hf Hn. unfold RATE_LIMIT_PER_MINUTE in Hn.
  assert (Redis.incr now (rateKey (SubmitAnswerBody.userId body)) (redis w)
          = (inr (n + 1), <[rateKey (SubmitAnswerBody.userId body) :=
                              {| value := PCounter (n + 1); expires := t |}]> (redis w)))
    as Hincr by (unfold Redis.incr; by rewrite Hf).
  rewrite (submitAnswer_throttled sha256_hex now body w v _ _ Hwf Hv Hincr)
    by (unfold RATE_LIMIT_PER_MINUTE; lia).
  unfold gate_redis. rewrite Hincr.
  destruct (n + 1 =? 1) eqn:E; [apply Z.eqb_eq in E; lia|done].
Qed.

Lemma find_live now k (m : gmap string entry) e :
  Redis.find now k m = Some e → m !! k = Some e ∧ Redis.live now e = true.
Proof.
  unfold Redis.find. destruct (m !! k) as [e'|]; [|done].
  destruct (Redis.live now e') eqn:E; [|done]. by intros [= <-].
Qed.

Lemma find_dead now k (m : gmap string entry) :
  Redis.find now k m = None →
  m !! k = None ∨ ∃ e, m !! k = Some e ∧ Redis.live now e = false.
Proof.
  unfold Redis.find. destruct (m !! k) as [e'|]; [|by left].
  destruct (Redis.live now e') eqn:E; [done|]. right. by exists e'.
Qed.

(** The rate limiter on its counter: one more, and a minute from now when
    the count has come to one. *)
Lemma gate_redis_counts now userId (m : gmap string entry) :
  Redis.find now (rateKey userId) (gate_redis now userId m)
  = match Redis.find now (rateKey userId) m with
    | None => Some {| value := PCounter 1; expires := Some (now + 60 * 1000) |}
    | Some {| value := PCounter n; expires := t |} =>
        Some {| value := PCounter (n + 1);
                expires := if n =? 0 then Some (now + 60 * 1000) else t |}
    | Some e => Some e
    end.
Proof.
  assert (Redis.live now {| value := PCounter 1; expires := Some (now + 60 * 1000) |}
          = true) as Hmin.
  { unfold Redis.live. simpl. apply Z.ltb_lt. lia. }
  unfold gate_redis, Redis.incr.
  destruct (Redis.find now (rateKey userId) m) as [[p t]|] eqn:Hf.
  - destruct (find_live _ _ _ _ Hf) as [_ Hl].
    destruct p; simpl; try done.
    assert (∀ m1, Redis.find now (rateKey userId)
              (<[rateKey userId := {| value := PCounter (n + 1); expires := t |}]> m1)
            = Some {| value := PCounter (n + 1); expires := t |}) as Hi.
    { intros m1. rewrite find_insert_eq. unfold Redis.live in *. simpl in *. by rewrite Hl. }
    destruct (n + 1 =? 1) eqn:E.
    + apply Z.eqb_eq in E. assert (n = 0) as -> by lia. simpl.
      unfold Redis.expire. rewrite Hi. simpl. change (0 + 1) with 1.
      rewrite find_insert_eq. by rewrite Hmin.
    + apply Z.eqb_neq in E. destruct (n =? 0) eqn:E0; [apply Z.eqb_eq in E0; lia|].
      apply Hi.
  - simpl. unfold Redis.expire. rewrite !find_insert_eq.
    assert (Redis.live now {| value := PCounter 1; expires := None |} = true) as -> by done.
    simpl. rewrite find_insert_eq. by rewrite Hmin.
Qed.

(** X7. Every well-formed submission with a version is counted, whether it
    is then refused, replayed, rejected or committed: the counter of the
    user goes up by one and keeps the end of its window, and a window of
    sixty seconds starts when the count comes to one. *)
Theorem every_submission_is_counted now body w v :
  well_formed body = true →
  SubmitAnswerBody.stateVersion body = Some v →
  let key := rateKey (SubmitAnswerBody.userId body) in
  Redis.find now key (redis (snd (submitAnswer sha256_hex now body w)))
  = match Redis.find now key (redis w) with
    | None => Some {| value := PCounter 1; expires := Some (now + 60 * 1000) |}
    | Some {| value := PCounter n; expires := t |} =>
        Some {| value := PCounter (n + 1);
                expires := if n =? 0 then Some (now + 60 * 1000) else t |}
    | Some e => Some e
    end.
Proof.
  intros Hwf Hv key. subst key. rewrite <- gate_redis_counts.
  apply (submitAnswer_cases now body w
           (λ out, Redis.find now (rateKey (SubmitAnswerBody.userId body)) (redis (snd out))
                   = Redis.find now (rateKey (SubmitAnswerBody.userId body))
                       (gate_redis now (SubmitAnswerBody.userId body) (redis w))));
    try congruence; try done.
  - intros v' e m _ _ Hincr. simpl. unfold gate_redis. by rewrite Hincr.
  - intros v' attempts m result d r m'' _ _ _ _ _ _ Hac. simpl.
    unfold Redis.find. replace m'' with (snd (after_commit now
      (SubmitAnswerBody.userId body) (SubmitAnswerBody.answerIdempotencyKey body) result
      (gate_redis now (SubmitAnswerBody.userId body) (redis w)))) by by rewrite Hac.
    rewrite after_commit_frame; [done|apply rateKey_not_after_commit].
Qed.

(** X8. A submission that the rate limiter lets through and that is no
    replay fails for a user without a row, and, once the version has
    passed the check, for a question that is not in the bank; in both
    cases the durable store is what it was and Redis holds the count. *)
Theorem unknown_user_or_question now body w v attempts m :
  well_formed body = true →
  SubmitAnswerBody.stateVersion body = Some v →
  Redis.incr now (rateKey (SubmitAnswerBody.userId body)) (redis w) = (inr attempts, m) →
  attempts ≤ RATE_LIMIT_PER_MINUTE →
  stored_response now body (redis w) = None →
  let gated := {| db := db w;
                  redis := gate_redis now (SubmitAnswerBody.userId body) (redis w) |} in
  (user_state (db w) !! SubmitAnswerBody.userId body = None →
   submitAnswer sha256_hex now body w = (inl UserStateNotFound, gated))
  ∧ (∀ row, user_state (db w) !! SubmitAnswerBody.userId body = Some row →
       v = UserState.stateVersion (current_state now row) →
       questions (db w) !! SubmitAnswerBody.questionId body = None →
       submitAnswer sha256_hex now body w = (inl QuestionNotFound, gated)).
Proof.
  intros Hwf Hv Hincr Hle Hs gated.
  rewrite (submitAnswer_passed sha256_hex now body w v attempts m) by done.
  rewrite Hs. unfold submitAnswer_tx. se_unfold. cbn beta. split.
  - by intros ->.
  - intros row Hrow Hver Hq. rewrite Hrow. cbn iota beta.
    rewrite <- Hver, Z.eqb_refl. cbn. by rewrite Hq.
Qed.

(** X9. Whatever its outcome, a submission leaves the question bank as it
    was, writes no user row and no leaderboard row of another user, and
    adds at most one row to the answer log, at its end. *)
Theorem submission_writes_one_user now body w :
  let w' := snd (submitAnswer sha256_hex now body w) in
  questions (db w') = questions (db w)
  ∧ (∀ u, u ≠ SubmitAnswerBody.userId body →
       user_state (db w') !! u = user_state (db w) !! u
       ∧ leaderboard_score (db w') !! u = leaderboard_score (db w) !! u
       ∧ leaderboard_streak (db w') !! u = leaderboard_streak (db w) !! u)
  ∧ ∃ logged, answer_log (db w') = answer_log (db w) ++ logged
              ∧ (length logged ≤ 1)%nat.
Proof.
  apply (submitAnswer_cases now body w
           (λ out, questions (db (snd out)) = questions (db w)
                   ∧ (∀ u, u ≠ SubmitAnswerBody.userId body →
                        user_state (db (snd out)) !! u = user_state (db w) !! u
                        ∧ leaderboard_score (db (snd out)) !! u
                          = leaderboard_score (db w) !! u
                        ∧ leaderboard_streak (db (snd out)) !! u
                          = leaderboard_streak (db w) !! u)
                   ∧ ∃ logged, answer_log (db (snd out)) = answer_log (db w) ++ logged
                               ∧ (length logged ≤ 1)%nat));
    try (intros; simpl; split; [done|]; split; [done|];
         exists []; rewrite app_nil_r; split; [done|simpl; lia]).
  intros v attempts m result d r m'' _ _ _ _ _ Htx _. simpl.
  destruct (submitAnswer_tx_commit _ _ _ _ _ _ _ _ Htx)
    as (row & logged & _ & _ & _ & _ & ->). simpl.
  split; [done|]. split.
  - intros u Hu. by rewrite !lookup_insert_ne.
  - by exists [logged].
Qed.

(** X10. A transaction that commits leaves the user's row as the response
    reports it, with the question answered and the time of the answer; the
    new version is the submitted one plus one, and both leaderboard rows
    of the user carry the new total and the new best streak. *)
Theorem committed_row_matches_response now userId questionId answer v d result d' :
  submitAnswer_tx sha256_hex now userId questionId answer v d = (inr result, d') →
  SubmitAnswerResponse.stateVersion result = v + 1
  ∧ (∃ row, user_state d !! userId = Some row
            ∧ user_state d' !! userId
              = Some (committed_row (Schema.user_id row) questionId result))
  ∧ leaderboard_score d' !! userId = Some (SubmitAnswerResponse.totalScore result, now)
  ∧ leaderboard_streak d' !! userId = Some (SubmitAnswerResponse.maxStreak result, now).
Proof.
  intros Htx.
  destruct (submitAnswer_tx_commit _ _ _ _ _ _ _ _ Htx)
    as (row & logged & Hrow & _ & Hv & _ & ->). simpl.
  split; [done|]. split; [|by rewrite !lookup_insert_eq].
  exists row. by rewrite lookup_insert_eq.
Qed.

(** The version that the handler expects of a row is above the row's. *)
Lemma current_state_version now row :
  Schema.state_version row ≤ UserState.stateVersion (current_state now row)
                           ≤ Schema.state_version row + 1.
Proof. unfold current_state. destruct (decay_flag now row); simpl; lia. Qed.

(** X11. A version is spent by its commit: the same submission sent again,
    when no record of it is found under a token, never commits a second
    time. It is refused by the rate limiter or rejected at the version
    check, and the durable store stays as the first left it. *)
Theorem committed_version_is_spent now now' body w result :
  stored_response now body (redis w) = None →
  fst (submitAnswer sha256_hex now body w) = inr result →
  let w1 := snd (submitAnswer sha256_hex now body w) in
  stored_response now' body (redis w1) = None →
  (fst (submitAnswer sha256_hex now' body w1) = inl RateLimitExceeded
   ∨ fst (submitAnswer sha256_hex now' body w1) = inl StateVersionMismatch)
  ∧ db (snd (submitAnswer sha256_hex now' body w1)) = db w1.
Proof.
  intros Hs Hfst w1 Hs'.
  assert (∃ v row, SubmitAnswerBody.stateVersion body = Some v
                   ∧ well_formed body = true
                   ∧ user_state (db w1) !! SubmitAnswerBody.userId body = Some row
                   ∧ Schema.state_version row = v + 1
                   ∧ ∃ n t, Redis.find now (rateKey (SubmitAnswerBody.userId body)) (redis w1)
                            = Some {| value := PCounter n; expires := t |})
    as (v & row & Hv & Hwf & Hrow & Hver & n & t & Hrate).
  { subst w1. revert Hfst.
    apply (submitAnswer_cases now body w
             (λ out, fst out = inr result →
                ∃ v row, SubmitAnswerBody.stateVersion body = Some v
                   ∧ well_formed body = true
                   ∧ user_state (db (snd out)) !! SubmitAnswerBody.userId body = Some row
                   ∧ Schema.state_version row = v + 1
                   ∧ ∃ n t, Redis.find now (rateKey (SubmitAnswerBody.userId body))
                              (redis (snd out))
                            = Some {| value := PCounter n; expires := t |}));
      try done; try congruence.
    intros v attempts m result' d r m'' Hwf Hv Hincr _ _ Htx Hac. simpl.
    destruct r as [|[]]; [done|]. intros [= ->].
    destruct (submitAnswer_tx_commit _ _ _ _ _ _ _ _ Htx)
      as (row & logged & _ & _ & Hv' & _ & ->). simpl.
    exists v, (committed_row (Schema.user_id row) (SubmitAnswerBody.questionId body) result).
    split; [done|]. split; [done|]. rewrite lookup_insert_eq. split; [done|].
    split; [done|].
    assert (Redis.find now (rateKey (SubmitAnswerBody.userId body)) m''
            = Redis.find now (rateKey (SubmitAnswerBody.userId body))
                (gate_redis now (SubmitAnswerBody.userId body) (redis w))) as ->.
    { unfold Redis.find. replace m'' with (snd (after_commit now
        (SubmitAnswerBody.userId body) (SubmitAnswerBody.answerIdempotencyKey body) result
        (gate_redis now (SubmitAnswerBody.userId body) (redis w)))) by by rewrite Hac.
      rewrite after_commit_frame; [done|apply rateKey_not_after_commit]. }
    rewrite gate_redis_counts. unfold Redis.incr in Hincr.
    destruct (Redis.find now (rateKey (SubmitAnswerBody.userId body)) (redis w))
      as [[[] ?]|]; try done; eauto. }
  apply (submitAnswer_cases now' body w1
           (λ out, (fst out = inl RateLimitExceeded ∨ fst out = inl StateVersionMismatch)
                   ∧ db (snd out) = db w1)); try congruence.
  - (* the counter is a counter *)
    intros v' e m _ _. unfold Redis.incr.
    destruct (Redis.find now' (rateKey (SubmitAnswerBody.userId body)) (redis w1))
      as [e'|] eqn:Hf'; [|done].
    apply find_live in Hf' as [Hl' _]. apply find_live in Hrate as [Hl _].
    rewrite Hl in Hl'. by simplify_eq.
  - intros. simpl. by split; [left|].
  - intros v' attempts m e d _ Hv' _ _ _ Htx. simpl. split; [|done]. right.
    assert (v' = v) as -> by congruence.
    rewrite (submitAnswer_tx_conflict sha256_hex now' _ _ _ v (db w1) row Hrow) in Htx.
    + by simplify_eq.
    + pose proof (current_state_version now' row). lia.
  - intros v' attempts m result' d r m'' _ Hv' _ _ _ Htx _. exfalso.
    assert (v' = v) as -> by congruence.
    rewrite (submitAnswer_tx_conflict sha256_hex now' _ _ _ v (db w1) row Hrow) in Htx.
    + done.
    + pose proof (current_state_version now' row). lia.
Qed.

(** X12. A token names one response for twenty-four hours: once a
    submission under a token has committed, any well-formed submission
    that carries the token and that the rate limiter lets through is
    answered with that response, whoever sends it and whatever question,
    answer and version it carries, and the durable store is not touched. *)
Theorem token_names_one_response now now' body body' w result key v' attempts m :
  SubmitAnswerBody.answerIdempotencyKey body = Some key →
  nonempty key = true →
  stored_response now body (redis w) = None →
  fst (submitAnswer sha256_hex now body w) = inr result →
  let w1 := snd (submitAnswer sha256_hex now body w) in
  SubmitAnswerBody.answerIdempotencyKey body' = Some key →
  well_formed body' = true →
  SubmitAnswerBody.stateVersion body' = Some v' →
  now' < now + 24 * 60 * 60 * 1000 →
  Redis.incr now' (rateKey (SubmitAnswerBody.userId body')) (redis w1) = (inr attempts, m) →
  attempts ≤ RATE_LIMIT_PER_MINUTE →
  submitAnswer sha256_hex now' body' w1
  = (inr result,
     {| db := db w1;
        redis := gate_redis now' (SubmitAnswerBody.userId body') (redis w1) |}).
Proof.
  intros Hkey Hne Hs Hfst w1 Hkey' Hwf' Hv' Hnow Hincr Hle.
  assert (Redis.find now' (IDEMP_PREFIX +:+ key) (redis w1)
          = Some {| value := PResponse result;
                    expires := Some (now + IDEMP_TTL_SECONDS * 1000) |}) as Hfound.
  { subst w1. revert Hfst.
    apply (submitAnswer_cases now body w
             (λ out, fst out = inr result →
                Redis.find now' (IDEMP_PREFIX +:+ key) (redis (snd out))
                = Some {| value := PResponse result;
                          expires := Some (now + IDEMP_TTL_SECONDS * 1000) |}));
      try done; try congruence.
    intros v attempts0 m0 result' d r m'' _ _ _ _ _ _ Hac. simpl.
    destruct r as [|[]]; [done|]. intros [= ->].
    rewrite Hkey in Hac.
    apply (after_commit_stores now now' _ key result _ m'' Hne Hac).
    unfold IDEMP_TTL_SECONDS. lia. }
  rewrite (submitAnswer_passed sha256_hex now' body' w1 v' attempts m) by done.
  by rewrite (stored_response_found now' body' (redis w1) key result _ Hkey' Hne Hfound).
Qed.

End Outcomes.

(** ** leaderboard.ts: ranks *)

Lemma filter_length_Permutation {A} (f : A → bool) (l l' : list A) :
  l ≡ₚ l' → length (List.filter f l) = length (List.filter f l').
Proof.
  induction 1 as [|x l l' _ IH|x y l|l l' l'' _ IH1 _ IH2]; simpl.
  - done.
  - destruct (f x); simpl; congruence.
  - destruct (f x), (f y); simpl; done.
  - congruence.
Qed.

Lemma filter_length_le {A} (f : A → bool) (l : list A) :
  (length (List.filter f l) ≤ length l)%nat.
Proof. induction l as [|x l IH]; simpl; [done|]. destruct (f x); simpl; lia. Qed.

(** A row that does not beat the threshold is not counted: the rank is at
    most the number of rows. *)
Lemma rank_above_insert {V} (gt : V → bool) (table : gmap string (V * Z)) u v t :
  gt v = false →
  1 ≤ rank_above gt (<[u := (v, t)]> table) ≤ Z.of_nat (size (<[u := (v, t)]> table)).
Proof.
  intros Hv. unfold rank_above.
  rewrite <- (insert_delete_eq table).
  assert (delete u table !! u = None) as Hd by apply lookup_delete_eq.
  rewrite (filter_length_Permutation _ _ _ (map_to_list_insert _ u (v, t) Hd)).
  rewrite map_size_insert_None by done.
  simpl. rewrite Hv.
  pose proof (filter_length_le (λ r : string * (V * Z), gt r.2.1)
                (map_to_list (delete u table))) as Hle.
  rewrite length_map_to_list in Hle. lia.
Qed.

Lemma ltb_irrefl (x : float) : PrimFloat.ltb x x = false.
Proof.
  rewrite FloatAxioms.ltb_spec. unfold SFltb.
  destruct (Prim2SF x) as [[]|[]| |[] m e]; try done; simpl.
  - by rewrite Z.compare_refl, Pos.compare_cont_refl.
  - by rewrite Z.compare_refl, Pos.compare_cont_refl.
Qed.

(** X13. When the upsert returns, the total is an integer that the BIGINT
    column takes, both leaderboard rows of the user carry the new values,
    and the ranks it reports count the rows strictly above them: each is
    at least 1 and at most the number of rows of its table, the user's own
    row included. *)
Theorem upsert_rank_bounds now userId totalScore maxStreak d rankScore rankStreak d' :
  upsertLeaderboardTx now userId totalScore maxStreak d = (inr (rankScore, rankStreak), d') →
  accepts_BIGINT totalScore = true
  ∧ leaderboard_score d' !! userId = Some (totalScore, now)
  ∧ leaderboard_streak d' !! userId = Some (maxStreak, now)
  ∧ rankScore = rank_above (λ x, PrimFloat.ltb totalScore x) (leaderboard_score d')
  ∧ rankStreak = rank_above (λ x, maxStreak <? x) (leaderboard_streak d')
  ∧ 1 ≤ rankScore ≤ Z.of_nat (size (leaderboard_score d'))
  ∧ 1 ≤ rankStreak ≤ Z.of_nat (size (leaderboard_streak d')).
Proof.
  unfold upsertLeaderboardTx, execute. se_unfold.
  destruct (accepts_BIGINT totalScore); [|done]. simpl.
  intros [= <- <- <-]. simpl. rewrite !lookup_insert_eq.
  repeat split; try done.
  - apply rank_above_insert, ltb_irrefl.
  - apply rank_above_insert, ltb_irrefl.
  - apply rank_above_insert, Z.ltb_irrefl.
  - apply rank_above_insert, Z.ltb_irrefl.
Qed.

(** A total that the BIGINT column does not take makes the upsert fail
    with a database error, nothing written. *)
Lemma upsert_refused now userId totalScore maxStreak d :
  accepts_BIGINT totalScore = false →
  upsertLeaderboardTx now userId totalScore maxStreak d = (inl DatabaseError, d).
Proof. intros H. unfold upsertLeaderboardTx, execute. se_unfold. by rewrite H. Qed.

Section Ranks.

Variable sha256_hex : string → string.

(** The ranks of a response are those of its values in the tables as the
    transaction leaves them. *)
Lemma submitAnswer_tx_ranks now userId questionId answer v d result d' :
  submitAnswer_tx sha256_hex now userId questionId answer v d = (inr result, d') →
  SubmitAnswerResponse.leaderboardRankScore result
  = rank_above (λ x, PrimFloat.ltb (SubmitAnswerResponse.totalScore result) x)
      (leaderboard_score d')
  ∧ SubmitAnswerResponse.leaderboardRankStreak result
    = rank_above (λ x, SubmitAnswerResponse.maxStreak result <? x) (leaderboard_streak d').
Proof.
  unfold submitAnswer_tx, upsertLeaderboardTx, execute. se_unfold.
  destruct (user_state d !! userId) as [row|]; [|done].
  destruct (negb _); [done|].
  destruct (questions d !! questionId) as [question|]; [|done].
  destruct (computeNextDifficulty _ _ _ _) as [nd nc].
  destruct (accepts_BIGINT _); [|done]. simpl.
  destruct (accepts_INT _); [|done]. simpl.
  by intros [= <- <-].
Qed.

(** X14. [getRank] read after a commit gives the two ranks of the
    response; for a user in neither leaderboard table it gives no rank. *)
Theorem getRank_agrees_with_response now userId questionId answer v d result d' :
  submitAnswer_tx sha256_hex now userId questionId answer v d = (inr result, d') →
  getRank userId d'
  = (inr (Some (SubmitAnswerResponse.leaderboardRankScore result),
          Some (SubmitAnswerResponse.leaderboardRankStreak result)), d')
  ∧ ∀ stranger, leaderboard_score d' !! stranger = None →
                leaderboard_streak d' !! stranger = None →
                getRank stranger d' = (inr (None, None), d').
Proof.
  intros Htx. split.
  - destruct (submitAnswer_tx_ranks _ _ _ _ _ _ _ _ Htx) as [-> ->].
    destruct (submitAnswer_tx_commit _ _ _ _ _ _ _ _ _ Htx)
      as (row & logged & _ & _ & _ & _ & ->).
    unfold getRank. se_unfold. cbn [leaderboard_score leaderboard_streak].
    rewrite !lookup_insert_eq. cbn [fmap option_fmap option_map default fst].
    rewrite !bool_decide_eq_true_2 by eauto. done.
  - intros stranger H1 H2. unfold getRank. se_unfold. by rewrite H1, H2.
Qed.

End Ranks.

(** ** The Redis keys of a submission *)

Lemma cacheKeyForTop_inj kind kind' limit limit' :
  cacheKeyForTop kind limit = cacheKeyForTop kind' limit' → kind = kind' ∧ limit = limit'.
Proof.
  unfold cacheKeyForTop.
  destruct kind, kind'; cbn [kind_name String.append]; intros H; simplify_eq; cbn in *;
    simplify_eq; split; try done; by apply (inj pretty).
Qed.

Lemma top_key_not_after_commit kind limit userId key :
  limit ≠ 10 → cacheKeyForTop kind limit ∉ after_commit_keys userId key.
Proof.
  intros Hl. unfold after_commit_keys. rewrite not_elem_of_app, !not_elem_of_cons.
  split; [repeat split; try (destruct kind; discriminate); try apply not_elem_of_nil|].
  - intros H. by apply cacheKeyForTop_inj in H as [_ ?].
  - intros H. by apply cacheKeyForTop_inj in H as [_ ?].
  - destruct key as [key|]; [|apply not_elem_of_nil].
    destruct (nonempty key); [|apply not_elem_of_nil].
    rewrite not_elem_of_cons. split; [destruct kind; discriminate|apply not_elem_of_nil].
Qed.

Lemma user_key_not_after_commit u userId key :
  u ≠ userId → USER_STATE_PREFIX +:+ u ∉ after_commit_keys userId key.
Proof.
  intros Hu. unfold after_commit_keys. rewrite not_elem_of_app, !not_elem_of_cons.
  split; [repeat split; try discriminate; try apply not_elem_of_nil|].
  - intros H. by apply (inj (String.app _)) in H.
  - destruct key as [key|]; [|apply not_elem_of_nil].
    destruct (nonempty key); [|apply not_elem_of_nil].
    rewrite not_elem_of_cons. split; [discriminate|apply not_elem_of_nil].
Qed.

Lemma token_key_not_after_commit key' userId key :
  key ≠ Some key' → IDEMP_PREFIX +:+ key' ∉ after_commit_keys userId key.
Proof.
  intros Hk. unfold after_commit_keys. rewrite not_elem_of_app, !not_elem_of_cons.
  split; [repeat split; try discriminate; apply not_elem_of_nil|].
  destruct key as [key|]; [|apply not_elem_of_nil].
  destruct (nonempty key); [|apply not_elem_of_nil].
  rewrite not_elem_of_cons. split; [|apply not_elem_of_nil].
  intros H. apply (inj (String.app _)) in H. congruence.
Qed.

(** What the steps after a commit leave in Redis when none of them fails. *)
Lemma after_commit_effects now userId key result m m' :
  after_commit now userId key result m = (inr tt, m') →
  m' !! cacheKeyForTop KScore 10 = None
  ∧ m' !! cacheKeyForTop KStreak 10 = None
  ∧ m' !! ("metrics:" +:+ userId) = None
  ∧ m' !! (USER_STATE_PREFIX +:+ userId)
    = Some {| value := PUserState (cacheState userId result);
              expires := Some (now + TTL_SECONDS * 1000) |}
  ∧ (∃ z t, m' !! SCORE_SET_KEY = Some {| value := PZset z; expires := t |}
            ∧ z !! userId = Some (SubmitAnswerResponse.totalScore result))
  ∧ (∃ z t, m' !! STREAK_SET_KEY = Some {| value := PZset z; expires := t |}
            ∧ z !! userId = Some (Js.of_Z (SubmitAnswerResponse.maxStreak result))).
Proof.
  unfold after_commit, updateLeaderboardCaches. se_unfold.
  destruct (Redis.zAdd now SCORE_SET_KEY _ userId m) as [[|[]] m1] eqn:E1; [done|].
  destruct (Redis.zAdd now STREAK_SET_KEY _ userId m1) as [[|[]] m2] eqn:E2; [done|].
  cbn [UserState.maxStreak] in E2.
  assert (∃ z t, m1 !! SCORE_SET_KEY = Some {| value := PZset z; expires := t |}
                 ∧ z !! userId = Some (SubmitAnswerResponse.totalScore result))
    as (z1 & t1 & Hz1 & Hu1).
  { revert E1. unfold Redis.zAdd.
    destruct (Redis.find now SCORE_SET_KEY m) as [[[] ?]|]; try done;
      intros [= <-]; eexists _, _; rewrite lookup_insert_eq; split; try done.
    - by rewrite lookup_insert_eq.
    - by rewrite lookup_singleton_eq. }
  assert (∃ z t, m2 !! STREAK_SET_KEY = Some {| value := PZset z; expires := t |}
                 ∧ z !! userId = Some (Js.of_Z (SubmitAnswerResponse.maxStreak result)))
    as (z2 & t2 & Hz2 & Hu2).
  { revert E2. unfold Redis.zAdd.
    destruct (Redis.find now STREAK_SET_KEY m1) as [[[] ?]|]; try done;
      intros [= <-]; eexists _, _; rewrite lookup_insert_eq; split; try done.
    - by rewrite lookup_insert_eq.
    - by rewrite lookup_singleton_eq. }
  assert (m2 !! SCORE_SET_KEY = Some {| value := PZset z1; expires := t1 |}) as Hz1'.
  { rewrite <- Hz1. replace m2 with (snd (Redis.zAdd now STREAK_SET_KEY
      (Js.of_Z (SubmitAnswerResponse.maxStreak result)) userId m1)) by by rewrite E2.
    by apply zAdd_lookup_ne. }
  unfold updateUserState, storeIdempotency, Redis.set, Redis.del, modify. simpl.
  set (m3 := delete ("metrics:" +:+ userId) _).
  assert (m3 !! cacheKeyForTop KScore 10 = None
          ∧ m3 !! cacheKeyForTop KStreak 10 = None
          ∧ m3 !! ("metrics:" +:+ userId) = None
          ∧ m3 !! (USER_STATE_PREFIX +:+ userId)
            = Some {| value := PUserState (cacheState userId result);
                      expires := Some (now + TTL_SECONDS * 1000) |}
          ∧ m3 !! SCORE_SET_KEY = Some {| value := PZset z1; expires := t1 |}
          ∧ m3 !! STREAK_SET_KEY = Some {| value := PZset z2; expires := t2 |}) as H3.
  { subst m3. repeat split.
    - rewrite lookup_delete_ne, lookup_insert_ne by done.
      rewrite lookup_delete_ne by done. apply lookup_delete_eq.
    - rewrite lookup_delete_ne, lookup_insert_ne by done. apply lookup_delete_eq.
    - apply lookup_delete_eq.
    - rewrite lookup_delete_ne by done. by rewrite lookup_insert_eq.
    - rewrite lookup_delete_ne, lookup_insert_ne, !lookup_delete_ne by done. done.
    - rewrite lookup_delete_ne, lookup_insert_ne, !lookup_delete_ne by done. done. }
  clearbody m3. destruct H3 as (A1 & A2 & A3 & A4 & A5 & A6).
  destruct key as [key|].
  2:{ intros [= <-]. repeat split; eauto. }
  destruct (nonempty key).
  2:{ intros [= <-]. repeat split; eauto. }
  simpl. intros [= <-].
  rewrite !lookup_insert_ne by discriminate. repeat split; eauto.
Qed.

Section Footprint.

Variable sha256_hex : string → string.

(** A submission writes no Redis key but the user's counter and those of
    the steps after a commit. *)
Lemma submitAnswer_redis_frame now body w k :
  k ≠ rateKey (SubmitAnswerBody.userId body) →
  k ∉ after_commit_keys (SubmitAnswerBody.userId body)
        (SubmitAnswerBody.answerIdempotencyKey body) →
  redis (snd (submitAnswer sha256_hex now body w)) !! k = redis w !! k.
Proof.
  intros Hk Hac.
  apply (submitAnswer_cases sha256_hex now body w
           (λ out, redis (snd out) !! k = redis w !! k)); try done;
    try (intros; simpl; by apply gate_redis_lookup_ne).
  - intros v e m _ _ Hincr. simpl.
    replace m with (snd (Redis.incr now (rateKey (SubmitAnswerBody.userId body)) (redis w)))
      by by rewrite Hincr.
    by apply incr_lookup_ne.
  - intros v attempts m result d r m'' _ _ _ _ _ _ Hcommit. simpl.
    replace m'' with (snd (after_commit now (SubmitAnswerBody.userId body)
      (SubmitAnswerBody.answerIdempotencyKey body) result
      (gate_redis now (SubmitAnswerBody.userId body) (redis w)))) by by rewrite Hcommit.
    rewrite after_commit_frame by done. by apply gate_redis_lookup_ne.
Qed.

(** A committed submission, seen from outside. *)
Lemma submitAnswer_committed now body w result :
  stored_response now body (redis w) = None →
  fst (submitAnswer sha256_hex now body w) = inr result →
  ∃ v d m,
    SubmitAnswerBody.stateVersion body = Some v
    ∧ submitAnswer_tx sha256_hex now (SubmitAnswerBody.userId body)
        (SubmitAnswerBody.questionId body) (SubmitAnswerBody.answer body) v (db w)
      = (inr result, d)
    ∧ after_commit now (SubmitAnswerBody.userId body)
        (SubmitAnswerBody.answerIdempotencyKey body) result
        (gate_redis now (SubmitAnswerBody.userId body) (redis w)) = (inr tt, m)
    ∧ snd (submitAnswer sha256_hex now body w) = {| db := d; redis := m |}.
Proof.
  intros Hs.
  apply (submitAnswer_cases sha256_hex now body w
           (λ out, fst out = inr result →
              ∃ v d m,
                SubmitAnswerBody.stateVersion body = Some v
                ∧ submitAnswer_tx sha256_hex now (SubmitAnswerBody.userId body)
                    (SubmitAnswerBody.questionId body) (SubmitAnswerBody.answer body) v (db w)
                  = (inr result, d)
                ∧ after_commit now (SubmitAnswerBody.userId body)
                    (SubmitAnswerBody.answerIdempotencyKey body) result
                    (gate_redis now (SubmitAnswerBody.userId body) (redis w)) = (inr tt, m)
                ∧ snd out = {| db := d; redis := m |})); try done; try congruence.
  intros v attempts m result' d r m'' _ Hv _ _ _ Htx Hcommit. simpl.
  destruct r as [|[]]; [done|]. intros [= ->]. by exists v, d, m''.
Qed.

(** X15. A cached top list of a limit other than ten outlives every
    submission: it is served as it was until it expires, whatever the
    submission has committed. *)
Theorem top_cache_outlives_submissions now now' body w kind limit entries t :
  Z.max 1 limit ≠ 10 →
  Redis.find now (cacheKeyForTop kind (Z.max 1 limit)) (redis w)
  = Some {| value := PTop entries; expires := t |} →
  fst (onRedis (getTopOf kind now limit) (snd (submitAnswer sha256_hex now' body w)))
  = inr entries.
Proof.
  intros Hl Hf. unfold onRedis. rewrite getTopOf_getTop.
  rewrite (getTop_cached now kind (setKeyOf kind) limit _ entries t); [done|].
  rewrite <- Hf. unfold Redis.find.
  rewrite submitAnswer_redis_frame; [done|destruct kind; discriminate|].
  by apply top_key_not_after_commit.
Qed.

(** X16. A submission that commits leaves the caches refreshed: both cached
    top-ten lists and the cached metrics of the user are gone, the cached
    state of the user is the one of the response, for an hour, and both
    sorted sets hold the user's new total and best streak. *)
Theorem commit_refreshes_caches now body w result :
  stored_response now body (redis w) = None →
  fst (submitAnswer sha256_hex now body w) = inr result →
  let userId := SubmitAnswerBody.userId body in
  let m := redis (snd (submitAnswer sha256_hex now body w)) in
  m !! cacheKeyForTop KScore 10 = None
  ∧ m !! cacheKeyForTop KStreak 10 = None
  ∧ m !! ("metrics:" +:+ userId) = None
  ∧ m !! (USER_STATE_PREFIX +:+ userId)
    = Some {| value := PUserState (cacheState userId result);
              expires := Some (now + 60 * 60 * 1000) |}
  ∧ (∃ z t, m !! SCORE_SET_KEY = Some {| value := PZset z; expires := t |}
            ∧ z !! userId = Some (SubmitAnswerResponse.totalScore result))
  ∧ (∃ z t, m !! STREAK_SET_KEY = Some {| value := PZset z; expires := t |}
            ∧ z !! userId = Some (Js.of_Z (SubmitAnswerResponse.maxStreak result))).
Proof.
  intros Hs Hfst userId m.
  destruct (submitAnswer_committed now body w result Hs Hfst)
    as (v & d & m' & _ & _ & Hcommit & Hsnd).
  subst m. rewrite Hsnd. simpl.
  apply (after_commit_effects _ _ _ _ _ _ Hcommit).
Qed.

(** X17. Users are isolated in Redis: whatever its outcome, a submission
    leaves the cached state and the rate counter of every other user, and
    the record of every other token, as they were. *)
Theorem submission_leaves_others_alone now body w :
  let m := redis (snd (submitAnswer sha256_hex now body w)) in
  (∀ u, u ≠ SubmitAnswerBody.userId body →
     m !! (USER_STATE_PREFIX +:+ u) = redis w !! (USER_STATE_PREFIX +:+ u)
     ∧ m !! rateKey u = redis w !! rateKey u)
  ∧ (∀ key, SubmitAnswerBody.answerIdempotencyKey body ≠ Some key →
       m !! (IDEMP_PREFIX +:+ key) = redis w !! (IDEMP_PREFIX +:+ key)).
Proof.
  intros m. subst m. split.
  - intros u Hu. split.
    + apply submitAnswer_redis_frame; [discriminate|by apply user_key_not_after_commit].
    + apply submitAnswer_redis_frame; [|apply rateKey_not_after_commit].
      intros H. by apply (inj (String.app _)) in H.
  - intros key Hkey.
    apply submitAnswer_redis_frame; [discriminate|by apply token_key_not_after_commit].
Qed.

End Footprint.

(** ** userState.ts: reads *)

Lemma hydrateState_update_decay row :
  hydrateState (update_decay (decayed (hydrateState row)) row) = decayed (hydrateState row).
Proof. by destruct row. Qed.

(** A read that misses the cache. *)
Lemma getUserState_miss now userId w :
  Redis.find now (USER_STATE_PREFIX +:+ userId) (redis w) = None →
  getUserState now userId w
  = match user_state (db w) !! userId with
    | None => (inr None, w)
    | Some row =>
        (inr (Some (read_state now row)),
         {| db := if decay_due now Js.DateObject (hydrateState row)
                  then set_user_state
                         (alter (update_decay (decayed (hydrateState row)))
                                (Schema.user_id row)) (db w)
                  else db w;
            redis := <[USER_STATE_PREFIX +:+ userId :=
                         {| value := PUserState (read_state now row);
                            expires := Some (now + TTL_SECONDS * 1000) |}]> (redis w) |})
    end.
Proof.
  intros Hf. unfold getUserState. se_unfold. rewrite get_find, Hf. simpl.
  destruct (user_state (db w) !! userId) as [row|]; [|by destruct w].
  unfold Redis.set, modify, applyDecay, read_state. simpl.
  destruct (decay_due now Js.DateObject (hydrateState row)); se_unfold; simpl.
  - unfold Redis.set, modify. simpl. by rewrite insert_insert_eq.
  - done.
Qed.

(** A read that finds the state in the cache. *)
Lemma getUserState_hit now userId w s t :
  Redis.find now (USER_STATE_PREFIX +:+ userId) (redis w)
  = Some {| value := PUserState s; expires := t |} →
  getUserState now userId w
  = if decay_due now Js.ISOString s
    then (inr (Some (decayed s)),
          {| db := set_user_state
                     (alter (update_decay (decayed s)) (UserState.userId s)) (db w);
             redis := <[USER_STATE_PREFIX +:+ userId :=
                          {| value := PUserState (decayed s);
                             expires := Some (now + TTL_SECONDS * 1000) |}]> (redis w) |})
    else (inr (Some s), w).
Proof.
  intros Hf. unfold getUserState. se_unfold. rewrite get_find, Hf. simpl.
  unfold applyDecay. destruct (decay_due now Js.ISOString s); se_unfold; simpl; [done|by destruct w].
Qed.

(** X18. A read that misses the cache goes to the database: for a user
    without a row it returns nothing and writes nothing; for a user with a
    row it returns the row, decayed when due (with a streak, and more than
    five minutes after the last answer, its time read to the second
    below), and leaves that same state both in the row and in the cache,
    for an hour. *)
Theorem read_through_cache now userId w :
  Redis.find now (USER_STATE_PREFIX +:+ userId) (redis w) = None →
  (∀ row, user_state (db w) !! userId = Some row → Schema.user_id row = userId) →
  match user_state (db w) !! userId with
  | None => getUserState now userId w = (inr None, w)
  | Some row =>
      fst (getUserState now userId w) = inr (Some (read_state now row))
      ∧ hydrateState <$> user_state (db (snd (getUserState now userId w))) !! userId
        = Some (read_state now row)
      ∧ Redis.find now (USER_STATE_PREFIX +:+ userId) (redis (snd (getUserState now userId w)))
        = Some {| value := PUserState (read_state now row);
                  expires := Some (now + 60 * 60 * 1000) |}
  end.
Proof.
  intros Hf Hpk. rewrite (getUserState_miss now userId w Hf).
  destruct (user_state (db w) !! userId) as [row|] eqn:Hrow; [|done].
  specialize (Hpk row eq_refl). simpl. split; [done|]. split.
  - unfold read_state. destruct (decay_due now Js.DateObject (hydrateState row)); simpl.
    + rewrite Hpk, lookup_alter_eq, Hrow. simpl. by rewrite hydrateState_update_decay.
    + by rewrite Hrow.
  - rewrite find_insert_eq. unfold Redis.live, TTL_SECONDS. simpl.
    destruct (now <? now + 60 * 60 * 1000) eqn:E; [done|]. apply Z.ltb_ge in E. lia.
Qed.

(** X19. After [invalidateUserState] the next read is answered from the
    database, whatever the cache held: it returns the row, decayed when
    due as on every read of a row, the time of the last answer read to the
    second below. *)
Theorem invalidate_forces_reread now userId w :
  fst (getUserState now userId
         {| db := db w; redis := snd (invalidateUserState userId (redis w)) |})
  = inr (read_state now <$> user_state (db w) !! userId).
Proof.
  rewrite getUserState_miss.
  - simpl. by destruct (user_state (db w) !! userId).
  - unfold invalidateUserState, Redis.del, modify, Redis.find. simpl.
    by rewrite lookup_delete_eq.
Qed.

(** X20. A decay does not move the time of the last answer, so an idle
    user is decayed again by every read: two reads of a cached state that
    is due halve the streak twice and raise the version by two. *)
Theorem idle_reads_decay_again now now' userId w s t :
  Redis.find now (USER_STATE_PREFIX +:+ userId) (redis w)
  = Some {| value := PUserState s; expires := t |} →
  decay_due now Js.ISOString s = true →
  2 ≤ UserState.streak s →
  now ≤ now' < now + 60 * 60 * 1000 →
  fst (getUserState now userId w) = inr (Some (decayed s))
  ∧ fst (getUserState now' userId (snd (getUserState now userId w)))
    = inr (Some (decayed (decayed s)))
  ∧ UserState.streak (decayed (decayed s)) = UserState.streak s / 2 / 2
  ∧ UserState.stateVersion (decayed (decayed s)) = UserState.stateVersion s + 2.
Proof.
  intros Hf Hdue Hs Hnow.
  rewrite (getUserState_hit now userId w s t Hf), Hdue. simpl. split; [done|].
  split; [|split; [done|lia]].
  rewrite (getUserState_hit now' userId _ (decayed s) (Some (now + TTL_SECONDS * 1000))).
  2:{ simpl. rewrite find_insert_eq. unfold Redis.live, TTL_SECONDS. simpl.
      destruct (now' <? now + 60 * 60 * 1000) eqn:E; [done|]. apply Z.ltb_ge in E. lia. }
  assert (decay_due now' Js.ISOString (decayed s) = true) as ->; [|done].
  apply decay_due_iff in Hdue as (last & Hlast & Hidle & _). simpl in Hidle.
  apply decay_due_iff. exists last. simpl. split; [done|]. split; [lia|].
  apply Z.div_str_pos. lia.
Qed.

Section Forgetting.

Variable sha256_hex : string → string.

(** X21. After a commit the row holds the question just answered, but the
    state cached by the submission does not: for an hour reads are served
    a state without a last question. *)
Theorem cached_state_forgets_last_question now now' body w result :
  stored_response now body (redis w) = None →
  fst (submitAnswer sha256_hex now body w) = inr result →
  now' < now + 60 * 60 * 1000 →
  let userId := SubmitAnswerBody.userId body in
  let w1 := snd (submitAnswer sha256_hex now body w) in
  Schema.last_question_id <$> user_state (db w1) !! userId
  = Some (Some (SubmitAnswerBody.questionId body))
  ∧ ∃ s, fst (getUserState now' userId w1) = inr (Some s)
         ∧ UserState.lastQuestionId s = None.
Proof.
  intros Hs Hfst Hnow userId w1.
  destruct (submitAnswer_committed sha256_hex now body w result Hs Hfst)
    as (v & d & m' & _ & Htx & Hcommit & Hsnd).
  subst w1. rewrite Hsnd. split.
  - destruct (submitAnswer_tx_commit _ _ _ _ _ _ _ _ _ Htx)
      as (row & logged & _ & _ & _ & _ & ->). simpl.
    by rewrite lookup_insert_eq.
  - destruct (after_commit_effects _ _ _ _ _ _ Hcommit) as (_ & _ & _ & Hc & _).
    assert (Redis.find now' (USER_STATE_PREFIX +:+ userId) m'
            = Some {| value := PUserState (cacheState userId result);
                      expires := Some (now + TTL_SECONDS * 1000) |}) as Hf.
    { unfold Redis.find. subst userId. rewrite Hc. unfold Redis.live, TTL_SECONDS. simpl.
      destruct (now' <? now + 60 * 60 * 1000) eqn:E; [done|]. apply Z.ltb_ge in E. lia. }
    rewrite (getUserState_hit now' userId {| db := d; redis := m' |} _ _ Hf).
    destruct (decay_due now' Js.ISOString (cacheState userId result)); eauto.
Qed.

End Forgetting.

(** ** questions.ts: the next question *)

Lemma draw_Some {A} seed (rows : list A) x : draw seed rows = Some x → x ∈ rows.
Proof. unfold draw. apply list_elem_of_lookup_2. Qed.

Lemma draw_None {A} seed (rows : list A) : draw seed rows = None → rows = [].
Proof.
  unfold draw. intros H. apply lookup_ge_None in H.
  destruct rows as [|x rows]; [done|]. exfalso.
  pose proof (Nat.mod_upper_bound seed (length (x :: rows))) as Hlt. simpl in *. lia.
Qed.

Lemma elem_of_List_filter {A} (f : A → bool) (l : list A) x :
  x ∈ List.filter f l ↔ x ∈ l ∧ f x = true.
Proof. rewrite !list_elem_of_In. apply filter_In. Qed.

Lemma least_distance_le target q0 rest :
  let least := foldr (λ r acc, Z.min (distance target r) acc) (distance target q0) rest in
  least ≤ distance target q0 ∧ ∀ r, r ∈ rest → least ≤ distance target r.
Proof.
  induction rest as [|q rest [IH1 IH2]]; simpl.
  - split; [lia|]. intros r Hr. by apply elem_of_nil in Hr.
  - split; [lia|]. intros r Hr. apply elem_of_cons in Hr as [->|Hr]; [lia|].
    specialize (IH2 r Hr). lia.
Qed.

Lemma least_distance_attained target q0 rest :
  let least := foldr (λ r acc, Z.min (distance target r) acc) (distance target q0) rest in
  ∃ r, r ∈ q0 :: rest ∧ distance target r = least.
Proof.
  induction rest as [|q rest (r & Hr & IH)]; simpl.
  - exists q0. split; [left|done].
  - destruct (Z.min_spec (distance target q)
                (foldr (λ r acc, Z.min (distance target r) acc) (distance target q0) rest))
      as [[_ ->]|[_ ->]].
    + exists q. split; [right; left|done].
    + exists r. split; [|done]. apply elem_of_cons in Hr as [->|Hr]; [left|by do 2 right].
Qed.

Lemma nearest_spec target rows r :
  r ∈ nearest target rows →
  r ∈ rows ∧ ∀ r', r' ∈ rows → distance target r ≤ distance target r'.
Proof.
  destruct rows as [|q0 rest]; [by intros H%elem_of_nil|].
  unfold nearest. rewrite elem_of_List_filter. intros [Hr Hd]. split; [done|].
  apply Z.eqb_eq in Hd. rewrite Hd.
  destruct (least_distance_le target q0 rest) as [H0 Hrest].
  intros r' [->|Hr']%elem_of_cons; auto.
Qed.

Lemma nearest_nil target rows : nearest target rows = [] → rows = [].
Proof.
  destruct rows as [|q0 rest]; [done|]. unfold nearest. intros H. exfalso.
  destruct (least_distance_attained target q0 rest) as (r & Hr & Hd).
  assert (r ∈ List.filter
            (λ r, distance target r
                  =? foldr (λ r acc, Z.min (distance target r) acc) (distance target q0) rest)
            (q0 :: rest)) as Hin.
  { apply elem_of_List_filter. split; [done|]. by apply Z.eqb_eq. }
  rewrite H in Hin. by apply elem_of_nil in Hin.
Qed.

Lemma hydrate_id row : hydrate row = row.
Proof. by destruct row. Qed.

(** X22. [getQuestionByDifficulty] reads only. What it returns is a row of
    the bank other than the last question, and none that qualifies is
    nearer to the target difficulty: a row of the target difficulty when
    there is one. It returns nothing only when the bank holds no other
    question. *)
Theorem getQuestionByDifficulty_nearest seed1 seed2 target last d :
  ∃ found,
    getQuestionByDifficulty seed1 seed2 target last d = (inr found, d)
    ∧ match found with
      | Some q =>
          q ∈ bank d ∧ not_last last q = true
          ∧ ∀ q', q' ∈ bank d → not_last last q' = true →
                  distance target q ≤ distance target q'
      | None => ∀ q', q' ∈ bank d → not_last last q' = false
      end.
Proof.
  unfold getQuestionByDifficulty. se_unfold.
  destruct (draw seed1 _) as [row|] eqn:Hp.
  - exists (Some (hydrate row)). split; [done|]. rewrite hydrate_id.
    apply draw_Some, elem_of_List_filter in Hp as [Hin [Hd Hl]%andb_prop].
    split; [done|]. split; [done|]. intros q' _ _. unfold distance.
    apply Z.eqb_eq in Hd. rewrite Hd. lia.
  - clear Hp. destruct (draw seed2 _) as [row|] eqn:Hf.
    + exists (Some (hydrate row)). split; [done|]. rewrite hydrate_id.
      apply draw_Some, nearest_spec in Hf as [[Hin Hl]%elem_of_List_filter Hmin].
      split; [done|]. split; [done|]. intros q' Hq' Hl'.
      apply Hmin, elem_of_List_filter. by split.
    + exists None. split; [done|]. intros q' Hq'.
      apply draw_None, nearest_nil in Hf.
      destruct (not_last last q') eqn:E; [|done]. exfalso.
      assert (q' ∈ List.filter (not_last last) (bank d)) as Hin
        by (by apply elem_of_List_filter).
      rewrite Hf in Hin. by apply elem_of_nil in Hin.
Qed.

(** ** score.ts: monotonicity *)

Lemma score_monotone_table : score_monotone_ok = true.
Proof. vm_compute. reflexivity. Qed.

Lemma In_ordered_pairs (l : list Z) x y :
  x ∈ l → y ∈ l → x ≤ y → In (x, y) (ordered_pairs l).
Proof.
  intros Hx Hy Hle. unfold ordered_pairs. apply filter_In. split.
  - apply in_prod; by apply list_elem_of_In.
  - by apply Z.leb_le.
Qed.

(** X23. Among the difficulties 1 to 10, the score of a correct answer
    never goes down when the streak grows, nor when the difficulty grows. *)
Theorem calculateScore_monotone (d d' s s' : Z) :
  1 ≤ d → d ≤ d' → d' ≤ 10 → 0 ≤ s → s ≤ s' →
  PrimFloat.leb (calculateScore (Js.of_Z d) (Js.of_Z s) true)
                (calculateScore (Js.of_Z d) (Js.of_Z s') true) = true
  ∧ PrimFloat.leb (calculateScore (Js.of_Z d) (Js.of_Z s) true)
                  (calculateScore (Js.of_Z d') (Js.of_Z s) true) = true.
Proof.
  intros Hd1 Hdd Hd10 Hs0 Hss.
  pose proof score_monotone_table as H. unfold score_monotone_ok in H.
  apply andb_prop in H as [Hstreak Hdiff].
  rewrite forallb_forall in Hstreak. rewrite forallb_forall in Hdiff.
  assert (∀ x, 0 ≤ x → calculateScore (Js.of_Z d) (Js.of_Z x) true
                        = calculateScore (Js.of_Z d) (Js.of_Z (Z.min x 16)) true) as Hsat.
  { intros x Hx. destruct (Z_le_gt_dec x 16) as [Hle|Hgt]; [by rewrite Z.min_l|].
    rewrite Z.min_r by lia. apply calculateScore_saturated. lia. }
  assert (∀ x, 0 ≤ x → calculateScore (Js.of_Z d') (Js.of_Z x) true
                        = calculateScore (Js.of_Z d') (Js.of_Z (Z.min x 16)) true) as Hsat'.
  { intros x Hx. destruct (Z_le_gt_dec x 16) as [Hle|Hgt]; [by rewrite Z.min_l|].
    rewrite Z.min_r by lia. apply calculateScore_saturated. lia. }
  split.
  - rewrite (Hsat s), (Hsat s') by lia.
    assert (In d (seqZ 1 10)) as Hind by (apply list_elem_of_In, elem_of_seqZ; lia).
    specialize (Hstreak d Hind). rewrite forallb_forall in Hstreak.
    apply (Hstreak (Z.min s 16, Z.min s' 16)).
    apply In_ordered_pairs; [apply elem_of_seqZ; lia|apply elem_of_seqZ; lia|lia].
  - rewrite (Hsat s), (Hsat' s) by lia.
    assert (In (Z.min s 16) (seqZ 0 17)) as Hins
      by (apply list_elem_of_In, elem_of_seqZ; lia).
    specialize (Hdiff _ Hins). rewrite forallb_forall in Hdiff.
    apply (Hdiff (d, d')).
    apply In_ordered_pairs; [apply elem_of_seqZ; lia|apply elem_of_seqZ; lia|lia].
Qed.

(** ** Typed keys, and a cache that agrees with the rows *)

Lemma keys_typed_insert k e (m : gmap string entry) :
  keys_typed m → typed k (value e) → keys_typed (<[k := e]> m).
Proof.
  intros Hm He k' e'. destruct (decide (k = k')) as [<-|Hne].
  - rewrite lookup_insert_eq. by intros [= <-].
  - rewrite lookup_insert_ne by done. apply Hm.
Qed.

Lemma keys_typed_delete k (m : gmap string entry) : keys_typed m → keys_typed (delete k m).
Proof. intros Hm k' e' H. apply lookup_delete_Some in H as [_ H]. by apply Hm. Qed.

Lemma keys_typed_find now k e (m : gmap string entry) :
  keys_typed m → Redis.find now k m = Some e → typed k (value e).
Proof. intros Hm [H _]%find_live. by apply Hm. Qed.

Lemma typed_rate userId v : typed (rateKey userId) v → ∃ n, v = PCounter n.
Proof.
  destruct v; simpl; eauto; try done.
  - by intros [|].
  - by intros [? ?].
  - by intros [? ?].
  - intros ([] & ? & ?); done.
Qed.

Lemma typed_token key v : typed (IDEMP_PREFIX +:+ key) v → ∃ r, v = PResponse r.
Proof.
  destruct v; simpl; eauto; try done.
  - by intros [? ?].
  - by intros [|].
  - by intros [? ?].
  - intros ([] & ? & ?); done.
Qed.

Lemma typed_user userId v : typed (USER_STATE_PREFIX +:+ userId) v → ∃ s, v = PUserState s.
Proof.
  destruct v; simpl; eauto; try done.
  - by intros [? ?].
  - by intros [|].
  - by intros [? ?].
  - intros ([] & ? & ?); done.
Qed.

Lemma typed_top kind limit v : typed (cacheKeyForTop kind limit) v → ∃ entries, v = PTop entries.
Proof.
  destruct v; simpl; eauto; try done.
  - intros [? ?]. by destruct kind.
  - intros [|]; by destruct kind.
  - intros [? ?]. by destruct kind.
  - intros [? ?]. by destruct kind.
Qed.

Lemma typed_set kind v : typed (setKeyOf kind) v → ∃ z, v = PZset z.
Proof.
  destruct v; simpl; eauto; try done.
  - intros [? ?]. by destruct kind.
  - intros [? ?]. by destruct kind.
  - intros [? ?]. by destruct kind.
  - intros ([] & ? & ?); by destruct kind.
Qed.

Lemma incr_typed now userId m :
  keys_typed m →
  ∃ n m', Redis.incr now (rateKey userId) m = (inr n, m') ∧ keys_typed m'.
Proof.
  intros Hm. unfold Redis.incr.
  destruct (Redis.find now (rateKey userId) m) as [[p t]|] eqn:Hf.
  - destruct (typed_rate userId p (keys_typed_find _ _ _ _ Hm Hf)) as [n ->].
    eexists _, _. split; [done|]. apply keys_typed_insert; [done|]. by exists userId.
  - eexists _, _. split; [done|]. apply keys_typed_insert; [done|]. by exists userId.
Qed.

Lemma expire_typed now k s m : keys_typed m → keys_typed (snd (Redis.expire now k s m)).
Proof.
  intros Hm. unfold Redis.expire. destruct (Redis.find now k m) as [e|] eqn:Hf; [|done].
  simpl. apply keys_typed_insert; [done|]. simpl. by eapply keys_typed_find.
Qed.

Lemma gate_typed now userId m : keys_typed m → keys_typed (gate_redis now userId m).
Proof.
  intros Hm. unfold gate_redis.
  destruct (incr_typed now userId m Hm) as (n & m' & -> & Hm').
  destruct (n =? 1); [by apply expire_typed|done].
Qed.

Lemma zAdd_typed now kind x member m :
  keys_typed m →
  ∃ m', Redis.zAdd now (setKeyOf kind) x member m = (inr tt, m') ∧ keys_typed m'.
Proof.
  intros Hm. unfold Redis.zAdd.
  destruct (Redis.find now (setKeyOf kind) m) as [[p t]|] eqn:Hf.
  - destruct (typed_set kind p (keys_typed_find _ _ _ _ Hm Hf)) as [z ->].
    eexists. split; [done|]. apply keys_typed_insert; [done|]. simpl. destruct kind; auto.
  - eexists. split; [done|]. apply keys_typed_insert; [done|]. simpl. destruct kind; auto.
Qed.

Lemma after_commit_typed now userId key result m :
  keys_typed m →
  ∃ m', after_commit now userId key result m = (inr tt, m') ∧ keys_typed m'.
Proof.
  intros Hm. unfold after_commit, updateLeaderboardCaches. se_unfold.
  destruct (zAdd_typed now KScore (SubmitAnswerResponse.totalScore result) userId m Hm)
    as (m1 & E1 & Hm1).
  simpl in E1. rewrite E1.
  destruct (zAdd_typed now KStreak (Js.of_Z (SubmitAnswerResponse.maxStreak result))
              userId m1 Hm1) as (m2 & E2 & Hm2).
  simpl in E2. cbn [UserState.maxStreak]. rewrite E2.
  unfold updateUserState, storeIdempotency, Redis.set, Redis.del, modify. simpl.
  set (m3 := delete ("metrics:" +:+ userId) _).
  assert (keys_typed m3) as Hm3.
  { subst m3. apply keys_typed_delete, keys_typed_insert.
    - by do 2 apply keys_typed_delete.
    - by exists userId. }
  clearbody m3. destruct key as [key|]; [|by exists m3].
  destruct (nonempty key); [|by exists m3].
  eexists. split; [done|]. apply keys_typed_insert; [done|]. by exists key.
Qed.

Lemma stored_response_typed now body m p :
  keys_typed m → stored_response now body m = Some p → ∃ r, p = PResponse r.
Proof.
  intros Hm. unfold stored_response.
  destruct (SubmitAnswerBody.answerIdempotencyKey body) as [key|]; [|done].
  destruct (nonempty key); [|done].
  destruct (Redis.find now (IDEMP_PREFIX +:+ key) m) as [e|] eqn:Hf; [|done].
  simpl. intros [= <-]. eapply typed_token, keys_typed_find; eauto.
Qed.

Lemma zScore_typed now kind member m :
  keys_typed m → ∃ x, Redis.zScore now (setKeyOf kind) member m = (inr x, m).
Proof.
  intros Hm. unfold Redis.zScore.
  destruct (Redis.find now (setKeyOf kind) m) as [[p t]|] eqn:Hf; [|by eexists].
  destruct (typed_set kind p (keys_typed_find _ _ _ _ Hm Hf)) as [z ->]. by eexists.
Qed.

Lemma top_entries_typed now kind raw : ∀ index m,
  keys_typed m → ∃ entries, top_entries now kind index raw m = (inr entries, m).
Proof.
  induction raw as [|item rest IH]; intros index m Hm; simpl; [by eexists|].
  se_unfold. destruct (IH (index + 1) m Hm) as [es Hes].
  destruct kind.
  - destruct (zScore_typed now KStreak (fst item) m Hm) as [x Hx]. simpl in Hx.
    rewrite Hx, Hes. by eexists.
  - destruct (zScore_typed now KScore (fst item) m Hm) as [x Hx]. simpl in Hx.
    rewrite Hx, Hes. by eexists.
Qed.

Lemma getTop_typed now kind limit m :
  keys_typed m →
  ∃ entries m', getTop now kind (setKeyOf kind) limit m = (inr entries, m')
                ∧ keys_typed m'
                ∧ ∀ u, m' !! (USER_STATE_PREFIX +:+ u) = m !! (USER_STATE_PREFIX +:+ u).
Proof.
  intros Hm. unfold getTop. se_unfold. rewrite get_find.
  destruct (Redis.find now (cacheKeyForTop kind (Z.max 1 limit)) m) as [[p t]|] eqn:Hf.
  - destruct (typed_top _ _ p (keys_typed_find _ _ _ _ Hm Hf)) as [es ->]. by eexists _, _.
  - assert (∃ raw, Redis.zRangeWithScores now (setKeyOf kind) 0 (Z.max 1 limit - 1) m
                   = (inr raw, m)) as [raw ->].
    { unfold Redis.zRangeWithScores.
      destruct (Redis.find now (setKeyOf kind) m) as [[p t]|] eqn:Hs; [|by eexists].
      destruct (typed_set kind p (keys_typed_find _ _ _ _ Hm Hs)) as [z ->]. by eexists. }
    destruct (top_entries_typed now kind raw 0 m Hm) as [es ->].
    unfold Redis.set, modify. simpl. eexists _, _. split; [done|]. split.
    + apply keys_typed_insert; [done|]. by eexists _, _.
    + intros u. rewrite lookup_insert_ne; [done|]. destruct kind; discriminate.
Qed.

Lemma agrees_hydrate row : agrees (hydrateState row) row.
Proof. by repeat split. Qed.

Lemma agrees_decayed s row :
  agrees s row → agrees (decayed s) (update_decay (decayed s) row).
Proof. intros (? & ? & ? & ? & ? & ? & ? & ?). by repeat split. Qed.

Lemma row_sound_decayed u s row :
  row_sound u row → agrees s row → row_sound u (update_decay (decayed s) row).
Proof.
  intros (Hu & Hs & Hv) (_ & _ & Es & _ & _ & Ev & _). split; [done|]. simpl.
  rewrite Es, Ev. split; [|lia]. split; [apply Z.div_pos; lia|].
  assert (Schema.streak row / 2 ≤ Schema.streak row); [|lia].
  apply Z.div_le_upper_bound; lia.
Qed.

(** A decaying write of a state that agrees with the row of its user. *)
Lemma decay_write_sound now u s row w :
  sound w → user_state (db w) !! u = Some row → agrees s row →
  sound {| db := set_user_state (alter (update_decay (decayed s)) (UserState.userId s)) (db w);
           redis := <[USER_STATE_PREFIX +:+ u :=
                        {| value := PUserState (decayed s);
                           expires := Some (now + TTL_SECONDS * 1000) |}]> (redis w) |}.
Proof.
  intros (Ht & Hrows & Hc) Hrow Ha.
  assert (UserState.userId s = u) as Hu.
  { destruct Ha as [-> _]. by destruct (Hrows u row Hrow) as [? _]. }
  rewrite Hu. split; [|split]; simpl.
  - apply keys_typed_insert; [done|]. by exists u.
  - intros u' row'. destruct (decide (u = u')) as [<-|Hne].
    + rewrite lookup_alter_eq, Hrow. simpl. intros [= <-].
      by apply row_sound_decayed; [apply Hrows|].
    + rewrite lookup_alter_ne by done. apply Hrows.
  - intros u' e s'. simpl. destruct (decide (u = u')) as [<-|Hne].
    + rewrite lookup_insert_eq. intros [= <-]. simpl. intros [= <-].
      exists (update_decay (decayed s) row).
      rewrite lookup_alter_eq, Hrow. split; [done|]. by apply agrees_decayed.
    + rewrite lookup_insert_ne.
      2:{ intros H. by apply (inj (String.app _)) in H. }
      rewrite lookup_alter_ne by done. apply Hc.
Qed.

(** A write of the hydrated row to the cache. *)
Lemma hydrate_write_sound now u row w :
  sound w → user_state (db w) !! u = Some row →
  sound {| db := db w;
           redis := <[USER_STATE_PREFIX +:+ u :=
                        {| value := PUserState (hydrateState row);
                           expires := Some (now + TTL_SECONDS * 1000) |}]> (redis w) |}.
Proof.
  intros (Ht & Hrows & Hc) Hrow. split; [|split]; simpl.
  - apply keys_typed_insert; [done|]. by exists u.
  - done.
  - intros u' e s'. simpl. destruct (decide (u = u')) as [<-|Hne].
    + rewrite lookup_insert_eq. intros [= <-]. simpl. intros [= <-].
      exists row. split; [done|]. apply agrees_hydrate.
    + rewrite lookup_insert_ne.
      2:{ intros H. by apply (inj (String.app _)) in H. }
      apply Hc.
Qed.

(** A read succeeds, keeps the invariants, and what it returns is then in
    the cache. *)
Lemma getUserState_sound now userId w :
  sound w →
  sound (snd (getUserState now userId w))
  ∧ ((fst (getUserState now userId w) = inr None
      ∧ user_state (db w) !! userId = None)
     ∨ ∃ s t, fst (getUserState now userId w) = inr (Some s)
              ∧ redis (snd (getUserState now userId w)) !! (USER_STATE_PREFIX +:+ userId)
                = Some {| value := PUserState s; expires := t |}).
Proof.
  intros Hw. pose proof Hw as (Ht & Hrows & Hc).
  destruct (Redis.find now (USER_STATE_PREFIX +:+ userId) (redis w)) as [[p t]|] eqn:Hf.
  - destruct (typed_user _ p (keys_typed_find _ _ _ _ Ht Hf)) as [s ->].
    rewrite (getUserState_hit now userId w s t Hf).
    apply find_live in Hf as [Hl _].
    destruct (Hc userId _ s Hl eq_refl) as (row & Hrow & Ha).
    destruct (decay_due now Js.ISOString s); simpl.
    + split; [by apply (decay_write_sound now userId s row)|].
      right. eexists _, _. split; [done|]. by rewrite lookup_insert_eq.
    + split; [done|]. right. by eexists _, _.
  - rewrite (getUserState_miss now userId w Hf).
    destruct (user_state (db w) !! userId) as [row|] eqn:Hrow.
    2:{ simpl. split; [done|]. by left. }
    simpl. split.
    2:{ right. eexists _, _. split; [done|]. by rewrite lookup_insert_eq. }
    unfold read_state. destruct (decay_due now Js.DateObject (hydrateState row)).
    + pose proof (hydrate_write_sound now userId row w Hw Hrow) as Hw1.
      pose proof (decay_write_sound now userId (hydrateState row) row _ Hw1 Hrow
                    (agrees_hydrate row)) as Hw2.
      simpl in Hw2. by rewrite insert_insert_eq in Hw2.
    + by apply hydrate_write_sound.
Qed.

Lemma getTop_sound now kind limit w :
  sound w →
  sound (snd (onRedis (getTopOf kind now limit) w))
  ∧ ∃ entries, fst (onRedis (getTopOf kind now limit) w) = inr entries.
Proof.
  intros (Ht & Hrows & Hc). rewrite getTopOf_getTop. unfold onRedis.
  destruct (getTop_typed now kind limit (redis w) Ht) as (es & m' & -> & Hm' & Hframe).
  simpl. split; [|by eexists]. split; [done|]. split; [done|].
  intros u e s. simpl. rewrite Hframe. apply Hc.
Qed.

Lemma onboard_sound userId w : sound w → sound (onboard userId w).
Proof.
  intros (Ht & Hrows & Hc). split; [done|]. split.
  - intros u row. simpl. destruct (user_state (db w) !! userId) eqn:E; [apply Hrows|].
    destruct (decide (userId = u)) as [->|Hne].
    + rewrite lookup_insert_eq. intros [= <-]. by vm_compute.
    + rewrite lookup_insert_ne by done. apply Hrows.
  - intros u e s He Hs. destruct (Hc u e s He Hs) as (row & Hrow & Ha).
    exists row. split; [|done]. simpl.
    destruct (user_state (db w) !! userId) eqn:E; [done|].
    rewrite lookup_insert_ne; [done|]. intros <-. congruence.
Qed.

Lemma initial_sound w : initial w → sound w.
Proof.
  intros (Hredis & Hrows & _). split; [|split].
  - intros k e. by rewrite Hredis, lookup_empty.
  - intros u row Hr. rewrite (Hrows u row Hr). by vm_compute.
  - intros u e s. by rewrite Hredis, lookup_empty.
Qed.

Section Soundness.

Variable sha256_hex : string → string.

Lemma submitAnswer_tx_error now userId questionId answer v d e d' :
  submitAnswer_tx sha256_hex now userId questionId answer v d = (inl e, d') →
  e ≠ RedisWrongType.
Proof.
  unfold submitAnswer_tx, upsertLeaderboardTx, execute. se_unfold.
  destruct (user_state d !! userId) as [row|]; [|by intros [= <- _]].
  destruct (negb _); [by intros [= <- _]|].
  destruct (questions d !! questionId) as [question|]; [|by intros [= <- _]].
  destruct (computeNextDifficulty _ _ _ _) as [nd nc].
  destruct (accepts_BIGINT _); [|by intros [= <- _]]. simpl.
  destruct (accepts_INT _); [|by intros [= <- _]]. done.
Qed.

(** The streaks of a response. *)
Lemma submitAnswer_tx_streaks now userId questionId answer v d result d' row :
  submitAnswer_tx sha256_hex now userId questionId answer v d = (inr result, d') →
  user_state d !! userId = Some row →
  0 ≤ Schema.streak row ≤ Schema.max_streak row →
  0 ≤ SubmitAnswerResponse.newStreak result ≤ SubmitAnswerResponse.maxStreak result
  ∧ Schema.state_version row < SubmitAnswerResponse.stateVersion result.
Proof.
  unfold submitAnswer_tx, upsertLeaderboardTx, execute. se_unfold. intros Htx Hrow Hs.
  rewrite Hrow in Htx.
  destruct (negb _); [done|].
  destruct (questions d !! questionId) as [question|]; [|done].
  destruct (computeNextDifficulty _ _ _ _) as [nd nc].
  destruct (accepts_BIGINT _); [|done]. simpl in Htx.
  destruct (accepts_INT _); [|done]. simpl in Htx.
  injection Htx as <- _. simpl.
  assert (0 ≤ UserState.streak (current_state now row)) as H0.
  { unfold current_state. destruct (decay_flag now row); simpl; [|lia].
    apply Z.div_pos; lia. }
  pose proof (current_state_version now row).
  split; [|lia]. destruct (String.eqb _ _); lia.
Qed.

(** A submission keeps the invariants, and Redis never answers it with a
    type error. *)
Lemma submitAnswer_sound now body w :
  sound w →
  sound (snd (submitAnswer sha256_hex now body w))
  ∧ fst (submitAnswer sha256_hex now body w) ≠ inl RedisWrongType.
Proof.
  intros Hw. pose proof Hw as (Ht & Hrows & Hc).
  assert (sound {| db := db w;
                   redis := gate_redis now (SubmitAnswerBody.userId body) (redis w) |})
    as Hgate.
  { split; [by apply gate_typed|]. split; [done|].
    intros u e s. simpl. rewrite gate_redis_lookup_ne by discriminate. apply Hc. }
  apply (submitAnswer_cases sha256_hex now body w
           (λ out, sound (snd out) ∧ fst out ≠ inl RedisWrongType)); try done.
  - intros v e m _ _ Hincr.
    destruct (incr_typed now (SubmitAnswerBody.userId body) (redis w) Ht)
      as (n & m' & Hincr' & _). congruence.
  - intros v attempts m p _ _ _ _ Hs. simpl. split; [done|].
    by destruct (stored_response_typed now body (redis w) p Ht Hs) as [r ->].
  - intros v attempts m e d _ _ _ _ _ Htx. simpl. split; [done|].
    intros [= ->]. by apply submitAnswer_tx_error in Htx.
  - intros v attempts m result d r m'' _ _ _ _ _ Htx Hcommit.
    destruct Hgate as (Ht' & _ & _).
    destruct (after_commit_typed now (SubmitAnswerBody.userId body)
                (SubmitAnswerBody.answerIdempotencyKey body) result _ Ht')
      as (m3 & Hcommit' & Hm3).
    cbn [redis] in Hcommit'. rewrite Hcommit in Hcommit'. injection Hcommit' as -> ->. simpl.
    split; [|done].
    destruct (submitAnswer_tx_commit _ _ _ _ _ _ _ _ _ Htx)
      as (row & logged & Hrow & Hv & Hv' & Hat & Hd).
    destruct (Hrows _ _ Hrow) as (Hu & Hs & Hver).
    destruct (submitAnswer_tx_streaks _ _ _ _ _ _ _ _ _ Htx Hrow Hs) as [Hs' Hver'].
    subst d. split; [done|]. split; simpl.
    + intros u row'. destruct (decide (SubmitAnswerBody.userId body = u)) as [<-|Hne].
      * rewrite lookup_insert_eq. intros [= <-]. split; [done|]. simpl. split; [done|lia].
      * rewrite lookup_insert_ne by done. apply Hrows.
    + intros u e s. simpl.
      destruct (decide (SubmitAnswerBody.userId body = u)) as [<-|Hne].
      * destruct (after_commit_effects _ _ _ _ _ _ Hcommit) as (_ & _ & _ & -> & _).
        intros [= <-]. simpl. intros [= <-].
        eexists. rewrite lookup_insert_eq. split; [done|]. by rewrite Hu.
      * replace m3 with (snd (after_commit now (SubmitAnswerBody.userId body)
          (SubmitAnswerBody.answerIdempotencyKey body) result
          (gate_redis now (SubmitAnswerBody.userId body) (redis w)))) by by rewrite Hcommit.
        rewrite after_commit_frame by (by apply user_key_not_after_commit).
        rewrite gate_redis_lookup_ne by discriminate.
        rewrite lookup_insert_ne by done. apply Hc.
Qed.

(** With typed keys the steps after a commit do not fail: a submission
    that changes the durable store is answered with its response. *)
Lemma submitAnswer_answered now body w :
  sound w →
  db (snd (submitAnswer sha256_hex now body w)) ≠ db w →
  ∃ result, fst (submitAnswer sha256_hex now body w) = inr result.
Proof.
  intros (Ht & _ & _).
  apply (submitAnswer_cases sha256_hex now body w
           (λ out, db (snd out) ≠ db w → ∃ result, fst out = inr result)); try done.
  intros v attempts m result d r m'' _ _ _ _ _ _ Hcommit _.
  destruct (after_commit_typed now (SubmitAnswerBody.userId body)
              (SubmitAnswerBody.answerIdempotencyKey body) result _
              (gate_typed now (SubmitAnswerBody.userId body) (redis w) Ht))
    as (m3 & Hcommit' & _).
  rewrite Hcommit in Hcommit'. injection Hcommit' as -> ->. by eexists.
Qed.

Lemma reachable_sound w : reachable sha256_hex w → sound w.
Proof.
  induction 1 as [w Hi|w u _ IH|w now body _ IH|w now u _ IH|w now kind limit _ IH].
  - by apply initial_sound.
  - by apply onboard_sound.
  - by apply submitAnswer_sound.
  - by apply getUserState_sound.
  - by apply getTop_sound.
Qed.

(** X24. In no store reachable from the onboarding defaults does Redis
    answer with a type error: a read of a user state and a read of a top
    list return, a submission never fails with a Redis type error, and a
    submission that changes the durable store is answered with its
    response. *)
Theorem reachable_redis_is_typed w now userId kind limit body :
  reachable sha256_hex w →
  (∃ state, fst (getUserState now userId w) = inr state)
  ∧ (∃ entries, fst (onRedis (getTopOf kind now limit) w) = inr entries)
  ∧ fst (submitAnswer sha256_hex now body w) ≠ inl RedisWrongType
  ∧ (db (snd (submitAnswer sha256_hex now body w)) ≠ db w →
     ∃ result, fst (submitAnswer sha256_hex now body w) = inr result).
Proof.
  intros Hw%reachable_sound. split; [|split; [|split]].
  - destruct (getUserState_sound now userId w Hw) as [_ [[-> _]|(s & t & -> & _)]]; eauto.
  - by destruct (getTop_sound now kind limit w Hw) as [_ ?].
  - by destruct (submitAnswer_sound now body w Hw) as [_ ?].
  - by apply submitAnswer_answered.
Qed.


(** X26. In every reachable store each row is kept under its user, its
    streak is between zero and the best streak, and its version is at
    least one. *)
Theorem reachable_streak_within_best w userId row :
  reachable sha256_hex w →
  user_state (db w) !! userId = Some row →
  Schema.user_id row = userId
  ∧ 0 ≤ Schema.streak row ≤ Schema.max_streak row
  ∧ 1 ≤ Schema.state_version row.
Proof. intros (_ & Hrows & _)%reachable_sound Hrow. by apply Hrows. Qed.


End Soundness.

(** ** The leaderboards agree with the rows *)





















Section Boards.

Variable sha256_hex : string → string.







End Boards.

(** ** The further properties at samples *)

(** X5, at a sample: an empty answer. *)
Lemma invalid_submission_changes_nothing_witness :
  submitAnswer Sample.digest 2000 (Sample.submission "" 3 None) Sample.world
  = (inl MissingRequiredFields, Sample.world).
Proof.
  apply (invalid_submission_changes_nothing Sample.digest 2000
           (Sample.submission "" 3 None) Sample.world).
  left. reflexivity.
Defined.

(** X6, at a sample: the twenty-first submission of the window. *)
Lemma rate_limit_refuses_witness :
  submitAnswer Sample.digest 2000 (Sample.submission "a" 3 None) (Sample.replay_world 20)
  = (inl RateLimitExceeded,
     {| db := db (Sample.replay_world 20);
        redis := <["rate:u1" := {| value := PCounter 21;
                                   expires := Some (1000 + Sample.minute) |}]>
                   (redis (Sample.replay_world 20)) |}).
Proof.
  apply (rate_limit_refuses Sample.digest 2000 (Sample.submission "a" 3 None)
           (Sample.replay_world 20) 3 20 (Some (1000 + Sample.minute)));
    vm_compute; (reflexivity || discriminate).
Defined.

(** X7, at a sample: a first submission starts the window. *)
Lemma every_submission_is_counted_witness :
  Redis.find 2000 "rate:u1"
    (redis (snd (submitAnswer Sample.digest 2000 (Sample.submission "a" 3 None)
                   Sample.world)))
  = Some {| value := PCounter 1; expires := Some (2000 + 60 * 1000) |}.
Proof.
  apply (every_submission_is_counted Sample.digest 2000 (Sample.submission "a" 3 None)
           Sample.world 3); reflexivity.
Defined.

(** X8, at a sample: a question that is not in the bank. *)
Lemma unknown_user_or_question_witness :
  submitAnswer Sample.digest 2000 Scenario.lost_question Sample.world
  = (inl QuestionNotFound,
     {| db := db Sample.world; redis := gate_redis 2000 "u1" (redis Sample.world) |}).
Proof.
  apply (proj2 (unknown_user_or_question Sample.digest 2000 Scenario.lost_question
                  Sample.world 3 1 (snd (Redis.incr 2000 "rate:u1" (redis Sample.world)))
                  eq_refl eq_refl eq_refl ltac:(vm_compute; discriminate) eq_refl)
               Sample.row);
    reflexivity.
Defined.

(** X8 next to the decay: the last answer was at 1500 ms and the submission
    comes at 301400 ms. The time is read as 1000 ms, so the decay is due
    and the version that passes the check is 4: with it the missing
    question is reported; with the row's 3 the version check comes first. *)
Example unknown_question_after_decay :
  let body v := {| SubmitAnswerBody.userId := "u1";
                   SubmitAnswerBody.questionId := "q9";
                   SubmitAnswerBody.answer := "a";
                   SubmitAnswerBody.stateVersion := Some v;
                   SubmitAnswerBody.answerIdempotencyKey := None |} in
  fst (submitAnswer Sample.digest 301400 (body 4) Scenario.late_world) = inl QuestionNotFound
  ∧ fst (submitAnswer Sample.digest 301400 (body 3) Scenario.late_world)
    = inl StateVersionMismatch.
Proof. vm_compute. split; reflexivity. Qed.

(** X10, at a sample: the first answer of [u1], which scores 33. *)
Lemma committed_row_matches_response_witness :
  let d' := snd (submitAnswer_tx Sample.digest 2000 "u1" "q1" "a" 1 (db Sample.starter_world)) in
  SubmitAnswerResponse.stateVersion Scenario.first_response = 1 + 1
  ∧ (∃ row, user_state (db Sample.starter_world) !! "u1" = Some row
            ∧ user_state d' !! "u1"
              = Some (committed_row (Schema.user_id row) "q1" Scenario.first_response))
  ∧ leaderboard_score d' !! "u1"
    = Some (SubmitAnswerResponse.totalScore Scenario.first_response, 2000)
  ∧ leaderboard_streak d' !! "u1"
    = Some (SubmitAnswerResponse.maxStreak Scenario.first_response, 2000).
Proof.
  apply (committed_row_matches_response Sample.digest 2000 "u1" "q1" "a" 1
           (db Sample.starter_world) Scenario.first_response).
  vm_compute. reflexivity.
Defined.

(** X11, at a sample: the first answer of [u1], sent twice. *)
Lemma committed_version_is_spent_witness :
  let body := Sample.submission "a" 1 None in
  let w1 := snd (submitAnswer Sample.digest 2000 body Sample.starter_world) in
  (fst (submitAnswer Sample.digest 3000 body w1) = inl RateLimitExceeded
   ∨ fst (submitAnswer Sample.digest 3000 body w1) = inl StateVersionMismatch)
  ∧ db (snd (submitAnswer Sample.digest 3000 body w1)) = db w1.
Proof.
  apply (committed_version_is_spent Sample.digest 2000 3000 (Sample.submission "a" 1 None)
           Sample.starter_world Scenario.first_response); vm_compute; reflexivity.
Defined.

(** X12, at a sample: another user sends the token of [u1]. *)
Lemma token_names_one_response_witness :
  let w1 := snd (submitAnswer Sample.digest 2000 (Sample.submission "a" 1 (Some "k1"))
                   Sample.starter_world) in
  submitAnswer Sample.digest 3000 Scenario.stranger w1
  = (inr Scenario.first_response,
     {| db := db w1; redis := gate_redis 3000 "u2" (redis w1) |}).
Proof.
  apply (token_names_one_response Sample.digest 2000 3000
           (Sample.submission "a" 1 (Some "k1")) Scenario.stranger Sample.starter_world
           Scenario.first_response "k1" 9 1
           (snd (Redis.incr 3000 "rate:u2"
                   (redis (snd (submitAnswer Sample.digest 2000
                                  (Sample.submission "a" 1 (Some "k1"))
                                  Sample.starter_world))))));
    vm_compute; (reflexivity || discriminate).
Defined.

(** X13, at a sample: [u1] comes to 195 points, alone in both tables. *)
Lemma upsert_rank_bounds_witness :
  let d' := upsert_leaderboard 2000 "u1" 195 6 (db Sample.world) in
  accepts_BIGINT 195 = true
  ∧ leaderboard_score d' !! "u1" = Some (195%float, 2000)
  ∧ leaderboard_streak d' !! "u1" = Some (6, 2000)
  ∧ 1 = rank_above (λ x, PrimFloat.ltb 195 x) (leaderboard_score d')
  ∧ 1 = rank_above (λ x, 6 <? x) (leaderboard_streak d')
  ∧ 1 ≤ 1 ≤ Z.of_nat (size (leaderboard_score d'))
  ∧ 1 ≤ 1 ≤ Z.of_nat (size (leaderboard_streak d')).
Proof.
  apply (upsert_rank_bounds 2000 "u1" 195 6 (db Sample.world) 1 1
           (upsert_leaderboard 2000 "u1" 195 6 (db Sample.world))).
  vm_compute. reflexivity.
Defined.

(** X14, at a sample: the first answer of [u1] ranks first. *)
Lemma getRank_agrees_with_response_witness :
  let d' := snd (submitAnswer_tx Sample.digest 2000 "u1" "q1" "a" 1 (db Sample.starter_world)) in
  getRank "u1" d' = (inr (Some 1, Some 1), d')
  ∧ ∀ stranger, leaderboard_score d' !! stranger = None →
                leaderboard_streak d' !! stranger = None →
                getRank stranger d' = (inr (None, None), d').
Proof.
  apply (getRank_agrees_with_response Sample.digest 2000 "u1" "q1" "a" 1
           (db Sample.starter_world) Scenario.first_response).
  vm_compute. reflexivity.
Defined.

(** X15, at a sample: a top five cached before an answer that commits. *)
Lemma top_cache_outlives_submissions_witness :
  fst (onRedis (getTopOf KScore 2000 5)
         (snd (submitAnswer Sample.digest 1500 (Sample.submission "a" 3 None)
                 Scenario.top5_world)))
  = inr Sample.ranked_top.
Proof.
  apply (top_cache_outlives_submissions Sample.digest 2000 1500
           (Sample.submission "a" 3 None) Scenario.top5_world KScore 5 Sample.ranked_top
           (Some 30000)); vm_compute; (reflexivity || discriminate).
Defined.

(** X16, at a sample: the caches after the first answer of [u1]. *)
Lemma commit_refreshes_caches_witness :
  let m := redis (snd (submitAnswer Sample.digest 2000 (Sample.submission "a" 1 None)
                         Sample.starter_world)) in
  m !! cacheKeyForTop KScore 10 = None
  ∧ m !! cacheKeyForTop KStreak 10 = None
  ∧ m !! ("metrics:" +:+ "u1") = None
  ∧ m !! (USER_STATE_PREFIX +:+ "u1")
    = Some {| value := PUserState (cacheState "u1" Scenario.first_response);
              expires := Some (2000 + 60 * 60 * 1000) |}
  ∧ (∃ z t, m !! SCORE_SET_KEY = Some {| value := PZset z; expires := t |}
            ∧ z !! "u1" = Some (SubmitAnswerResponse.totalScore Scenario.first_response))
  ∧ (∃ z t, m !! STREAK_SET_KEY = Some {| value := PZset z; expires := t |}
            ∧ z !! "u1"
              = Some (Js.of_Z (SubmitAnswerResponse.maxStreak Scenario.first_response))).
Proof.
  apply (commit_refreshes_caches Sample.digest 2000 (Sample.submission "a" 1 None)
           Sample.starter_world Scenario.first_response); vm_compute; reflexivity.
Defined.

(** X18, at a sample: the last answer was at 1500 ms and the read comes at
    301400 ms, 299.9 seconds later. The row gives the time as a [Date],
    which is read as 1000 ms: the decay is due, and the read takes the
    streak from 4 to 2 and the version from 3 to 4, in the row and in the
    cache. *)
Lemma read_through_cache_witness :
  let now := 301400 in
  fst (getUserState now "u1" Scenario.late_world)
  = inr (Some (read_state now Scenario.late_row))
  ∧ hydrateState <$> user_state (db (snd (getUserState now "u1" Scenario.late_world))) !! "u1"
    = Some (read_state now Scenario.late_row)
  ∧ Redis.find now (USER_STATE_PREFIX +:+ "u1")
      (redis (snd (getUserState now "u1" Scenario.late_world)))
    = Some {| value := PUserState (read_state now Scenario.late_row);
              expires := Some (now + 60 * 60 * 1000) |}.
Proof.
  apply (read_through_cache 301400 "u1" Scenario.late_world).
  - reflexivity.
  - intros row. vm_compute. intros [= <-]. reflexivity.
Defined.

(** The state that this read returns. *)
Example read_state_whole_seconds :
  read_state 301400 Scenario.late_row = decayed (hydrateState Scenario.late_row)
  ∧ UserState.streak (read_state 301400 Scenario.late_row) = 2
  ∧ UserState.stateVersion (read_state 301400 Scenario.late_row) = 4
  ∧ fst (getUserState 301400 "u1"
           {| db := db Scenario.late_world;
              redis := snd (invalidateUserState "u1" (redis Scenario.cached_world)) |})
    = inr (Some (decayed (hydrateState Scenario.late_row))).
Proof. vm_compute. repeat split; reflexivity. Qed.

(** X20, at a sample: two reads, six and seven minutes after the last
    answer, take the streak from 4 to 1. *)
Lemma idle_reads_decay_again_witness :
  let now := 1000 + 6 * Sample.minute in
  let s := hydrateState Sample.row in
  fst (getUserState now "u1" Scenario.cached_world) = inr (Some (decayed s))
  ∧ fst (getUserState (now + Sample.minute) "u1"
           (snd (getUserState now "u1" Scenario.cached_world)))
    = inr (Some (decayed (decayed s)))
  ∧ UserState.streak (decayed (decayed s)) = UserState.streak s / 2 / 2
  ∧ UserState.stateVersion (decayed (decayed s)) = UserState.stateVersion s + 2.
Proof.
  apply (idle_reads_decay_again (1000 + 6 * Sample.minute)
           (1000 + 6 * Sample.minute + Sample.minute) "u1" Scenario.cached_world
           (hydrateState Sample.row) (Some (1000 + 60 * Sample.minute)));
    vm_compute; try reflexivity; try discriminate.
  split; [discriminate|reflexivity].
Defined.

(** X21, at a sample: the read after the first answer of [u1]. *)
Lemma cached_state_forgets_last_question_witness :
  let w1 := snd (submitAnswer Sample.digest 2000 (Sample.submission "a" 1 None)
                   Sample.starter_world) in
  Schema.last_question_id <$> user_state (db w1) !! "u1" = Some (Some "q1")
  ∧ ∃ s, fst (getUserState 3000 "u1" w1) = inr (Some s)
         ∧ UserState.lastQuestionId s = None.
Proof.
  apply (cached_state_forgets_last_question Sample.digest 2000 3000
           (Sample.submission "a" 1 None) Sample.starter_world Scenario.first_response);
    vm_compute; reflexivity.
Defined.

(** X23, at a sample. *)
Lemma calculateScore_monotone_witness :
  PrimFloat.leb (calculateScore (Js.of_Z 3) (Js.of_Z 2) true)
                (calculateScore (Js.of_Z 3) (Js.of_Z 40) true) = true
  ∧ PrimFloat.leb (calculateScore (Js.of_Z 3) (Js.of_Z 2) true)
                  (calculateScore (Js.of_Z 8) (Js.of_Z 2) true) = true.
Proof. apply (calculateScore_monotone 3 8 2 40); lia. Defined.

(** X24, at a sample: the store after the first answer of [u1], read and
    answered a second time. *)
Lemma reachable_redis_is_typed_witness :
  let w := snd (submitAnswer Sample.digest 2000 (Sample.submission "a" 1 None)
                  Sample.starter_world) in
  (∃ state, fst (getUserState 3000 "u1" w) = inr state)
  ∧ (∃ entries, fst (onRedis (getTopOf KScore 3000 10) w) = inr entries)
  ∧ fst (submitAnswer Sample.digest 3000 (Sample.submission "a" 2 None) w)
    ≠ inl RedisWrongType
  ∧ (db (snd (submitAnswer Sample.digest 3000 (Sample.submission "a" 2 None) w)) ≠ db w →
     ∃ result, fst (submitAnswer Sample.digest 3000 (Sample.submission "a" 2 None) w)
               = inr result).
Proof.
  apply (reachable_redis_is_typed Sample.digest
           (snd (submitAnswer Sample.digest 2000 (Sample.submission "a" 1 None)
                   Sample.starter_world))
           3000 "u1" KScore 10 (Sample.submission "a" 2 None)).
  apply reachable_submit, reachable_initial, starter_world_initial.
Defined.

(** The second answer is committed: it scores 36 and takes the row to
    version 3. *)
Example second_answer_commits :
  let w := snd (submitAnswer Sample.digest 2000 (Sample.submission "a" 1 None)
                  Sample.starter_world) in
  let out := submitAnswer Sample.digest 3000 (Sample.submission "a" 2 None) w in
  (∃ r, fst out = inr r
        ∧ SubmitAnswerResponse.scoreDelta r = 36%float
        ∧ SubmitAnswerResponse.totalScore r = 69%float
        ∧ SubmitAnswerResponse.stateVersion r = 3)
  ∧ Schema.state_version <$> user_state (db (snd out)) !! "u1" = Some 3.
Proof.
  split; [eexists; repeat split; vm_compute; reflexivity|vm_compute; reflexivity].
Qed.


(** X26, at a sample: the row after the first answer of [u1]. *)
Lemma reachable_streak_within_best_witness :
  Schema.user_id Sample.answered_row = "u1"
  ∧ 0 ≤ Schema.streak Sample.answered_row ≤ Schema.max_streak Sample.answered_row
  ∧ 1 ≤ Schema.state_version Sample.answered_row.
Proof.
  apply (reachable_streak_within_best Sample.digest
           (snd (submitAnswer Sample.digest 2000 (Sample.submission "a" 1 None)
                   Sample.starter_world)) "u1" Sample.answered_row).
  - apply reachable_submit, reachable_initial, starter_world_initial.
  - vm_compute. reflexivity.
Defined.


(** Both sides of this instance hold. *)
Example read_version_rejected_within_five_minutes :
  let w := snd (submitAnswer Sample.digest 2500 (Sample.submission "a" 1 None)
                  Sample.starter_world) in
  fst (getUserState 3000 "u1" w) = inr (Some Scenario.late_state)
  ∧ UserState.lastAnswerAt Scenario.late_state = Some 2500
  ∧ 302400 - 2500 < 5 * 60 * 1000
  ∧ fst (submitAnswer_tx Sample.digest 302400 "u1" "q1" "a" 2
           (db (snd (getUserState 3000 "u1" w)))) = inl StateVersionMismatch.
Proof. vm_compute. repeat split; reflexivity. Qed.




(** The versions of this instance. *)
Example versions_rise :
  let w := snd (submitAnswer Sample.digest 2000 (Sample.submission "a" 1 None)
                  Sample.starter_world) in
  let now := 2000 + 6 * Sample.minute in
  Schema.state_version <$> user_state (db w) !! "u1" = Some 2
  ∧ Schema.state_version
      <$> user_state (db (snd (submitAnswer Sample.digest now
                                 (Sample.submission "a" 3 None) w))) !! "u1" = Some 4
  ∧ Schema.state_version <$> user_state (db (snd (getUserState now "u1" w))) !! "u1"
    = Some 3.
Proof. vm_compute. repeat split; reflexivity. Qed.
